(** * VideoCallApp: signaling relay and peer negotiation engine

    A shallow embedding of the two stateful cores of the repository:

    - [Relay]: the Socket.io handlers of [server/index.js] (room registry
      and routing of offer / answer / ice-candidate messages);
    - [Engine]: the [usePeerConnection] hook and the socket listeners of
      [client/src/components/VideoCall.js];

    and of two smaller parts of the client:

    - [Media]: the toggles and the stop functions of the [useMedia] hook;
    - [RecentRooms]: the recent rooms that [VideoCall.js] keeps in local
      storage.

    JavaScript objects that are shared by reference (the user record that
    sits both in [users] and in a room's [users] map, the RTCPeerConnection
    captured by timer callbacks) live in an explicit heap and are named by
    references, so aliasing is part of the model. *)

From stdpp Require Import gmap strings list fin_maps.

Local Open Scope string_scope.
Local Open Scope list_scope.

(** ** Insertion-ordered maps (the JavaScript [Map] whose iteration order
    the code relies on) *)

Module JsMap.
Section jsmap.
Context {V : Type}.

Definition t := list (string * V).

Definition keys (m : t) : list string := m.*1.
Definition values (m : t) : list V := m.*2.

(** [Map.prototype.set]: an existing key keeps its position. *)
Fixpoint set (k : string) (v : V) (m : t) : t :=
  match m with
  | [] => [(k, v)]
  | (k', v') :: m' =>
      if decide (k' = k) then (k, v) :: m' else (k', v') :: set k v m'
  end.

Fixpoint delete (k : string) (m : t) : t :=
  match m with
  | [] => []
  | (k', v') :: m' =>
      if decide (k' = k) then delete k m' else (k', v') :: delete k m'
  end.

Definition size (m : t) : nat := length m.
End jsmap.
Arguments t : clear implicits.
End JsMap.

(** ** The signaling relay ([server/index.js]) *)

Module Relay.

Abbreviation SocketId := string (only parsing).
Abbreviation RoomId := string (only parsing).
Abbreviation Ref := nat (only parsing).

(** The negotiation payloads are opaque to the relay. *)
Abbreviation Payload := string (only parsing).

(** The object stored by [users.set(socket.id, {...})].  The fields
    [connectionQuality], [networkType] and [pendingOffers] of the source are
    written once at connection and never read or changed; they are left
    out. *)
Record User := mkUser {
  u_id : SocketId;
  u_name : option string;
  u_roomId : option RoomId;
  u_joinedAt : nat;
  u_clientIP : string;
  u_isAudioEnabled : bool;
  u_isVideoEnabled : bool;
  u_isScreenSharing : bool
}.

Global Instance User_inhabited : Inhabited User :=
  populate (mkUser "" None None 0 "" false false false).

Record Metrics := mkMetrics {
  m_connectTime : nat;
  m_lastPing : nat;
  m_reconnectCount : nat;
  m_iceFailures : nat;
  m_successfulConnections : nat;
  m_pendingOffers : nat
}.

Record IceServer := mkIceServer {
  ice_urls : list string;
  ice_username : option string;
  ice_credential : option string
}.

Record WebRTCConfig := mkWebRTCConfig {
  iceServers : list IceServer;
  iceCandidatePoolSize : nat;
  bundlePolicy : string;
  rtcpMuxPolicy : string;
  iceTransportPolicy : string
}.

Definition stun (url : string) : IceServer := mkIceServer [url] None None.
Definition turn (url : string) : IceServer :=
  mkIceServer [url] (Some "openrelayproject") (Some "openrelayproject").

Definition getWebRTCConfig : WebRTCConfig :=
  {| iceServers :=
       [ stun "stun:stun.l.google.com:19302";
         stun "stun:stun1.l.google.com:19302";
         stun "stun:stun2.l.google.com:19302";
         stun "stun:stun3.l.google.com:19302";
         stun "stun:stun4.l.google.com:19302";
         stun "stun:stun.stunprotocol.org:3478";
         stun "stun:stun.ekiga.net";
         stun "stun:stun.antisip.com";
         stun "stun:stun.bluesip.net";
         turn "turn:openrelay.metered.ca:80";
         turn "turn:openrelay.metered.ca:443";
         turn "turn:openrelay.metered.ca:443?transport=tcp" ];
     iceCandidatePoolSize := 10;
     bundlePolicy := "max-bundle";
     rtcpMuxPolicy := "require";
     iceTransportPolicy := "all" |}.

(** A room object.  [r_users] is the room's [Map] from socket id to the
    user object; the values are references into the heap, shared with the
    global [users] map.  The [webrtcConfig] field of the source is the
    constant [getWebRTCConfig]. *)
Record Room := mkRoom {
  r_id : RoomId;
  r_users : JsMap.t Ref;
  r_createdAt : nat;
  r_roomType : string
}.

Record State := mkState {
  heap : gmap Ref User;
  next : Ref;
  users : gmap SocketId Ref;
  rooms : gmap RoomId Room;
  connectionMetrics : gmap SocketId Metrics;
  sockets : gset SocketId
}.

Definition init : State := mkState ∅ 0 ∅ ∅ ∅ ∅.

(** Dereferencing a user object. *)
Definition deref (s : State) (r : Ref) : User := heap s !!! r.

(** *** What a handler does to the outside world *)

Record UserInfo := mkUserInfo {
  ui_id : SocketId;
  ui_name : option string;
  ui_isAudioEnabled : bool;
  ui_isVideoEnabled : bool
}.

Inductive Event :=
| EvError (message : string)
| EvCallFailed (error : string)
| EvJoinedRoom (roomId : RoomId) (userId : SocketId)
    (userName : option string) (roomType : string)
    (members : list UserInfo) (cfg : WebRTCConfig)
| EvUserJoined (userId : SocketId) (userName : option string)
    (audio video : bool)
| EvUserLeft (userId : SocketId) (userName : option string)
    (userCount : nat) (timestamp : nat)
| EvNewRoomCreated (roomId : RoomId) (roomType : string) (createdAt : nat)
| EvRoomUpdated (roomId : RoomId) (userCount : nat) (createdAt : nat)
    (roomType : string)
| EvRoomDeleted (roomId : RoomId)
| EvOffer (offer : Payload) (fromUserId : SocketId)
    (fromUserName : option string) (timestamp : nat) (cfg : WebRTCConfig)
| EvAnswer (answer : Payload) (fromUserId : SocketId)
    (fromUserName : option string) (timestamp : nat)
| EvIceCandidate (candidate : Payload) (fromUserId : SocketId)
    (fromUserName : option string) (timestamp : nat)
| EvWebrtcConfig (cfg : WebRTCConfig)
| EvUserMediaStateChange (userId : SocketId) (userName : option string)
    (audio video screen : bool)
| EvUserAudioToggle (userId : SocketId) (isEnabled : bool)
| EvUserVideoToggle (userId : SocketId) (isEnabled : bool)
| EvChatMessage (msgId : nat) (userId : SocketId)
    (userName : option string) (message : string) (timestamp : nat)
| EvConnectionTestResponse (data : string) (serverTimestamp : nat)
    (cfg : WebRTCConfig).

(** [socket.emit], [targetSocket.emit] : [ToSocket];
    [socket.to(room).emit] : [ToRoomExcept]; [io.to(room).emit] : [ToRoom];
    [io.emit] : [ToAll]. *)
Inductive Target :=
| ToSocket (sid : SocketId)
| ToRoomExcept (rid : RoomId) (sender : SocketId)
| ToRoom (rid : RoomId)
| ToAll.

Inductive Action :=
| Emit (t : Target) (e : Event)
| SocketJoin (sid : SocketId) (rid : RoomId)
| SocketLeave (sid : SocketId) (rid : RoomId).

(** JavaScript truthiness of a [roomId] field: [null] and the empty string
    are falsy. *)
Definition truthy (o : option string) : bool :=
  match o with
  | Some x => bool_decide (x ≠ "")
  | None => false
  end.

(** *** State updates *)

Definition set_heap (h : gmap Ref User) (s : State) : State :=
  mkState h (next s) (users s) (rooms s) (connectionMetrics s) (sockets s).
Definition set_users (u : gmap SocketId Ref) (s : State) : State :=
  mkState (heap s) (next s) u (rooms s) (connectionMetrics s) (sockets s).
Definition set_rooms (r : gmap RoomId Room) (s : State) : State :=
  mkState (heap s) (next s) (users s) r (connectionMetrics s) (sockets s).
Definition set_metrics (m : gmap SocketId Metrics) (s : State) : State :=
  mkState (heap s) (next s) (users s) (rooms s) m (sockets s).
Definition set_sockets (k : gset SocketId) (s : State) : State :=
  mkState (heap s) (next s) (users s) (rooms s) (connectionMetrics s) k.

Definition set_r_users (m : JsMap.t Ref) (r : Room) : Room :=
  mkRoom (r_id r) m (r_createdAt r) (r_roomType r).

(** *** [io.on('connection')] *)

Definition on_connection (now : nat) (clientIP : string) (sid : SocketId)
    (s : State) : State :=
  let r := next s in
  let u := mkUser sid None None now clientIP true false false in
  mkState (<[r := u]> (heap s)) (S r) (<[sid := r]> (users s)) (rooms s)
    (<[sid := mkMetrics now now 0 0 0 0]> (connectionMetrics s))
    ({[sid]} ∪ sockets s).

(** *** [handleUserLeave] *)

Definition handleUserLeave (now : nat) (sid : SocketId) (s : State)
    : State * list Action :=
  let '(s1, acts) :=
    match users s !! sid with
    | Some ur =>
        let user := deref s ur in
        if truthy (u_roomId user) then
          let roomId := default "" (u_roomId user) in
          match rooms s !! roomId with
          | Some room =>
              let members := JsMap.delete sid (r_users room) in
              let left :=
                Emit (ToRoomExcept roomId sid)
                  (EvUserLeft sid (u_name user) (JsMap.size members) now) in
              if decide (JsMap.size members = 0) then
                (set_rooms (delete roomId (rooms s)) s,
                 [left; Emit ToAll (EvRoomDeleted roomId)])
              else
                (set_rooms (<[roomId := set_r_users members room]> (rooms s)) s,
                 [left;
                  Emit ToAll (EvRoomUpdated roomId (JsMap.size members)
                                (r_createdAt room) (r_roomType room))])
          | None => (s, [])
          end
        else (s, [])
    | None => (s, [])
    end in
  (set_metrics (delete sid (connectionMetrics s1))
     (set_users (delete sid (users s1)) s1), acts).

(** *** [socket.on('join-room')] *)

Definition user_info (u : User) : UserInfo :=
  mkUserInfo (u_id u) (u_name u) (u_isAudioEnabled u) (u_isVideoEnabled u).

(** [Array.from(room.users.values()).filter(u => u.id !== socket.id).map(...)] *)
Definition existingUsersInRoom (s : State) (sid : SocketId) (room : Room)
    : list UserInfo :=
  user_info <$>
    filter (λ u, u_id u ≠ sid) (deref s <$> JsMap.values (r_users room)).

Definition on_join_room (now : nat) (sid : SocketId) (roomId : RoomId)
    (userName : string) (roomTypeArg : option string) (s : State)
    : State * list Action :=
  let roomType := default "video" roomTypeArg in
  match users s !! sid with
  | None =>
      (s, [Emit (ToSocket sid)
             (EvError "User data not initialized. Please refresh.")])
  | Some ur =>
      let old := u_roomId (deref s ur) in
      (* room switching *)
      let '(s1, a1) :=
        if truthy old && bool_decide (old ≠ Some roomId) then
          let '(s', a') := handleUserLeave now sid s in
          (s', SocketLeave sid (default "" old) :: a')
        else (s, []) in
      (* update user information, on the shared object *)
      let u := deref s1 ur in
      let u' := mkUser (u_id u) (Some userName) (Some roomId) (u_joinedAt u)
                  (u_clientIP u) true (bool_decide (roomType = "video"))
                  (u_isScreenSharing u) in
      let s2 := set_users (<[sid := ur]> (users s1))
                  (set_heap (<[ur := u']> (heap s1)) s1) in
      (* initialize room if it does not exist *)
      let '(s3, a3) :=
        match rooms s2 !! roomId with
        | Some _ => (s2, [])
        | None =>
            (set_rooms (<[roomId := mkRoom roomId [] now roomType]> (rooms s2)) s2,
             [Emit ToAll (EvNewRoomCreated roomId roomType now)])
        end in
      match rooms s3 !! roomId with
      | None => (s3, a1 ++ SocketJoin sid roomId :: a3)
      | Some room =>
          let existing := existingUsersInRoom s3 sid room in
          let room' := set_r_users (JsMap.set sid ur (r_users room)) room in
          let s4 := set_rooms (<[roomId := room']> (rooms s3)) s3 in
          (s4,
           a1 ++ SocketJoin sid roomId :: a3 ++
           [ Emit (ToSocket sid)
               (EvJoinedRoom roomId sid (u_name u') (r_roomType room)
                  existing getWebRTCConfig);
             Emit (ToRoomExcept roomId sid)
               (EvUserJoined sid (u_name u') (u_isAudioEnabled u')
                  (u_isVideoEnabled u'));
             Emit ToAll
               (EvRoomUpdated roomId (JsMap.size (r_users room'))
                  (r_createdAt room) (r_roomType room)) ])
      end
  end.

(** *** [socket.on('offer')], [socket.on('answer')], [socket.on('ice-candidate')] *)

(** The guard shared by the three handlers:
    [targetSocket && targetUser && fromUser.roomId === targetUser.roomId].
    It returns the target's user object when the message is to be
    forwarded.  [===] on two [null] room ids is true. *)
Definition route (s : State) (fromUser : User) (targetUserId : SocketId)
    : option User :=
  if decide (targetUserId ∈ sockets s) then
    match users s !! targetUserId with
    | Some tr =>
        let targetUser := deref s tr in
        if decide (u_roomId fromUser = u_roomId targetUser)
        then Some targetUser else None
    | None => None
    end
  else None.

Definition incr_pendingOffers (m : Metrics) : Metrics :=
  mkMetrics (m_connectTime m) (m_lastPing m) (m_reconnectCount m)
    (m_iceFailures m) (m_successfulConnections m) (S (m_pendingOffers m)).

Definition complete_offer (m : Metrics) : Metrics :=
  if decide (0 < m_pendingOffers m) then
    mkMetrics (m_connectTime m) (m_lastPing m) (m_reconnectCount m)
      (m_iceFailures m) (S (m_successfulConnections m))
      (pred (m_pendingOffers m))
  else m.

Definition on_offer (now : nat) (sid : SocketId) (offer : Payload)
    (targetUserId : SocketId) (s : State) : State * list Action :=
  match users s !! sid with
  | Some fr =>
      let fromUser := deref s fr in
      match route s fromUser targetUserId with
      | Some _ =>
          (set_metrics (alter incr_pendingOffers sid (connectionMetrics s)) s,
           [Emit (ToSocket targetUserId)
              (EvOffer offer sid (u_name fromUser) now getWebRTCConfig)])
      | None =>
          (s, [Emit (ToSocket sid)
                 (EvCallFailed ("Could not send offer to " +:+ targetUserId +:+
                    ". User not available or in a different room."))])
      end
  | None => (s, [])
  end.

Definition on_answer (now : nat) (sid : SocketId) (answer : Payload)
    (targetUserId : SocketId) (s : State) : State * list Action :=
  match users s !! sid with
  | Some fr =>
      let fromUser := deref s fr in
      match route s fromUser targetUserId with
      | Some _ =>
          (set_metrics
             (alter complete_offer targetUserId (connectionMetrics s)) s,
           [Emit (ToSocket targetUserId)
              (EvAnswer answer sid (u_name fromUser) now)])
      | None =>
          (s, [Emit (ToSocket sid)
                 (EvCallFailed ("Could not send answer to " +:+ targetUserId +:+
                    ". User not available or in a different room."))])
      end
  | None => (s, [])
  end.

Definition on_ice_candidate (now : nat) (sid : SocketId) (candidate : Payload)
    (targetUserId : SocketId) (s : State) : State * list Action :=
  match users s !! sid with
  | Some fr =>
      let fromUser := deref s fr in
      match route s fromUser targetUserId with
      | Some _ =>
          (s, [Emit (ToSocket targetUserId)
                 (EvIceCandidate candidate sid (u_name fromUser) now)])
      | None => (s, [])   (* console.warn only *)
      end
  | None => (s, [])
  end.

(** *** The remaining listeners *)

Definition on_get_webrtc_config (sid : SocketId) (s : State)
    : State * list Action :=
  (s, [Emit (ToSocket sid) (EvWebrtcConfig getWebRTCConfig)]).

Definition record_status (now : nat) (status : string) (m : Metrics) : Metrics :=
  let fails :=
    if decide (status = "failed") then S (m_iceFailures m)
    else m_iceFailures m in
  let succ :=
    if decide (status = "failed") then m_successfulConnections m
    else if decide (status = "connected") then S (m_successfulConnections m)
    else m_successfulConnections m in
  mkMetrics (m_connectTime m) now (m_reconnectCount m) fails succ
    (m_pendingOffers m).

Definition on_connection_status (now : nat) (sid : SocketId)
    (peerId status : string) (s : State) : State * list Action :=
  match users s !! sid with
  | Some ur =>
      if truthy (u_roomId (deref s ur)) then
        (set_metrics (alter (record_status now status) sid
                        (connectionMetrics s)) s, [])
      else (s, [])
  | None => (s, [])
  end.

Definition on_media_state_change (sid : SocketId)
    (isAudioEnabled isVideoEnabled isScreenSharing : bool) (s : State)
    : State * list Action :=
  match users s !! sid with
  | Some ur =>
      let u := deref s ur in
      if truthy (u_roomId u) then
        let u' := mkUser (u_id u) (u_name u) (u_roomId u) (u_joinedAt u)
                    (u_clientIP u) isAudioEnabled isVideoEnabled
                    isScreenSharing in
        (set_heap (<[ur := u']> (heap s)) s,
         [Emit (ToRoomExcept (default "" (u_roomId u)) sid)
            (EvUserMediaStateChange sid (u_name u) isAudioEnabled
               isVideoEnabled isScreenSharing)])
      else (s, [])
  | None => (s, [])
  end.

Definition on_audio_toggle (sid : SocketId) (isEnabled : bool) (s : State)
    : State * list Action :=
  match users s !! sid with
  | Some ur =>
      let u := deref s ur in
      if truthy (u_roomId u) then
        let u' := mkUser (u_id u) (u_name u) (u_roomId u) (u_joinedAt u)
                    (u_clientIP u) isEnabled (u_isVideoEnabled u)
                    (u_isScreenSharing u) in
        (set_heap (<[ur := u']> (heap s)) s,
         [Emit (ToRoomExcept (default "" (u_roomId u)) sid)
            (EvUserAudioToggle sid isEnabled)])
      else (s, [])
  | None => (s, [])
  end.

Definition on_video_toggle (sid : SocketId) (isEnabled : bool) (s : State)
    : State * list Action :=
  match users s !! sid with
  | Some ur =>
      let u := deref s ur in
      if truthy (u_roomId u) then
        let u' := mkUser (u_id u) (u_name u) (u_roomId u) (u_joinedAt u)
                    (u_clientIP u) (u_isAudioEnabled u) isEnabled
                    (u_isScreenSharing u) in
        (set_heap (<[ur := u']> (heap s)) s,
         [Emit (ToRoomExcept (default "" (u_roomId u)) sid)
            (EvUserVideoToggle sid isEnabled)])
      else (s, [])
  | None => (s, [])
  end.

Definition on_chat_message (now : nat) (sid : SocketId) (message : string)
    (roomId : RoomId) (s : State) : State * list Action :=
  match users s !! sid with
  | Some ur =>
      let u := deref s ur in
      if decide (u_roomId u = Some roomId) then
        (s, [Emit (ToRoom roomId) (EvChatMessage now sid (u_name u) message now)])
      else (s, [])
  | None => (s, [])
  end.

Definition on_leave_room (now : nat) (sid : SocketId) (s : State)
    : State * list Action :=
  handleUserLeave now sid s.

(** On [disconnect] the socket is also gone from [io.sockets.sockets]. *)
Definition on_disconnect (now : nat) (sid : SocketId) (s : State)
    : State * list Action :=
  let '(s', acts) := handleUserLeave now sid s in
  (set_sockets (sockets s' ∖ {[sid]}) s', acts).

Definition on_connection_test (now : nat) (sid : SocketId) (data : string)
    (s : State) : State * list Action :=
  (s, [Emit (ToSocket sid) (EvConnectionTestResponse data now getWebRTCConfig)]).

(** *** Dispatch: one inbound message, handled to completion *)

Inductive Msg :=
| JoinRoom (roomId : RoomId) (userName : string) (roomType : option string)
| Offer (offer : Payload) (targetUserId : SocketId)
| Answer (answer : Payload) (targetUserId : SocketId)
| IceCandidate (candidate : Payload) (targetUserId : SocketId)
| GetWebrtcConfig
| ConnectionStatus (peerId status : string)
| MediaStateChange (isAudioEnabled isVideoEnabled isScreenSharing : bool)
| AudioToggle (isEnabled : bool)
| VideoToggle (isEnabled : bool)
| ChatMessage (message : string) (roomId : RoomId)
| LeaveRoom
| Disconnect
| ConnectionTest (data : string).

Definition handle (now : nat) (sid : SocketId) (m : Msg) (s : State)
    : State * list Action :=
  match m with
  | JoinRoom roomId userName roomType =>
      on_join_room now sid roomId userName roomType s
  | Offer o t => on_offer now sid o t s
  | Answer a t => on_answer now sid a t s
  | IceCandidate c t => on_ice_candidate now sid c t s
  | GetWebrtcConfig => on_get_webrtc_config sid s
  | ConnectionStatus p st => on_connection_status now sid p st s
  | MediaStateChange a v sc => on_media_state_change sid a v sc s
  | AudioToggle b => on_audio_toggle sid b s
  | VideoToggle b => on_video_toggle sid b s
  | ChatMessage msg rid => on_chat_message now sid msg rid s
  | LeaveRoom => on_leave_room now sid s
  | Disconnect => on_disconnect now sid s
  | ConnectionTest d => on_connection_test now sid d s
  end.

(** The states the relay can be in: a socket connects under an id that no
    live socket has, and only a live socket delivers messages. *)
Inductive reachable : State → Prop :=
| reach_init : reachable init
| reach_connect s now ip sid :
    reachable s → sid ∉ sockets s →
    reachable (on_connection now ip sid s)
| reach_handle s now sid m :
    reachable s → sid ∈ sockets s →
    reachable (handle now sid m s).1.

(** The member ids of a room, in insertion order; no room, no members. *)
Definition members (s : State) (rid : RoomId) : list SocketId :=
  match rooms s !! rid with
  | Some room => JsMap.keys (r_users room)
  | None => []
  end.

(** The actions that forward a negotiation message to another socket. *)
Definition is_forward (a : Action) : bool :=
  match a with
  | Emit _ (EvOffer _ _ _ _ _) | Emit _ (EvAnswer _ _ _ _)
  | Emit _ (EvIceCandidate _ _ _ _) => true
  | _ => false
  end.

Definition is_joined_room (a : Action) : bool :=
  match a with
  | Emit _ (EvJoinedRoom _ _ _ _ _ _) => true
  | _ => false
  end.

(** The sender and the target both have a user record, the target's socket
    is live, and the two [roomId] fields are equal (two [null]s included, as
    with [===]). *)
Definition can_route (s : State) (sid target : SocketId) : Prop :=
  ∃ fr tr, users s !! sid = Some fr ∧ target ∈ sockets s ∧
    users s !! target = Some tr ∧
    u_roomId (deref s fr) = u_roomId (deref s tr).

Definition call_failed (kind : string) (sid target : SocketId) : Action :=
  Emit (ToSocket sid)
    (EvCallFailed ("Could not send " +:+ kind +:+ " to " +:+ target +:+
       ". User not available or in a different room.")).

(** *** Scenarios used as concrete inputs *)

(** Alice and Bob are connected; Alice is in room abc, Bob in room xyz. *)
Definition two_rooms : State :=
  (handle 3 "bob" (JoinRoom "xyz" "Bob" None)
     (handle 2 "alice" (JoinRoom "abc" "Alice" None)
        (on_connection 1 "10.0.0.2" "bob"
           (on_connection 0 "10.0.0.1" "alice" init))).1).1.

(** Alice and Bob are both in room abc. *)
Definition one_room : State :=
  (handle 3 "bob" (JoinRoom "abc" "Bob" None)
     (handle 2 "alice" (JoinRoom "abc" "Alice" None)
        (on_connection 1 "10.0.0.2" "bob"
           (on_connection 0 "10.0.0.1" "alice" init))).1).1.

(** Alice is alone in room abc. *)
Definition alone : State :=
  (handle 2 "alice" (JoinRoom "abc" "Alice" None)
     (on_connection 0 "10.0.0.1" "alice" init)).1.

(** Alice has left her room: her socket is still connected, her user
    record is gone. *)
Definition after_leave : State := (handle 4 "alice" LeaveRoom two_rooms).1.

(** *** [on_join_room] in one piece

    The first step of [on_join_room] when the sender has a user record:
    leaving the old room, if the user is in another one. *)
Definition join_switch (now : nat) (sid : SocketId) (roomId : RoomId)
    (ur : Ref) (s : State) : State * list Action :=
  let old := u_roomId (deref s ur) in
  if truthy old && bool_decide (old ≠ Some roomId) then
    ((handleUserLeave now sid s).1,
     SocketLeave sid (default "" old) :: (handleUserLeave now sid s).2)
  else (s, []).

(** The user object after [on_join_room] has updated it. *)
Definition joined_user (roomId : RoomId) (userName roomType : string)
    (u : User) : User :=
  mkUser (u_id u) (Some userName) (Some roomId) (u_joinedAt u)
    (u_clientIP u) true (bool_decide (roomType = "video"))
    (u_isScreenSharing u).

(** *** Registry invariants *)

(** No room with an empty member map is left in [rooms]. *)
Definition no_empty_room (s : State) : Prop :=
  ∀ rid room, rooms s !! rid = Some room → r_users room ≠ [].

(** Every entry of [users] and of a room's member map points to an
    allocated user object that carries the entry's key as its [id], and a
    room's member map has no repeated key. *)
Record wf (s : State) : Prop := mk_wf {
  wf_users : ∀ sid r,
    users s !! sid = Some r → r < next s ∧ u_id (deref s r) = sid;
  wf_rooms : ∀ rid room k r,
    rooms s !! rid = Some room → (k, r) ∈ r_users room →
    r < next s ∧ u_id (deref s r) = k;
  wf_nodup : ∀ rid room,
    rooms s !! rid = Some room → NoDup (JsMap.keys (r_users room))
}.

(** Membership and the [roomId] fields agree: every user record belongs
    to a live socket; a user whose [roomId] is set is a member of that
    room, under its own object; and the members of a room whose id is not
    the empty string are users that carry its id.  (The empty string is a
    falsy [roomId]: [handleUserLeave] skips the room it names.) *)
Record linked (s : State) : Prop := mk_linked {
  lk_live : ∀ sid r, users s !! sid = Some r → sid ∈ sockets s;
  lk_member : ∀ sid r rid,
    users s !! sid = Some r → u_roomId (deref s r) = Some rid →
    ∃ room, rooms s !! rid = Some room ∧ (sid, r) ∈ r_users room;
  lk_registered : ∀ rid room k r,
    rid ≠ "" → rooms s !! rid = Some room → (k, r) ∈ r_users room →
    users s !! k = Some r ∧ u_roomId (deref s r) = Some rid
}.

(** A run of inbound messages, each with its arrival time and its
    socket. *)
Definition handle_all (l : list (nat * SocketId * Msg)) (s : State) : State :=
  foldl (λ acc x, (handle x.1.1 x.1.2 x.2 acc).1) s l.

(** The audio and video flags a user object carries after its socket has
    sent [m] from inside a room (join-room, leave-room and disconnect
    apart). *)
Definition flags_after (m : Msg) (u : User) : bool * bool :=
  match m with
  | MediaStateChange a v _ => (a, v)
  | AudioToggle b => (b, u_isVideoEnabled u)
  | VideoToggle b => (u_isAudioEnabled u, b)
  | _ => (u_isAudioEnabled u, u_isVideoEnabled u)
  end.

(** The addressee of a negotiation message. *)
Definition target_of (m : Msg) : option SocketId :=
  match m with
  | Offer _ t | Answer _ t | IceCandidate _ t => Some t
  | _ => None
  end.

(** The handler forwards the message. *)
Definition forwarded (now : nat) (sid : SocketId) (m : Msg) (s : State)
    : Prop :=
  filter is_forward (handle now sid m s).2 ≠ [].

(** Alice joins the room whose id is the empty string, then room abc. *)
Definition ghost : State :=
  (handle 2 "alice" (JoinRoom "abc" "Alice" None)
     (handle 1 "alice" (JoinRoom "" "Alice" None)
        (on_connection 0 "10.0.0.1" "alice" init)).1).1.

End Relay.

(** ** The peer negotiation engine ([usePeerConnection] and the socket
    listeners of [VideoCall.js])

    Modelling choices, all on the side of the browser and of React:
    - an [async] function runs to completion: no other handler is
      interleaved at its [await]s;
    - a React state setter ([setRemotePeers(prev => ...)]) takes effect at
      once;
    - the RTCPeerConnection objects live in the heap [pcs]; the handlers
      and timer callbacks installed by [createPeerConnection] capture the
      object itself, so they hold a reference;
    - whether the browser accepts a description or a candidate is not
      decided by this code: it is given by a [Browser] oracle;
    - calls whose only effect is outside the code ([pc.addIceCandidate],
      [pc.restartIce], [socket.emit]) are recorded in logs. *)

Module Engine.

Abbreviation PeerId := string (only parsing).
Abbreviation PcRef := nat (only parsing).
Abbreviation TimerId := positive (only parsing).
Abbreviation Candidate := string (only parsing).

Inductive SdpType := SdpOffer | SdpAnswer.

Record Sdp := mkSdp { sdp_type : SdpType; sdp_body : string }.

Record Track := mkTrack { t_id : string; t_kind : string }.

Global Instance Track_eq_dec : EqDecision Track.
Proof. solve_decision. Defined.

Record Stream := mkStream { st_id : string; st_tracks : list Track }.

(** An RTCPeerConnection, with the fields this code reads.  [pc_peer] is
    the [peerId] captured by the handlers that [createPeerConnection]
    installs on the object, [pc_onIceCandidate] the peer to which the
    [onIceCandidate] callback of the socket listeners sends ([None]: no
    callback).  A sender is known by its position in [pc_senders]; its
    track may be [null]. *)
Record PC := mkPC {
  pc_peer : PeerId;
  pc_onIceCandidate : option PeerId;
  pc_closed : bool;
  pc_remoteDescription : option Sdp;
  pc_localDescription : option Sdp;
  pc_signalingState : string;
  pc_connectionState : string;
  pc_iceConnectionState : string;
  pc_senders : list (option Track)
}.

Global Instance PC_inhabited : Inhabited PC :=
  populate (mkPC "" None true None None "closed" "closed" "closed" []).

(** What the browser decides: support for WebRTC, and the outcome of the
    asynchronous calls ([Some msg] / [inr msg]: rejected with that error
    message). *)
Record Browser := mkBrowser {
  supported : bool;
  createOffer_result : PC → Sdp + string;
  createAnswer_result : PC → Sdp + string;
  setLocalDescription_error : PC → Sdp → option string;
  setRemoteDescription_error : PC → Sdp → option string;
  addIceCandidate_ok : PC → Candidate → bool
}.

Inductive TimerCb :=
| ConnectionTimeout (peerId : PeerId) (pc : PcRef)
| IceGatheringTimeout (peerId : PeerId) (pc : PcRef)
| IceRestart (pc : PcRef).

Record Timer := mkTimer { tm_delay : N; tm_cb : TimerCb }.

Definition CONNECTION_TIMEOUT : N := 30000.
Definition ICE_GATHERING_TIMEOUT : N := 10000.

(** An entry of [remotePeers]; [rp_type] is absent when [handleAnswer]
    spreads an undefined previous entry. *)
Record RemotePeer := mkRemotePeer {
  rp_type : option string;
  rp_connected : bool
}.

Inductive Emitted :=
| EmitAnswer (answer : Sdp) (targetUserId : option PeerId)
| EmitIceCandidate (candidate : Candidate) (targetUserId : option PeerId).

(** The refs and state of [usePeerConnection], the pending timers of the
    page, the part of the [VideoCall] component the listeners touch
    ([participants], and the [isConnected] that the [emit] of the
    callbacks was created with) and the logs. *)
Record Client := mkClient {
  pcs : gmap PcRef PC;
  next_pc : PcRef;
  peerConnections : gmap PeerId PcRef;
  iceCandidatesQueue : gmap PeerId (list Candidate);
  remoteStreamsRef : gmap PeerId Stream;
  connectionTimeouts : gmap string TimerId;
  timers : list (TimerId * Timer);
  next_timer : TimerId;
  remotePeers : gmap PeerId RemotePeer;
  remoteStreams : gmap PeerId Stream;
  connectionStatus : gmap PeerId string;
  connectionError : option string;
  participants : list (option PeerId * option string);
  isConnected : bool;
  applied : list (PcRef * Candidate * bool);
  restartIceCalls : list PcRef;
  outbox : list Emitted
}.

Definition set_pcs (v : gmap PcRef PC) (s : Client) : Client :=
  mkClient v (next_pc s) (peerConnections s) (iceCandidatesQueue s)
    (remoteStreamsRef s) (connectionTimeouts s) (timers s) (next_timer s)
    (remotePeers s) (remoteStreams s) (connectionStatus s) (connectionError s)
    (participants s) (isConnected s) (applied s) (restartIceCalls s)
    (outbox s).

Definition set_next_pc (v : PcRef) (s : Client) : Client :=
  mkClient (pcs s) v (peerConnections s) (iceCandidatesQueue s)
    (remoteStreamsRef s) (connectionTimeouts s) (timers s) (next_timer s)
    (remotePeers s) (remoteStreams s) (connectionStatus s) (connectionError s)
    (participants s) (isConnected s) (applied s) (restartIceCalls s)
    (outbox s).

Definition set_peerConnections (v : gmap PeerId PcRef) (s : Client) : Client :=
  mkClient (pcs s) (next_pc s) v (iceCandidatesQueue s) (remoteStreamsRef s)
    (connectionTimeouts s) (timers s) (next_timer s) (remotePeers s)
    (remoteStreams s) (connectionStatus s) (connectionError s)
    (participants s) (isConnected s) (applied s) (restartIceCalls s)
    (outbox s).

Definition set_iceCandidatesQueue (v : gmap PeerId (list Candidate))
    (s : Client) : Client :=
  mkClient (pcs s) (next_pc s) (peerConnections s) v (remoteStreamsRef s)
    (connectionTimeouts s) (timers s) (next_timer s) (remotePeers s)
    (remoteStreams s) (connectionStatus s) (connectionError s)
    (participants s) (isConnected s) (applied s) (restartIceCalls s)
    (outbox s).

Definition set_remoteStreamsRef (v : gmap PeerId Stream)
    (s : Client) : Client :=
  mkClient (pcs s) (next_pc s) (peerConnections s) (iceCandidatesQueue s) v
    (connectionTimeouts s) (timers s) (next_timer s) (remotePeers s)
    (remoteStreams s) (connectionStatus s) (connectionError s)
    (participants s) (isConnected s) (applied s) (restartIceCalls s)
    (outbox s).

Definition set_connectionTimeouts (v : gmap string TimerId)
    (s : Client) : Client :=
  mkClient (pcs s) (next_pc s) (peerConnections s) (iceCandidatesQueue s)
    (remoteStreamsRef s) v (timers s) (next_timer s) (remotePeers s)
    (remoteStreams s) (connectionStatus s) (connectionError s)
    (participants s) (isConnected s) (applied s) (restartIceCalls s)
    (outbox s).

Definition set_timers (v : list (TimerId * Timer)) (s : Client) : Client :=
  mkClient (pcs s) (next_pc s) (peerConnections s) (iceCandidatesQueue s)
    (remoteStreamsRef s) (connectionTimeouts s) v (next_timer s)
    (remotePeers s) (remoteStreams s) (connectionStatus s) (connectionError s)
    (participants s) (isConnected s) (applied s) (restartIceCalls s)
    (outbox s).

Definition set_next_timer (v : TimerId) (s : Client) : Client :=
  mkClient (pcs s) (next_pc s) (peerConnections s) (iceCandidatesQueue s)
    (remoteStreamsRef s) (connectionTimeouts s) (timers s) v (remotePeers s)
    (remoteStreams s) (connectionStatus s) (connectionError s)
    (participants s) (isConnected s) (applied s) (restartIceCalls s)
    (outbox s).

Definition set_remotePeers (v : gmap PeerId RemotePeer) (s : Client) : Client :=
  mkClient (pcs s) (next_pc s) (peerConnections s) (iceCandidatesQueue s)
    (remoteStreamsRef s) (connectionTimeouts s) (timers s) (next_timer s) v
    (remoteStreams s) (connectionStatus s) (connectionError s)
    (participants s) (isConnected s) (applied s) (restartIceCalls s)
    (outbox s).

Definition set_remoteStreams (v : gmap PeerId Stream) (s : Client) : Client :=
  mkClient (pcs s) (next_pc s) (peerConnections s) (iceCandidatesQueue s)
    (remoteStreamsRef s) (connectionTimeouts s) (timers s) (next_timer s)
    (remotePeers s) v (connectionStatus s) (connectionError s)
    (participants s) (isConnected s) (applied s) (restartIceCalls s)
    (outbox s).

Definition set_connectionStatus (v : gmap PeerId string)
    (s : Client) : Client :=
  mkClient (pcs s) (next_pc s) (peerConnections s) (iceCandidatesQueue s)
    (remoteStreamsRef s) (connectionTimeouts s) (timers s) (next_timer s)
    (remotePeers s) (remoteStreams s) v (connectionError s) (participants s)
    (isConnected s) (applied s) (restartIceCalls s) (outbox s).

Definition set_connectionError (v : option string) (s : Client) : Client :=
  mkClient (pcs s) (next_pc s) (peerConnections s) (iceCandidatesQueue s)
    (remoteStreamsRef s) (connectionTimeouts s) (timers s) (next_timer s)
    (remotePeers s) (remoteStreams s) (connectionStatus s) v (participants s)
    (isConnected s) (applied s) (restartIceCalls s) (outbox s).

Definition set_participants (v : list (option PeerId * option string))
    (s : Client) : Client :=
  mkClient (pcs s) (next_pc s) (peerConnections s) (iceCandidatesQueue s)
    (remoteStreamsRef s) (connectionTimeouts s) (timers s) (next_timer s)
    (remotePeers s) (remoteStreams s) (connectionStatus s) (connectionError s)
    v (isConnected s) (applied s) (restartIceCalls s) (outbox s).

Definition set_applied (v : list (PcRef * Candidate * bool))
    (s : Client) : Client :=
  mkClient (pcs s) (next_pc s) (peerConnections s) (iceCandidatesQueue s)
    (remoteStreamsRef s) (connectionTimeouts s) (timers s) (next_timer s)
    (remotePeers s) (remoteStreams s) (connectionStatus s) (connectionError s)
    (participants s) (isConnected s) v (restartIceCalls s) (outbox s).

Definition set_restartIceCalls (v : list PcRef) (s : Client) : Client :=
  mkClient (pcs s) (next_pc s) (peerConnections s) (iceCandidatesQueue s)
    (remoteStreamsRef s) (connectionTimeouts s) (timers s) (next_timer s)
    (remotePeers s) (remoteStreams s) (connectionStatus s) (connectionError s)
    (participants s) (isConnected s) (applied s) v (outbox s).

Definition set_outbox (v : list Emitted) (s : Client) : Client :=
  mkClient (pcs s) (next_pc s) (peerConnections s) (iceCandidatesQueue s)
    (remoteStreamsRef s) (connectionTimeouts s) (timers s) (next_timer s)
    (remotePeers s) (remoteStreams s) (connectionStatus s) (connectionError s)
    (participants s) (isConnected s) (applied s) (restartIceCalls s) v.

Definition init : Client :=
  mkClient ∅ 0 ∅ ∅ ∅ ∅ [] 1%positive ∅ ∅ ∅ None [] true [] [] [].

Definition pc_of (s : Client) (r : PcRef) : PC := pcs s !!! r.

(** *** The browser's side of an RTCPeerConnection *)

Definition new_pc (peerId : PeerId) (onIce : option PeerId) : PC :=
  mkPC peerId onIce false None None "stable" "new" "new" [].

Definition close_pc (pc : PC) : PC :=
  mkPC (pc_peer pc) (pc_onIceCandidate pc) true (pc_remoteDescription pc)
    (pc_localDescription pc) "closed" "closed" "closed" (pc_senders pc).

Definition signaling_after_local (d : Sdp) : string :=
  match sdp_type d with
  | SdpOffer => "have-local-offer"
  | SdpAnswer => "stable"
  end.

Definition signaling_after_remote (d : Sdp) : string :=
  match sdp_type d with
  | SdpOffer => "have-remote-offer"
  | SdpAnswer => "stable"
  end.

Definition with_remote (d : Sdp) (pc : PC) : PC :=
  mkPC (pc_peer pc) (pc_onIceCandidate pc) (pc_closed pc) (Some d)
    (pc_localDescription pc) (signaling_after_remote d)
    (pc_connectionState pc) (pc_iceConnectionState pc) (pc_senders pc).

Definition with_local (d : Sdp) (pc : PC) : PC :=
  mkPC (pc_peer pc) (pc_onIceCandidate pc) (pc_closed pc)
    (pc_remoteDescription pc) (Some d) (signaling_after_local d)
    (pc_connectionState pc) (pc_iceConnectionState pc) (pc_senders pc).

Definition with_senders (l : list (option Track)) (pc : PC) : PC :=
  mkPC (pc_peer pc) (pc_onIceCandidate pc) (pc_closed pc)
    (pc_remoteDescription pc) (pc_localDescription pc)
    (pc_signalingState pc) (pc_connectionState pc)
    (pc_iceConnectionState pc) l.

Definition with_connectionState (st : string) (pc : PC) : PC :=
  mkPC (pc_peer pc) (pc_onIceCandidate pc) (pc_closed pc)
    (pc_remoteDescription pc) (pc_localDescription pc)
    (pc_signalingState pc) st (pc_iceConnectionState pc) (pc_senders pc).

Definition with_iceConnectionState (st : string) (pc : PC) : PC :=
  mkPC (pc_peer pc) (pc_onIceCandidate pc) (pc_closed pc)
    (pc_remoteDescription pc) (pc_localDescription pc)
    (pc_signalingState pc) (pc_connectionState pc) st (pc_senders pc).

(** [pc.addTrack(track, stream)]: a new sender at the end; it throws on a
    closed connection and when a sender already carries the track. *)
Definition pc_addTrack (t : Track) (pc : PC) : option PC :=
  if pc_closed pc then None
  else if decide (Some t ∈ pc_senders pc) then None
  else Some (with_senders (pc_senders pc ++ [Some t]) pc).

(** [sender.replaceTrack(track)] on the sender at position [i]: rejected on
    a closed connection. *)
Definition pc_replaceTrack (i : nat) (t : Track) (pc : PC) : option PC :=
  if pc_closed pc then None
  else Some (with_senders (<[i := Some t]> (pc_senders pc)) pc).

(** *** Timers *)

Definition setTimeout (cb : TimerCb) (delay : N) (s : Client)
    : TimerId * Client :=
  let tid := next_timer s in
  (tid, set_next_timer (Pos.succ tid)
          (set_timers (timers s ++ [(tid, mkTimer delay cb)]) s)).

Definition clearTimeout (tid : TimerId) (s : Client) : Client :=
  set_timers (filter (λ e, e.1 ≠ tid) (timers s)) s.

(** [if (connectionTimeoutsRef.current[key]) { clearTimeout(...); delete ... }].
    Timer ids are positive, so a stored id is truthy. *)
Definition clear_tracked_timeout (key : string) (s : Client) : Client :=
  match connectionTimeouts s !! key with
  | Some tid =>
      set_connectionTimeouts (delete key (connectionTimeouts s))
        (clearTimeout tid s)
  | None => s
  end.

(** *** The hook's functions *)

Section hook.
Variable B : Browser.

Definition checkWebRTCSupport (s : Client) : bool * Client :=
  if supported B then (true, s)
  else (false,
        set_connectionError
          (Some "WebRTC is not supported in this browser") s).

(** [pc.addIceCandidate(new RTCIceCandidate(candidate))] inside its
    [try]: the call is logged with its outcome. *)
Definition pc_addIceCandidate (r : PcRef) (c : Candidate) (s : Client)
    : bool * Client :=
  let ok := addIceCandidate_ok B (pc_of s r) c in
  (ok, set_applied (applied s ++ [(r, c, ok)]) s).

Definition processIceCandidateQueue (peerId : PeerId) (s : Client)
    : Client :=
  let queue := default [] (iceCandidatesQueue s !! peerId) in
  match peerConnections s !! peerId with
  | Some r =>
      if bool_decide (is_Some (pc_remoteDescription (pc_of s r)))
         && bool_decide (0 < length queue) then
        let s' := foldl (λ acc c, (pc_addIceCandidate r c acc).2) s queue in
        set_iceCandidatesQueue
          (<[peerId := []]> (iceCandidatesQueue s')) s'
      else s
  | None => s
  end.

Definition closePeerConnection (peerId : PeerId) (s : Client)
    : bool * Client :=
  match peerConnections s !! peerId with
  | None => (false, s)
  | Some r =>
      (* clear timeouts *)
      let s1 := clear_tracked_timeout peerId s in
      let s2 := clear_tracked_timeout (peerId +:+ "_ice") s1 in
      (* close connection *)
      let s3 := set_pcs (alter close_pc r (pcs s2)) s2 in
      (* clean up references *)
      let s4 :=
        set_remoteStreamsRef (delete peerId (remoteStreamsRef s3))
          (set_iceCandidatesQueue (delete peerId (iceCandidatesQueue s3))
             (set_peerConnections (delete peerId (peerConnections s3)) s3)) in
      (* update state *)
      let s5 :=
        set_connectionStatus (delete peerId (connectionStatus s4))
          (set_remoteStreams (delete peerId (remoteStreams s4))
             (set_remotePeers (delete peerId (remotePeers s4)) s4)) in
      (true, s5)
  end.

(** The loop over [localStream.getTracks()] of [createPeerConnection]:
    a failing [addTrack] is caught and the loop goes on. *)
Definition add_local_tracks (r : PcRef) (tracks : list Track) (s : Client)
    : Client :=
  foldl
    (λ acc t,
       match pc_addTrack t (pc_of acc r) with
       | Some pc' => set_pcs (<[r := pc']> (pcs acc)) acc
       | None => acc
       end)
    s tracks.

Definition createPeerConnection (peerId : PeerId)
    (localStream : option Stream) (onIceCandidate : option PeerId)
    (s : Client) : option PcRef * Client :=
  let '(ok, s0) := checkWebRTCSupport s in
  if negb ok then (None, s0)
  else
    (* close any existing connection *)
    let s1 :=
      match peerConnections s0 !! peerId with
      | Some old => set_pcs (alter close_pc old (pcs s0)) s0
      | None => s0
      end in
    let r := next_pc s1 in
    let s2 :=
      set_peerConnections (<[peerId := r]> (peerConnections s1))
        (set_next_pc (S r)
           (set_pcs (<[r := new_pc peerId onIceCandidate]> (pcs s1)) s1)) in
    (* initialize queues *)
    let s3 :=
      match iceCandidatesQueue s2 !! peerId with
      | Some _ => s2
      | None =>
          set_iceCandidatesQueue (<[peerId := []]> (iceCandidatesQueue s2)) s2
      end in
    let s4 :=
      set_connectionStatus
        (<[peerId := "connecting"]> (connectionStatus s3)) s3 in
    (* set connection timeout *)
    let '(tid, s5) :=
      setTimeout (ConnectionTimeout peerId r) CONNECTION_TIMEOUT s4 in
    let s6 :=
      set_connectionTimeouts (<[peerId := tid]> (connectionTimeouts s5)) s5 in
    (* add local tracks *)
    let s7 :=
      match localStream with
      | Some stream => add_local_tracks r (st_tracks stream) s6
      | None => s6
      end in
    (Some r, s7).

Definition createOffer (peerId : PeerId) (s : Client)
    : option Sdp * Client :=
  match peerConnections s !! peerId with
  | None => (None, s)
  | Some r =>
      match createOffer_result B (pc_of s r) with
      | inr msg =>
          (None, set_connectionError (Some ("Offer failed: " +:+ msg)) s)
      | inl offer =>
          match setLocalDescription_error B (pc_of s r) offer with
          | Some msg =>
              (None, set_connectionError (Some ("Offer failed: " +:+ msg)) s)
          | None =>
              let s1 := set_pcs (alter (with_local offer) r (pcs s)) s in
              let '(tid, s2) :=
                setTimeout (IceGatheringTimeout peerId r)
                  ICE_GATHERING_TIMEOUT s1 in
              let s3 :=
                set_connectionTimeouts
                  (<[peerId +:+ "_ice" := tid]> (connectionTimeouts s2)) s2 in
              let s4 :=
                set_remotePeers
                  (<[peerId := mkRemotePeer (Some "offer") false]>
                     (remotePeers s3)) s3 in
              (pc_localDescription (pc_of s4 r), s4)
          end
      end
  end.

(** The part of [handleOffer] and [handleAnswer] after the connection is
    known. *)
Definition offer_failed (msg : string) (s : Client) : option Sdp * Client :=
  (None, set_connectionError (Some ("Offer processing failed: " +:+ msg)) s).

Definition handleOffer (peerId : PeerId) (offer : Sdp)
    (localStream : option Stream) (onIceCandidate : option PeerId)
    (s : Client) : option Sdp * Client :=
  let '(pc, s0) :=
    match peerConnections s !! peerId with
    | Some r => (Some r, s)
    | None => createPeerConnection peerId localStream onIceCandidate s
    end in
  match pc with
  | None => (None, s0)
  | Some r =>
      (* set remote description *)
      match setRemoteDescription_error B (pc_of s0 r) offer with
      | Some msg => offer_failed msg s0
      | None =>
          let s1 := set_pcs (alter (with_remote offer) r (pcs s0)) s0 in
          (* create answer *)
          match createAnswer_result B (pc_of s1 r) with
          | inr msg => offer_failed msg s1
          | inl answer =>
              match setLocalDescription_error B (pc_of s1 r) answer with
              | Some msg => offer_failed msg s1
              | None =>
                  let s2 :=
                    set_pcs (alter (with_local answer) r (pcs s1)) s1 in
                  (* process queued ICE candidates *)
                  let s3 := processIceCandidateQueue peerId s2 in
                  let s4 :=
                    set_remotePeers
                      (<[peerId := mkRemotePeer (Some "answer") true]>
                         (remotePeers s3)) s3 in
                  (pc_localDescription (pc_of s4 r), s4)
              end
          end
      end
  end.

Definition handleAnswer (peerId : PeerId) (answer : Sdp) (s : Client)
    : bool * Client :=
  match peerConnections s !! peerId with
  | None => (false, s)
  | Some r =>
      match setRemoteDescription_error B (pc_of s r) answer with
      | Some _ => (false, s)
      | None =>
          let s1 := set_pcs (alter (with_remote answer) r (pcs s)) s in
          let s2 := processIceCandidateQueue peerId s1 in
          let prev := remotePeers s2 !! peerId in
          let s3 :=
            set_remotePeers
              (<[peerId := mkRemotePeer (prev ≫= rp_type) true]>
                 (remotePeers s2)) s2 in
          (true, s3)
      end
  end.

Definition addIceCandidate (peerId : PeerId) (candidate : Candidate)
    (s : Client) : bool * Client :=
  let has_remote :=
    match peerConnections s !! peerId with
    | Some r => bool_decide (is_Some (pc_remoteDescription (pc_of s r)))
    | None => false
    end in
  if negb has_remote then
    (* queue the candidate if no connection or remote description *)
    let queue := default [] (iceCandidatesQueue s !! peerId) in
    (false,
     set_iceCandidatesQueue
       (<[peerId := queue ++ [candidate]]> (iceCandidatesQueue s)) s)
  else
    match peerConnections s !! peerId with
    | Some r => pc_addIceCandidate r candidate s
    | None => (false, s)
    end.

Definition hasPeerConnection (peerId : PeerId) (s : Client) : bool :=
  bool_decide (is_Some (peerConnections s !! peerId)).
End hook.

(** [senders.find(s => s.track?.kind === kind)]: the position of the first
    sender whose current track has that kind. *)
Fixpoint find_sender (kind : string) (senders : list (option Track))
    : option nat :=
  match senders with
  | [] => None
  | o :: rest =>
      if decide (t_kind <$> o = Some kind) then Some 0
      else S <$> find_sender kind rest
  end.

(** The loop of [updateStream].  [n] is the length of the array returned
    by [pc.getSenders()] before the loop: the search sees the senders that
    existed then, with the tracks they carry now.  The boolean is [false]
    when an exception left the loop; what was done before it stays. *)
Fixpoint update_tracks (n : nat) (tracks : list Track) (pc : PC)
    : bool * PC :=
  match tracks with
  | [] => (true, pc)
  | track :: rest =>
      let step :=
        match find_sender (t_kind track) (take n (pc_senders pc)) with
        | Some i => pc_replaceTrack i track pc
        | None => pc_addTrack track pc
        end in
      match step with
      | Some pc' => update_tracks n rest pc'
      | None => (false, pc)
      end
  end.

Definition updateStream (peerId : PeerId) (newStream : Stream) (s : Client)
    : bool * Client :=
  match peerConnections s !! peerId with
  | None => (false, s)
  | Some r =>
      let pc := pc_of s r in
      let '(ok, pc') :=
        update_tracks (length (pc_senders pc)) (st_tracks newStream) pc in
      (ok, set_pcs (<[r := pc']> (pcs s)) s)
  end.

(** *** The handlers installed on a connection, and the timer callbacks *)

(** [pc.oniceconnectionstatechange], after the browser has moved the
    connection [r] to ICE connection state [state]. *)
Definition oniceconnectionstatechange (r : PcRef) (state : string)
    (s : Client) : Client :=
  let s0 := set_pcs (alter (with_iceConnectionState state) r (pcs s)) s in
  let peerId := pc_peer (pc_of s0 r) in
  let s1 :=
    set_connectionStatus (<[peerId := state]> (connectionStatus s0)) s0 in
  if bool_decide (state = "connected" ∨ state = "completed") then
    (* clear connection timeout *)
    clear_tracked_timeout peerId s1
  else if decide (state = "failed") then
    (* try to restart ICE *)
    (setTimeout (IceRestart r) 1000 s1).2
  else s1.

(** [pc.onconnectionstatechange]. *)
Definition onconnectionstatechange (r : PcRef) (state : string) (s : Client)
    : Client :=
  let s0 := set_pcs (alter (with_connectionState state) r (pcs s)) s in
  let peerId := pc_peer (pc_of s0 r) in
  if decide (state = "failed") then
    set_connectionError (Some ("Connection failed for " +:+ peerId)) s0
  else s0.

(** [pc.ontrack]; [None] is a track event without a stream. *)
Definition ontrack (r : PcRef) (remoteStream : option Stream) (s : Client)
    : Client :=
  let peerId := pc_peer (pc_of s r) in
  match remoteStream with
  | None => s
  | Some stream =>
      set_remoteStreams (<[peerId := stream]> (remoteStreams s))
        (set_remoteStreamsRef (<[peerId := stream]> (remoteStreamsRef s)) s)
  end.

(** The [emit] of [useSocket].  A callback keeps the [emit] of the render
    that created it, and with it that render's [isConnected]: the field
    [isConnected] is this value.  No input of the model changes it, so
    that it is the same for every callback of a run. *)
Definition emit (e : Emitted) (s : Client) : Client :=
  if isConnected s then set_outbox (outbox s ++ [e]) s else s.

(** [pc.onicecandidate] for a candidate that is not [null]. *)
Definition onicecandidate (r : PcRef) (candidate : Candidate) (s : Client)
    : Client :=
  match pc_onIceCandidate (pc_of s r) with
  | Some target => emit (EmitIceCandidate candidate (Some target)) s
  | None => s
  end.

Section callbacks.
Variable B : Browser.

Definition run_timer (cb : TimerCb) (s : Client) : Client :=
  match cb with
  | ConnectionTimeout peerId r =>
      let st := pc_connectionState (pc_of s r) in
      if bool_decide (st = "connecting" ∨ st = "new") then
        (closePeerConnection peerId
           (set_connectionError
              (Some ("Connection timeout for " +:+ peerId)) s)).2
      else s
  | IceGatheringTimeout _ _ => s
  | IceRestart r =>
      if decide (pc_signalingState (pc_of s r) = "stable") then
        set_restartIceCalls (restartIceCalls s ++ [r]) s   (* pc.restartIce() *)
      else s
  end.

(** The pending timer [tid] comes due. *)
Definition fire (tid : TimerId) (s : Client) : Client :=
  match list_find (λ e, e.1 = tid) (timers s) with
  | Some (_, (_, tm)) => run_timer (tm_cb tm) (clearTimeout tid s)
  | None => s
  end.

(** What can happen to the engine. *)
Inductive Input :=
| CallCreatePeerConnection (peerId : PeerId) (localStream : option Stream)
    (onIceCandidate : option PeerId)
| CallCreateOffer (peerId : PeerId)
| CallHandleOffer (peerId : PeerId) (offer : Sdp)
    (localStream : option Stream) (onIceCandidate : option PeerId)
| CallHandleAnswer (peerId : PeerId) (answer : Sdp)
| CallAddIceCandidate (peerId : PeerId) (candidate : Candidate)
| CallUpdateStream (peerId : PeerId) (newStream : Stream)
| CallClosePeerConnection (peerId : PeerId)
| IceConnectionState (pc : PcRef) (state : string)
| ConnectionState (pc : PcRef) (state : string)
| TrackEvent (pc : PcRef) (remoteStream : option Stream)
| IceCandidateEvent (pc : PcRef) (candidate : Candidate)
| TimerFires (tid : TimerId).

Definition step (i : Input) (s : Client) : Client :=
  match i with
  | CallCreatePeerConnection p ls cb => (createPeerConnection B p ls cb s).2
  | CallCreateOffer p => (createOffer B p s).2
  | CallHandleOffer p o ls cb => (handleOffer B p o ls cb s).2
  | CallHandleAnswer p a => (handleAnswer B p a s).2
  | CallAddIceCandidate p c => (addIceCandidate B p c s).2
  | CallUpdateStream p st => (updateStream p st s).2
  | CallClosePeerConnection p => (closePeerConnection p s).2
  | IceConnectionState r st => oniceconnectionstatechange r st s
  | ConnectionState r st => onconnectionstatechange r st s
  | TrackEvent r st => ontrack r st s
  | IceCandidateEvent r c => onicecandidate r c s
  | TimerFires tid => fire tid s
  end.

Definition run (trace : list Input) (s : Client) : Client :=
  foldl (λ acc i, step i acc) s trace.
End callbacks.

(** *** The socket listeners of [VideoCall.js]

    A listener receives whatever value it is called with. *)
Inductive Arg :=
| ArgUndefined
| ArgString (str : string)
| ArgOffer (offer : Sdp) (fromUserId : PeerId) (fromUserName : string)
| ArgAnswer (answer : Sdp) (fromUserId : PeerId) (fromUserName : string).

(** [({ offer, fromUserId, fromUserName }) => ...]: destructuring
    [undefined] throws a TypeError; a string has none of the three
    properties. *)
Definition destructure_offer (a : Arg)
    : option (option Sdp * option PeerId * option string) :=
  match a with
  | ArgUndefined => None
  | ArgString _ => Some (None, None, None)
  | ArgOffer o f n => Some (Some o, Some f, Some n)
  | ArgAnswer _ f n => Some (None, Some f, Some n)
  end.

(** [({ answer, fromUserId }) => ...] *)
Definition destructure_answer (a : Arg)
    : option (option Sdp * option PeerId) :=
  match a with
  | ArgUndefined => None
  | ArgString _ => Some (None, None)
  | ArgOffer _ f _ => Some (None, Some f)
  | ArgAnswer ans f _ => Some (Some ans, Some f)
  end.

(** A value used as the first argument of a call, and as a property key. *)
Definition to_arg (v : option PeerId) : Arg :=
  match v with
  | Some x => ArgString x
  | None => ArgUndefined
  end.

Definition to_key (v : option PeerId) : string := default "undefined" v.

(** How a call of an [async] listener ends: its promise resolves with the
    returned value, or rejects. *)
Inductive Outcome :=
| Resolved (value : option Sdp)
| Rejected.

(** [setParticipants(prev => ...)] of the offer listener. *)
Definition add_participant (fromUserId : option PeerId)
    (fromUserName : option string)
    (prev : list (option PeerId * option string))
    : list (option PeerId * option string) :=
  if decide (fromUserId ∈ prev.*1) then prev
  else prev ++ [(fromUserId, fromUserName)].

(** The listener registered by [on('offer', handleOffer)].

    Inside the effect, [const handleOffer = async (...) => {...}] is the
    binding in scope where the body calls
    [handleOffer(fromUserId, offer, localStream, handleIceCandidate)]: the
    call goes to the listener itself, with [fromUserId] as its one
    parameter, and not to the [handleOffer] of [usePeerConnection].
    [fuel] bounds the depth of these calls. *)
Fixpoint listener_handleOffer (fuel : nat) (arg : Arg) (s : Client)
    : option (Outcome * Client) :=
  match fuel with
  | 0 => None
  | S fuel' =>
      match destructure_offer arg with
      | None => Some (Rejected, s)
      | Some (offer, fromUserId, fromUserName) =>
          (* close existing connection if any *)
          let s1 :=
            if hasPeerConnection (to_key fromUserId) s
            then (closePeerConnection (to_key fromUserId) s).2
            else s in
          match listener_handleOffer fuel' (to_arg fromUserId) s1 with
          | None => None
          | Some (Rejected, s2) => Some (Resolved None, s2)   (* catch *)
          | Some (Resolved None, s2) => Some (Resolved None, s2)
          | Some (Resolved (Some answer), s2) =>
              let s3 := emit (EmitAnswer answer fromUserId) s2 in
              Some (Resolved None,
                    set_participants
                      (add_participant fromUserId fromUserName
                         (participants s3)) s3)
          end
      end
  end.

(** How a call of a plain function ends. *)
Inductive Completion :=
| Returned
| Threw.

(** The listener registered by [on('answer', handleAnswer)].  As in the
    offer listener, the [handleAnswer(fromUserId, answer)] of its body is
    the listener itself; it is not [async] and has no [try], so the
    TypeError of the innermost call leaves every level. *)
Fixpoint listener_handleAnswer (fuel : nat) (arg : Arg) (s : Client)
    : option (Completion * Client) :=
  match fuel with
  | 0 => None
  | S fuel' =>
      match destructure_answer arg with
      | None => Some (Threw, s)
      | Some (answer, fromUserId) =>
          match listener_handleAnswer fuel' (to_arg fromUserId) s with
          | None => None
          | Some (Threw, s') => Some (Threw, s')
          | Some (Returned, s') => Some (Returned, s')
          end
      end
  end.

(** The listener registered by [on('ice-candidate', handleIceCandidate)]. *)
Definition listener_handleIceCandidate (B : Browser) (candidate : Candidate)
    (fromUserId : PeerId) (s : Client) : Client :=
  (addIceCandidate B fromUserId candidate s).2.

(** *** Notions used to state the properties *)

(** The peer has no connection, or one without a remote description. *)
Definition no_remote (s : Client) (p : PeerId) : Prop :=
  ∀ r, peerConnections s !! p = Some r →
       pc_remoteDescription (pc_of s r) = None.

(** The log entry of one [pc.addIceCandidate] call. *)
Definition attempt (B : Browser) (pc : PC) (r : PcRef) (c : Candidate)
    : PcRef * Candidate * bool :=
  (r, c, addIceCandidate_ok B pc c).

(** The queued candidates of a peer; no entry, no candidates. *)
Definition queue_of (s : Client) (p : PeerId) : list Candidate :=
  default [] (iceCandidatesQueue s !! p).

(** The kind of each sender's track, position by position. *)
Definition kinds (l : list (option Track)) : list (option string) :=
  (λ o : option Track, t_kind <$> o) <$> l.

(** The number of senders whose track has kind [k]. *)
Definition count_kind (k : string) (l : list (option Track)) : nat :=
  length (filter (λ o, o = Some k) (kinds l)).

(** The tracks of a stream that find no sender of their kind in [l]. *)
Definition unmatched (l : list (option Track)) (tracks : list Track)
    : list Track :=
  filter (λ t, find_sender (t_kind t) l = None) tracks.

(** How often [pc.restartIce()] was called on the connection [r]. *)
Definition restart_count (r : PcRef) (s : Client) : nat :=
  length (filter (λ x, x = r) (restartIceCalls s)).

Definition is_restart_of (r : PcRef) (e : TimerId * Timer) : bool :=
  match tm_cb e.2 with
  | IceRestart r' => bool_decide (r' = r)
  | _ => false
  end.

(** The restart attempts for [r] that are scheduled and not yet run. *)
Definition pending_restarts (r : PcRef) (s : Client) : nat :=
  length (filter (is_restart_of r) (timers s)).

Definition is_failed_report (r : PcRef) (i : Input) : bool :=
  match i with
  | IceConnectionState r' state => bool_decide (r' = r ∧ state = "failed")
  | _ => false
  end.

(** How often the ICE connection state of [r] is reported failed in a
    trace. *)
Definition failed_reports (r : PcRef) (trace : list Input) : nat :=
  length (filter (is_failed_report r) trace).

(** No call of [restartIce] and no new restart attempt between [s] and
    [s']. *)
Definition quiet (r : PcRef) (s s' : Client) : Prop :=
  restartIceCalls s' = restartIceCalls s ∧
  (pending_restarts r s' ≤ pending_restarts r s)%nat.

(** *** Concrete inputs *)

(** A browser that accepts everything, except the candidate [bad]. *)
Definition kind_browser : Browser :=
  {| supported := true;
     createOffer_result := λ _, inl (mkSdp SdpOffer "local-offer");
     createAnswer_result := λ _, inl (mkSdp SdpAnswer "local-answer");
     setLocalDescription_error := λ _ _, None;
     setRemoteDescription_error := λ _ _, None;
     addIceCandidate_ok := λ _ c, bool_decide (c ≠ "bad") |}.

Definition camera : Stream :=
  mkStream "cam" [mkTrack "a0" "audio"; mkTrack "v0" "video"].

Definition screen : Stream := mkStream "screen" [mkTrack "v1" "video"].

Definition two_videos : Stream :=
  mkStream "two" [mkTrack "va" "video"; mkTrack "vb" "video"].

(** A session with Bob, created with the camera stream. *)
Definition with_bob : Client :=
  (createPeerConnection kind_browser "bob" (Some camera) (Some "bob") init).2.

(** A session with Bob that carries no track. *)
Definition with_bob_bare : Client :=
  (createPeerConnection kind_browser "bob" None (Some "bob") init).2.

(** We have sent Bob an offer. *)
Definition sent_offer : Client := (createOffer kind_browser "bob" with_bob).2.

(** Three of his candidates came in before his answer. *)
Definition offered_bob : Client :=
  run kind_browser
    [CallAddIceCandidate "bob" "c1"; CallAddIceCandidate "bob" "bad";
     CallAddIceCandidate "bob" "c2"]
    sent_offer.

(** *** Closing every session, and the user-left listener *)

(** [closeAllPeerConnections].  [keys] is the array returned by
    [Object.keys(peerConnectionsRef.current)], in the order in which the
    browser enumerates the keys; [forEach] passes each key as the first
    argument of [closePeerConnection]. *)
Definition closeAllPeerConnections (keys : list PeerId) (s : Client)
    : Client :=
  let s1 := foldl (λ acc p, (closePeerConnection p acc).2) s keys in
  set_connectionStatus ∅ (set_remoteStreams ∅ (set_remotePeers ∅ s1)).

(** [keys] lists the peers that have a connection, each once. *)
Definition keys_of (s : Client) (keys : list PeerId) : Prop :=
  NoDup keys ∧ ∀ p, p ∈ keys ↔ is_Some (peerConnections s !! p).

(** The listener registered by [on('user-left', handleUserLeft)]; the toast
    it shows is presentation and not part of the state modelled here. *)
Definition listener_handleUserLeft (userId : PeerId) (s : Client) : Client :=
  let s1 := (closePeerConnection userId s).2 in
  set_participants (filter (λ p, p.1 ≠ Some userId) (participants s1)) s1.

(** The loop of [handleToggleScreenShare], once [startScreenShare] has
    given a stream.  [status] is the [connectionStatus] of the render that
    created the handler: the callback holds that object, also after the
    [await] on [startScreenShare], whatever the state [s] says by then.
    [keys] is [Object.keys(connectionStatus)] of that same object.  The
    calls of [updateStream] are not awaited; each works on the connection
    of its own peer and is run here to its end. *)
Definition share_loop (status : gmap PeerId string) (screenStream : Stream)
    (keys : list PeerId) (s : Client) : Client :=
  foldl (λ acc peerId,
           if decide (status !! peerId = Some "connected")
           then (updateStream peerId screenStream acc).2 else acc) s keys.

(** What [updateStream] makes of a connection. *)
Definition updated (stream : Stream) (pc : PC) : PC :=
  (update_tracks (length (pc_senders pc)) (st_tracks stream) pc).2.

(** What the relay delivers to the listeners of the component. *)
Inductive Delivery :=
| OfferMsg (offer : Sdp) (fromUserId : PeerId) (fromUserName : string)
| AnswerMsg (answer : Sdp) (fromUserId : PeerId) (fromUserName : string)
| IceCandidateMsg (candidate : Candidate) (fromUserId : PeerId)
| UserLeftMsg (userId : PeerId).

(** How the call of a listener ends, as its caller sees it: the promise
    of an [async] listener settles, a plain listener returns or throws. *)
Inductive Ending :=
| Settled (outcome : Outcome)
| Plain (completion : Completion).

(** The listener of one delivery, run to its end, with the way the call
    ended; [None] when [fuel] does not cover the depth of the calls.  The
    candidate and the user-left listener are plain functions that return:
    [addIceCandidate] is [async], so that calling it gives a promise, and
    [closePeerConnection] calls nothing that throws. *)
Definition deliver (B : Browser) (fuel : nat) (d : Delivery) (s : Client)
    : option (Ending * Client) :=
  match d with
  | OfferMsg o f n =>
      prod_map Settled id <$> listener_handleOffer fuel (ArgOffer o f n) s
  | AnswerMsg a f n =>
      prod_map Plain id <$> listener_handleAnswer fuel (ArgAnswer a f n) s
  | IceCandidateMsg c f =>
      Some (Plain Returned, listener_handleIceCandidate B c f s)
  | UserLeftMsg p => Some (Plain Returned, listener_handleUserLeft p s)
  end.

(** The listeners of a run of deliveries, called one after the other, with
    the way each call ended.  Nothing in the component catches what a
    listener throws: the call ends there, and the next listener finds the
    state that call left. *)
Fixpoint deliver_all (B : Browser) (fuel : nat) (l : list Delivery)
    (s : Client) : option (list Ending * Client) :=
  match l with
  | [] => Some ([], s)
  | d :: l' =>
      match deliver B fuel d s with
      | Some (e, s') =>
          prod_map (cons e) id <$> deliver_all B fuel l' s'
      | None => None
      end
  end.

(** How the listener of a delivery ends when it is given the fuel it
    needs: the promise of the offer listener resolves with [undefined],
    the answer listener throws, the other two return. *)
Definition ending_of (d : Delivery) : Ending :=
  match d with
  | OfferMsg _ _ _ => Settled (Resolved None)
  | AnswerMsg _ _ _ => Plain Threw
  | IceCandidateMsg _ _ | UserLeftMsg _ => Plain Returned
  end.

(** *** Invariants of the engine *)

(** Every connection stored for a peer is an allocated object that is open
    and was created for that peer; references are handed out in order. *)
Record tracked (s : Client) : Prop := mk_tracked {
  tr_open : ∀ p r, peerConnections s !! p = Some r →
    ∃ pc, pcs s !! r = Some pc ∧ pc_peer pc = p ∧ pc_closed pc = false;
  tr_alloc : ∀ r, is_Some (pcs s !! r) → r < next_pc s
}.

(** Timer ids are handed out in order: every pending timer has an id below
    the next one. *)
Definition timers_fresh (s : Client) : Prop :=
  ∀ e, e ∈ timers s → (e.1 < next_timer s)%positive.


(** No stored connection has a remote description. *)
Definition no_remote_at_all (s : Client) : Prop := ∀ p, no_remote s p.

(** A browser whose [createAnswer] is rejected. *)
Definition no_answer_browser : Browser :=
  {| supported := true;
     createOffer_result := λ _, inl (mkSdp SdpOffer "local-offer");
     createAnswer_result := λ _, inr "no answer";
     setLocalDescription_error := λ _ _, None;
     setRemoteDescription_error := λ _ _, None;
     addIceCandidate_ok := λ _ _, true |}.

(** Sessions with Bob and with Carol, as [createPeerConnection] leaves
    them. *)
Definition with_bob_and_carol : Client :=
  (createPeerConnection kind_browser "carol" (Some camera) (Some "carol")
     with_bob).2.

(** Bob's ICE connection state is connected, Carol's is completed. *)
Definition bob_connected_carol_completed : Client :=
  oniceconnectionstatechange 1 "completed"
    (oniceconnectionstatechange 0 "connected" with_bob_and_carol).

(** Both are connected. *)
Definition bob_and_carol_connected : Client :=
  oniceconnectionstatechange 1 "connected"
    (oniceconnectionstatechange 0 "connected" with_bob_and_carol).

End Engine.

(** ** Local media: the toggles and the stop functions of the [useMedia]
    hook, and [handleToggleAudio] of [VideoCall.js]

    MediaStreamTrack objects are shared (a stream and the senders of the
    connections hold the same track), so they live in a heap.  Each call
    is made with the closure of the latest render. *)

Module Media.

Abbreviation TrackRef := nat (only parsing).

Record MTrack := mkMTrack {
  mt_kind : string;
  mt_enabled : bool;
  mt_ended : bool          (* [readyState] is ended, after [stop()] *)
}.

(** The state of [useMedia] that these functions read and write; a stream
    is the list of its tracks, [None] is [null]. *)
Record State := mkMedia {
  tracks : gmap TrackRef MTrack;
  localStream : option (list TrackRef);
  screenStreamRef : option (list TrackRef);
  isAudioEnabled : bool;
  isVideoEnabled : bool;
  isScreenSharing : bool
}.

Definition flip_enabled (t : MTrack) : MTrack :=
  mkMTrack (mt_kind t) (negb (mt_enabled t)) (mt_ended t).

Definition stop_track (t : MTrack) : MTrack :=
  mkMTrack (mt_kind t) (mt_enabled t) true.

(** [stream.getAudioTracks()], [stream.getVideoTracks()]: the tracks of
    the stream that have the kind, in the order of the stream. *)
Definition tracks_of_kind (kind : string) (s : State) (stream : list TrackRef)
    : list TrackRef :=
  filter (λ r, mt_kind <$> tracks s !! r = Some kind) stream.

(** [list.forEach(track => ...)] for a function that updates the track. *)
Definition for_each (f : MTrack → MTrack) (l : list TrackRef)
    (m : gmap TrackRef MTrack) : gmap TrackRef MTrack :=
  foldl (λ acc r, alter f r acc) m l.

Definition toggleAudio (s : State) : State :=
  match localStream s with
  | Some stream =>
      mkMedia (for_each flip_enabled (tracks_of_kind "audio" s stream)
                 (tracks s))
        (localStream s) (screenStreamRef s) (negb (isAudioEnabled s))
        (isVideoEnabled s) (isScreenSharing s)
  | None => s
  end.

Definition toggleVideo (s : State) : State :=
  match localStream s with
  | Some stream =>
      mkMedia (for_each flip_enabled (tracks_of_kind "video" s stream)
                 (tracks s))
        (localStream s) (screenStreamRef s) (isAudioEnabled s)
        (negb (isVideoEnabled s)) (isScreenSharing s)
  | None => s
  end.

Definition stopScreenShare (s : State) : State :=
  match screenStreamRef s with
  | Some stream =>
      mkMedia (for_each stop_track stream (tracks s)) (localStream s) None
        (isAudioEnabled s) (isVideoEnabled s) false
  | None => s
  end.

Definition stopMedia (s : State) : State :=
  let s1 :=
    match localStream s with
    | Some stream =>
        mkMedia (for_each stop_track stream (tracks s)) None
          (screenStreamRef s) (isAudioEnabled s) (isVideoEnabled s)
          (isScreenSharing s)
    | None => s
    end in
  stopScreenShare s1.

(** [handleToggleAudio] of the component: the hook's toggle, then [emit]
    with the negation of the flag the handler was rendered with.
    [connected] is the [isConnected] that this [emit] was created with;
    the result lists what went to the relay. *)
Definition handleToggleAudio (connected : bool) (s : State)
    : State * list Relay.Msg :=
  (toggleAudio s,
   if connected then [Relay.AudioToggle (negb (isAudioEnabled s))] else []).

(** The flags and the tracks of the local stream agree: each of its audio
    tracks is enabled exactly when [isAudioEnabled] says so, and likewise
    for video. *)
Definition in_step (s : State) : Prop :=
  ∀ stream r t,
    localStream s = Some stream → r ∈ stream → tracks s !! r = Some t →
    (mt_kind t = "audio" → mt_enabled t = isAudioEnabled s) ∧
    (mt_kind t = "video" → mt_enabled t = isVideoEnabled s).

(** A camera stream as [getUserMedia] hands it over. *)
Definition live : State :=
  mkMedia {[0 := mkMTrack "audio" true false; 1 := mkMTrack "video" true false]}
    (Some [0; 1]) None true true false.

(** No stream yet. *)
Definition idle : State := mkMedia ∅ None None true true false.

(** The camera stream and a screen stream. *)
Definition sharing : State :=
  mkMedia {[0 := mkMTrack "audio" true false; 1 := mkMTrack "video" true false;
            2 := mkMTrack "video" true false]}
    (Some [0; 1]) (Some [2]) true true true.

End Media.

(** ** The recent rooms kept in local storage ([VideoCall.js]: the user
    name check and [handleUsernameSubmit]) *)

Module RecentRooms.

Record Entry := mkEntry {
  e_id : string;
  e_userName : string;
  e_timestamp : nat
}.

(** The item [recentRooms] of [localStorage] as the code sees it: absent
    ([getItem] gives [null], and the code parses the text of an empty
    array instead), a text that [JSON.parse] turns into an array of
    entries, or a text on which the [try] block throws. *)
Inductive Item :=
| Absent
| Parses (l : list Entry)
| Throws.

Record State := mkState {
  storage : Item;
  userName : string;
  isUserNameSet : bool;
  showUsernamePrompt : bool
}.

(** [JSON.parse(localStorage.getItem('recentRooms') || '[]')]; [None]: the
    exception. *)
Definition read (i : Item) : option (list Entry) :=
  match i with
  | Absent => Some []
  | Parses l => Some l
  | Throws => None
  end.


Section trim.
(** [String.prototype.trim]. *)
Variable trim : string → string.


Definition handleUsernameSubmit (roomId : string) (now : nat) (s : State)
    : State :=
  if decide (trim (userName s) = "") then s
  else
    let item :=
      match read (storage s) with
      | Some recentRooms =>
          if decide (Exists (λ e, e_id e = roomId) recentRooms)
          then storage s
          else
            Parses (take 5 (mkEntry roomId (trim (userName s)) now
                              :: recentRooms))
      | None => storage s
      end in
    mkState item (userName s) true false.
End trim.

(** Six rooms in the store, none with a blank name. *)
Definition six_rooms : list Entry :=
  [mkEntry "r1" "Ann" 1; mkEntry "r2" "Ann" 2; mkEntry "r3" "Ann" 3;
   mkEntry "r4" "Ann" 4; mkEntry "r5" "Ann" 5; mkEntry "r6" "Ann" 6].

End RecentRooms.

(** * Facts about insertion-ordered maps *)

Module JsMapFacts.
Section facts.
Context {V : Type}.
Implicit Types (m : JsMap.t V) (k : string) (v : V).

Lemma keys_set m k v :
  JsMap.keys (JsMap.set k v m) =
    if decide (k ∈ JsMap.keys m) then JsMap.keys m else JsMap.keys m ++ [k].
Proof.
  unfold JsMap.keys. induction m as [|[k' v'] m IH]; csimpl.
  - done.
  - destruct (decide (k' = k)) as [->|Hne]; csimpl.
    + rewrite decide_True; [done | left].
    + rewrite IH. destruct (decide (k ∈ m.*1)) as [Hin|Hnin].
      * rewrite decide_True; [done | by right].
      * rewrite decide_False; [done |].
        intros [?|?]%elem_of_cons; congruence.
Qed.

Lemma set_not_nil m k v : JsMap.set k v m ≠ [].
Proof. destruct m as [|[k' v'] m]; csimpl; [done | by case_decide]. Qed.

Lemma elem_of_set m k v k' v' :
  (k', v') ∈ JsMap.set k v m → (k', v') = (k, v) ∨ (k', v') ∈ m.
Proof.
  induction m as [|[k0 v0] m IH]; csimpl.
  - intros ->%list_elem_of_singleton. by left.
  - case_decide; subst.
    + intros [->|?]%elem_of_cons; [by left | right; by right].
    + intros [->|?]%elem_of_cons; [right; left | ].
      destruct IH as [?|?]; [done | by left | right; by right].
Qed.

Lemma elem_of_keys_set m k v : k ∈ JsMap.keys (JsMap.set k v m).
Proof.
  rewrite keys_set. case_decide; [done |].
  apply elem_of_app. right. apply list_elem_of_singleton. done.
Qed.

Lemma NoDup_keys_set m k v :
  NoDup (JsMap.keys m) → NoDup (JsMap.keys (JsMap.set k v m)).
Proof.
  intros Hnd. rewrite keys_set. case_decide; [done |].
  apply NoDup_app. split_and!; [done | | apply NoDup_singleton].
  intros x Hx ->%list_elem_of_singleton. done.
Qed.

Lemma keys_delete m k :
  JsMap.keys (JsMap.delete k m) = filter (λ x, x ≠ k) (JsMap.keys m).
Proof.
  unfold JsMap.keys. induction m as [|[k' v'] m IH]; csimpl; [done |].
  destruct (decide (k' = k)) as [->|Hne].
  - rewrite filter_cons_False; [done | naive_solver].
  - rewrite filter_cons_True; [| done]. csimpl. by rewrite IH.
Qed.

Lemma elem_of_delete m k k' v' :
  (k', v') ∈ JsMap.delete k m → (k', v') ∈ m ∧ k' ≠ k.
Proof.
  induction m as [|[k0 v0] m IH]; csimpl; [by intros ?%elem_of_nil |].
  case_decide; subst.
  - intros [? ?]%IH. split; [by right | done].
  - intros [[= -> ->]|[? ?]%IH]%elem_of_cons; split; try done;
      [left | by right].
Qed.

Lemma NoDup_keys_delete m k :
  NoDup (JsMap.keys m) → NoDup (JsMap.keys (JsMap.delete k m)).
Proof. intros. rewrite keys_delete. by apply NoDup_filter. Qed.

Lemma keys_delete_single m k :
  JsMap.keys m = [k] → JsMap.delete k m = [].
Proof.
  destruct m as [|[k0 v0] [|? ?]]; csimpl; try done.
  intros [= ->]. by rewrite decide_True.
Qed.

Lemma size_zero m : JsMap.size m = 0 ↔ m = [].
Proof. unfold JsMap.size. by rewrite length_zero_iff_nil. Qed.

Lemma elem_of_set_eq m k v : (k, v) ∈ JsMap.set k v m.
Proof.
  induction m as [|[k0 v0] m IH]; csimpl; [left|].
  case_decide; [left | by right].
Qed.

Lemma elem_of_set_ne m k v k' v' :
  (k', v') ∈ m → k' ≠ k → (k', v') ∈ JsMap.set k v m.
Proof.
  intros Hin Hne. induction m as [|[k0 v0] m IH]; csimpl.
  - by apply elem_of_nil in Hin.
  - apply elem_of_cons in Hin as [[= <- <-]|Hin].
    + rewrite decide_False by done. left.
    + case_decide; right; [done | by apply IH].
Qed.

Lemma elem_of_delete_ne m k k' v' :
  (k', v') ∈ m → k' ≠ k → (k', v') ∈ JsMap.delete k m.
Proof.
  intros Hin Hne. induction m as [|[k0 v0] m IH]; csimpl.
  - by apply elem_of_nil in Hin.
  - apply elem_of_cons in Hin as [[= <- <-]|Hin].
    + rewrite decide_False by done. left.
    + case_decide; [by apply IH | right; by apply IH].
Qed.
End facts.
End JsMapFacts.

(** * The relay: registry invariants and routing *)

Module RelayFacts.
Import Relay JsMapFacts.

Lemma handleUserLeave_spec now sid s s' acts :
  handleUserLeave now sid s = (s', acts) →
  heap s' = heap s ∧ next s' = next s ∧ sockets s' = sockets s ∧
  users s' = delete sid (users s) ∧
  ∀ rid room', rooms s' !! rid = Some room' →
    ∃ room, rooms s !! rid = Some room ∧
      (room' = room ∨
       (r_users room' = JsMap.delete sid (r_users room) ∧
        r_users room' ≠ [])).
Proof.
  unfold handleUserLeave. intros Heq.
  destruct (users s !! sid) as [ur|] eqn:Hu; last first.
  { injection Heq as <- <-. simpl. split_and!; try done. eauto. }
  destruct (truthy (u_roomId (deref s ur))); last first.
  { injection Heq as <- <-. simpl. split_and!; try done. eauto. }
  destruct (rooms s !! default "" (u_roomId (deref s ur))) as [room|] eqn:Hr;
    last first.
  { injection Heq as <- <-. simpl. split_and!; try done. eauto. }
  destruct (decide (JsMap.size (JsMap.delete sid (r_users room)) = 0))
    as [Hz|Hnz]; injection Heq as <- <-; simpl; split_and!; try done.
  - intros rid room' [Hne Hl]%lookup_delete_Some. eauto.
  - intros rid room'. rewrite lookup_insert_Some.
    intros [[<- <-]|[Hne Hl]]; [|eauto].
    eexists. split; [done|]. right. simpl. split; [done|].
    by rewrite <-size_zero.
Qed.

Lemma handleUserLeave_rooms_other now sid s rid :
  (∀ ur, users s !! sid = Some ur → u_roomId (deref s ur) ≠ Some rid) →
  rooms (handleUserLeave now sid s).1 !! rid = rooms s !! rid.
Proof.
  unfold handleUserLeave. intros Hne.
  destruct (users s !! sid) as [ur|] eqn:Hu; [|done].
  specialize (Hne ur eq_refl).
  destruct (u_roomId (deref s ur)) as [old|] eqn:Hold; [|done].
  simpl. case_bool_decide; [|done].
  destruct (rooms s !! old) as [room|] eqn:Hr; [|done].
  case_decide; simpl.
  - rewrite lookup_delete_ne; [done | congruence].
  - rewrite lookup_insert_ne; [done | congruence].
Qed.

(** [on_join_room] for a sender with a user record, with the nested
    destructuring let-bindings resolved. *)
Lemma on_join_room_eq now sid roomId userName rta s ur :
  users s !! sid = Some ur →
  let roomType := default "video" rta in
  let s1 := (join_switch now sid roomId ur s).1 in
  let a1 := (join_switch now sid roomId ur s).2 in
  let u' := joined_user roomId userName roomType (deref s1 ur) in
  let s2 := set_users (<[sid := ur]> (users s1))
              (set_heap (<[ur := u']> (heap s1)) s1) in
  let room := default (mkRoom roomId [] now roomType) (rooms s1 !! roomId) in
  let a3 := match rooms s1 !! roomId with
            | Some _ => []
            | None => [Emit ToAll (EvNewRoomCreated roomId roomType now)]
            end in
  let room' := set_r_users (JsMap.set sid ur (r_users room)) room in
  on_join_room now sid roomId userName rta s =
    (set_rooms (<[roomId := room']> (rooms s1)) s2,
     a1 ++ SocketJoin sid roomId :: a3 ++
     [ Emit (ToSocket sid)
         (EvJoinedRoom roomId sid (Some userName) (r_roomType room)
            (existingUsersInRoom s2 sid room) getWebRTCConfig);
       Emit (ToRoomExcept roomId sid)
         (EvUserJoined sid (Some userName) true
            (bool_decide (roomType = "video")));
       Emit ToAll
         (EvRoomUpdated roomId (JsMap.size (r_users room'))
            (r_createdAt room) (r_roomType room)) ]).
Proof.
  intros Hu. unfold on_join_room, join_switch. rewrite Hu.
  destruct (truthy (u_roomId (deref s ur)) &&
            bool_decide (u_roomId (deref s ur) ≠ Some roomId)).
  - destruct (handleUserLeave now sid s) as [sl al]. simpl.
    destruct (rooms sl !! roomId) as [room|] eqn:Hr; simpl.
    + rewrite Hr. done.
    + rewrite lookup_insert_eq. unfold set_rooms. simpl.
      rewrite insert_insert_eq. done.
  - simpl.
    destruct (rooms s !! roomId) as [room|] eqn:Hr; simpl.
    + rewrite Hr. done.
    + rewrite lookup_insert_eq. unfold set_rooms. simpl.
      rewrite insert_insert_eq. done.
Qed.

Lemma join_switch_spec now sid roomId ur s :
  users s !! sid = Some ur →
  let s1 := (join_switch now sid roomId ur s).1 in
  heap s1 = heap s ∧ next s1 = next s ∧ sockets s1 = sockets s ∧
  (users s1 = users s ∨ users s1 = delete sid (users s)) ∧
  rooms s1 !! roomId = rooms s !! roomId ∧
  ∀ rid room', rooms s1 !! rid = Some room' →
    ∃ room, rooms s !! rid = Some room ∧
      (room' = room ∨
       (r_users room' = JsMap.delete sid (r_users room) ∧
        r_users room' ≠ [])).
Proof.
  intros Hu. unfold join_switch.
  destruct (truthy (u_roomId (deref s ur)) &&
            bool_decide (u_roomId (deref s ur) ≠ Some roomId)) eqn:Hc;
    cbn [fst]; last by (split_and!; eauto).
  apply andb_prop in Hc as [_ Hne%bool_decide_eq_true_1].
  destruct (handleUserLeave now sid s) as [sl al] eqn:Hl.
  pose proof (handleUserLeave_rooms_other now sid s roomId) as Hoth.
  rewrite Hl in Hoth. cbn [fst] in *.
  apply handleUserLeave_spec in Hl as (? & ? & ? & ? & ?).
  split_and!; eauto. apply Hoth. intros ur' Hu'. congruence.
Qed.

Lemma u_id_deref_insert s ur u' r :
  u_id u' = u_id (deref s ur) →
  u_id (<[ur := u']> (heap s) !!! r) = u_id (deref s r).
Proof.
  intros Hid. unfold deref. destruct (decide (ur = r)) as [->|Hne].
  - by rewrite lookup_total_insert_eq.
  - by rewrite lookup_total_insert_ne.
Qed.

(** A handler that only rewrites fields other than [id] of one user object
    keeps the registry well formed. *)
Lemma wf_set_heap s ur u' :
  wf s → u_id u' = u_id (deref s ur) →
  wf (set_heap (<[ur := u']> (heap s)) s).
Proof.
  intros [Hus Hrs Hnd] Hid. split; simpl.
  - intros sid r Hr. unfold deref; simpl. rewrite u_id_deref_insert; auto.
  - intros rid room k r Hr Hk. unfold deref; simpl.
    rewrite u_id_deref_insert; eauto.
  - done.
Qed.

Lemma wf_set_metrics s m : wf s → wf (set_metrics m s).
Proof. intros [Hus Hrs Hnd]. by split. Qed.

Lemma on_connection_wf now ip sid s : wf s → wf (on_connection now ip sid s).
Proof.
  intros [Hus Hrs Hnd]. unfold on_connection. split; simpl.
  - intros sid' r. unfold deref; simpl. rewrite lookup_insert_Some.
    intros [[<- <-]|[Hne Hr]].
    + rewrite lookup_total_insert_eq. simpl. split; [lia | done].
    + destruct (Hus _ _ Hr) as [Hlt Hid].
      rewrite lookup_total_insert_ne; [|lia]. split; [lia | done].
  - intros rid room k r Hr Hk. destruct (Hrs _ _ _ _ Hr Hk) as [Hlt Hid].
    unfold deref; simpl. rewrite lookup_total_insert_ne; [|lia].
    split; [lia | done].
  - done.
Qed.

Lemma handleUserLeave_wf now sid s :
  wf s → wf (handleUserLeave now sid s).1.
Proof.
  intros [Hus Hrs Hnd].
  destruct (handleUserLeave now sid s) as [s' acts] eqn:Hl. cbn [fst].
  apply handleUserLeave_spec in Hl as (Hh & Hn & _ & Hu & Hr).
  split; unfold deref; rewrite ?Hh, ?Hn.
  - intros sid' r. rewrite Hu. intros [_ ?]%lookup_delete_Some. by apply Hus.
  - intros rid room' k r Hl Hk.
    destruct (Hr _ _ Hl) as (room & Hroom & [->|[Hdel _]]); [by eapply Hrs|].
    rewrite Hdel in Hk. apply elem_of_delete in Hk as [Hk _]. by eapply Hrs.
  - intros rid room' Hl.
    destruct (Hr _ _ Hl) as (room & Hroom & [->|[Hdel _]]); [by eapply Hnd|].
    rewrite Hdel. apply NoDup_keys_delete. by eapply Hnd.
Qed.

Lemma handleUserLeave_no_empty now sid s :
  no_empty_room s → no_empty_room (handleUserLeave now sid s).1.
Proof.
  intros Hne.
  destruct (handleUserLeave now sid s) as [s' acts] eqn:Hl. cbn [fst].
  apply handleUserLeave_spec in Hl as (_ & _ & _ & _ & Hr).
  intros rid room' Hl.
  destruct (Hr _ _ Hl) as (room & Hroom & [->|[_ ?]]); [by eapply Hne | done].
Qed.

Lemma on_join_room_no_empty now sid roomId userName rta s :
  no_empty_room s → no_empty_room (on_join_room now sid roomId userName rta s).1.
Proof.
  intros Hne. destruct (users s !! sid) as [ur|] eqn:Hu; last first.
  { unfold on_join_room. by rewrite Hu. }
  rewrite (on_join_room_eq _ _ _ _ _ _ _ Hu). cbn [fst].
  destruct (join_switch_spec now sid roomId ur s Hu) as (_ & _ & _ & _ & _ & Hr).
  intros rid room'. simpl. rewrite lookup_insert_Some.
  intros [[_ <-]|[_ Hl]]; simpl; [apply set_not_nil|].
  destruct (Hr _ _ Hl) as (room & Hroom & [->|[_ ?]]); [by eapply Hne | done].
Qed.

Lemma on_join_room_wf now sid roomId userName rta s :
  wf s → wf (on_join_room now sid roomId userName rta s).1.
Proof.
  intros Hwf. destruct (users s !! sid) as [ur|] eqn:Hu; last first.
  { unfold on_join_room. by rewrite Hu. }
  rewrite (on_join_room_eq _ _ _ _ _ _ _ Hu). cbn [fst].
  destruct (join_switch_spec now sid roomId ur s Hu)
    as (Hh & Hn & _ & Hus1 & Hrid & Hr).
  destruct Hwf as [Hus Hrs Hnd].
  destruct (Hus _ _ Hu) as [Hlt Hid].
  set (s1 := (join_switch now sid roomId ur s).1) in *.
  assert (Hderef : ∀ r,
    u_id (<[ur := joined_user roomId userName (default "video" rta)
                     (deref s1 ur)]> (heap s1) !!! r) = u_id (deref s r)).
  { intros r. unfold deref. rewrite Hh. apply (u_id_deref_insert s). done. }
  assert (Hold : ∀ rid room k r,
    rooms s1 !! rid = Some room → (k, r) ∈ r_users room →
    r < next s ∧ u_id (deref s r) = k).
  { intros rid room' k r Hl Hk.
    destruct (Hr _ _ Hl) as (room & Hroom & [->|[Hdel _]]); [by eapply Hrs|].
    rewrite Hdel in Hk. apply elem_of_delete in Hk as [Hk _]. by eapply Hrs. }
  split; unfold deref; simpl; rewrite ?Hn.
  - intros sid' r. rewrite Hderef, lookup_insert_Some.
    intros [[<- <-]|[_ Hl]]; [done|]. apply Hus.
    destruct Hus1 as [Hus1|Hus1]; rewrite Hus1 in Hl; [done|].
    by apply lookup_delete_Some in Hl as [_ ?].
  - intros rid room' k r. rewrite Hderef, lookup_insert_Some.
    intros [[_ <-]|[_ Hl]] Hk; [|by eapply Hold]. simpl in Hk.
    apply elem_of_set in Hk as [[= -> ->]|Hk]; [done|].
    destruct (rooms s1 !! roomId) as [room|] eqn:Hl; simpl in Hk.
    + by eapply Hold.
    + by apply elem_of_nil in Hk.
  - intros rid room'. rewrite lookup_insert_Some.
    intros [[_ <-]|[_ Hl]]; simpl.
    + apply NoDup_keys_set.
      destruct (rooms s1 !! roomId) as [room|] eqn:Hl; simpl.
      * rewrite Hrid in Hl. by eapply Hnd.
      * apply NoDup_nil_2.
    + destruct (Hr _ _ Hl) as (room & Hroom & [->|[Hdel _]]); [by eapply Hnd|].
      rewrite Hdel. apply NoDup_keys_delete. by eapply Hnd.
Qed.

Lemma handle_rooms_other now sid m s :
  (∀ rid u rt, m ≠ JoinRoom rid u rt) → m ≠ LeaveRoom → m ≠ Disconnect →
  rooms (handle now sid m s).1 = rooms s.
Proof.
  intros Hj Hl Hd. destruct m; try done; simpl.
  - by destruct (Hj roomId userName roomType).
  - unfold on_offer. destruct (users s !! sid); [|done]. by destruct route.
  - unfold on_answer. destruct (users s !! sid); [|done]. by destruct route.
  - unfold on_ice_candidate. destruct (users s !! sid); [|done].
    by destruct route.
  - unfold on_connection_status. destruct (users s !! sid); [|done].
    by destruct truthy.
  - unfold on_media_state_change. destruct (users s !! sid); [|done].
    by destruct truthy.
  - unfold on_audio_toggle. destruct (users s !! sid); [|done].
    by destruct truthy.
  - unfold on_video_toggle. destruct (users s !! sid); [|done].
    by destruct truthy.
  - unfold on_chat_message. destruct (users s !! sid); [|done].
    by case_decide.
Qed.

Lemma on_disconnect_rooms now sid s :
  rooms (on_disconnect now sid s).1 = rooms (handleUserLeave now sid s).1.
Proof. unfold on_disconnect. by destruct handleUserLeave. Qed.

Lemma handle_no_empty now sid m s :
  no_empty_room s → no_empty_room (handle now sid m s).1.
Proof.
  intros Hne.
  destruct m;
    try (intros rid room; rewrite handle_rooms_other by done; apply Hne).
  - by apply on_join_room_no_empty.
  - by apply handleUserLeave_no_empty.
  - intros rid room. simpl. rewrite on_disconnect_rooms.
    by apply handleUserLeave_no_empty.
Qed.

Lemma handle_wf now sid m s : wf s → wf (handle now sid m s).1.
Proof.
  intros Hwf. destruct m; simpl.
  - by apply on_join_room_wf.
  - unfold on_offer. destruct (users s !! sid); [|done].
    destruct route; [|done]. by apply wf_set_metrics.
  - unfold on_answer. destruct (users s !! sid); [|done].
    destruct route; [|done]. by apply wf_set_metrics.
  - unfold on_ice_candidate. destruct (users s !! sid); [|done].
    by destruct route.
  - done.
  - unfold on_connection_status. destruct (users s !! sid); [|done].
    destruct truthy; [|done]. by apply wf_set_metrics.
  - unfold on_media_state_change. destruct (users s !! sid); [|done].
    destruct truthy; [|done]. by apply wf_set_heap.
  - unfold on_audio_toggle. destruct (users s !! sid); [|done].
    destruct truthy; [|done]. by apply wf_set_heap.
  - unfold on_video_toggle. destruct (users s !! sid); [|done].
    destruct truthy; [|done]. by apply wf_set_heap.
  - unfold on_chat_message. destruct (users s !! sid); [|done].
    by case_decide.
  - by apply handleUserLeave_wf.
  - unfold on_disconnect.
    pose proof (handleUserLeave_wf now sid s Hwf) as Hwf'.
    destruct handleUserLeave as [s' acts]. by destruct Hwf'.
  - done.
Qed.

Lemma init_wf : wf init.
Proof. split; unfold init; simpl; intros *; by rewrite lookup_empty. Qed.

Lemma reachable_wf s : reachable s → wf s.
Proof.
  induction 1 as [|s now ip sid _ IH _|s now sid m _ IH _].
  - apply init_wf.
  - by apply on_connection_wf.
  - by apply handle_wf.
Qed.

Lemma reachable_no_empty s : reachable s → no_empty_room s.
Proof.
  induction 1 as [|s now ip sid _ IH _|s now sid m _ IH _].
  - intros rid room. unfold init; simpl. by rewrite lookup_empty.
  - done.
  - by apply handle_no_empty.
Qed.

(** *** The scenarios are reachable *)

Lemma alone_reachable : reachable alone.
Proof.
  unfold alone. apply reach_handle; [apply reach_connect; [constructor|]|].
  - set_solver.
  - simpl. set_solver.
Qed.

Lemma two_rooms_reachable : reachable two_rooms.
Proof.
  unfold two_rooms.
  repeat first [apply reach_handle | apply reach_connect | apply reach_init];
    by vm_compute.
Qed.

Lemma after_leave_reachable : reachable after_leave.
Proof.
  unfold after_leave. apply reach_handle; [apply two_rooms_reachable|].
  by vm_compute.
Qed.

Lemma route_Some s fr sid target :
  users s !! sid = Some fr →
  is_Some (route s (deref s fr) target) ↔ can_route s sid target.
Proof.
  intros Hu. unfold route, can_route. split.
  - case_decide; [|by intros [? ?]].
    destruct (users s !! target) as [tr|] eqn:Ht; [|by intros [? ?]].
    case_decide; [|by intros [? ?]]. intros _. by exists fr, tr.
  - intros (fr' & tr & Hu' & Hin & Ht & Heq). simplify_eq.
    rewrite decide_True, Ht, decide_True; done.
Qed.

Lemma filter_joined_handleUserLeave now sid s :
  filter is_joined_room (handleUserLeave now sid s).2 = [].
Proof.
  unfold handleUserLeave.
  destruct (users s !! sid); [|done]. destruct truthy; [|done].
  destruct (rooms s !! _); [|done]. by case_decide.
Qed.

(** ** Claims about the relay *)

(** C9: a join-room request from a socket with no user record is answered
    by one error event sent to that socket alone; the registry (users,
    rooms, user objects, metrics, live sockets) is left exactly as it was,
    so nothing is created, no membership changes, nothing is broadcast and
    the socket stays connected and may send join-room again. *)
Theorem join_room_without_user_record now sid roomId userName roomType s :
  users s !! sid = None →
  on_join_room now sid roomId userName roomType s =
    (s, [Emit (ToSocket sid)
           (EvError "User data not initialized. Please refresh.")]).
Proof. intros Hu. unfold on_join_room. by rewrite Hu. Qed.

Lemma join_room_without_user_record_witness :
  on_join_room 5 "alice" "abc" "Alice" None after_leave =
    (after_leave,
     [Emit (ToSocket "alice")
        (EvError "User data not initialized. Please refresh.")]).
Proof. apply join_room_without_user_record. by vm_compute. Defined.

(** C10: an offer, answer or ice-candidate whose sending socket has no
    entry in [users] makes the relay do nothing: no action at all (nothing
    forwarded, no call-failed, no error) and the state is unchanged. *)
Theorem unregistered_sender_ignored now sid payload target s :
  users s !! sid = None →
  on_offer now sid payload target s = (s, []) ∧
  on_answer now sid payload target s = (s, []) ∧
  on_ice_candidate now sid payload target s = (s, []).
Proof.
  intros Hu. unfold on_offer, on_answer, on_ice_candidate. by rewrite Hu.
Qed.

Lemma unregistered_sender_ignored_witness :
  on_offer 5 "alice" "sdp" "bob" after_leave = (after_leave, []) ∧
  on_answer 5 "alice" "sdp" "bob" after_leave = (after_leave, []) ∧
  on_ice_candidate 5 "alice" "sdp" "bob" after_leave = (after_leave, []).
Proof. apply unregistered_sender_ignored. by vm_compute. Defined.

(** C1, as stated, fails twice.  Alice has left her room but her socket is
    still connected: she has no user record, and her offer to Bob is
    neither forwarded nor answered by call-failed.  Alice (room abc) sends
    an ice-candidate to Bob (room xyz): it is not forwarded and no
    call-failed is sent to her. *)
Lemma relay_not_always_call_failed :
  ("alice" ∈ sockets after_leave ∧
   users after_leave !! "alice" = None ∧
   on_offer 5 "alice" "sdp" "bob" after_leave = (after_leave, [])) ∧
  (u_roomId (deref two_rooms 0) = Some "abc" ∧
   u_roomId (deref two_rooms 1) = Some "xyz" ∧
   users two_rooms !! "alice" = Some 0 ∧
   users two_rooms !! "bob" = Some 1 ∧
   on_ice_candidate 5 "alice" "cand" "bob" two_rooms = (two_rooms, [])).
Proof. split_and!; by vm_compute. Qed.

(** C1, amended: for a sender with a user record, an offer, answer or
    ice-candidate is forwarded to [targetUserId] (stamped with the sender's
    id and name and the server time) exactly when the target has a live
    socket and a user record and the two [roomId] fields are equal;
    otherwise nothing is forwarded, and for an offer or an answer the
    sender gets call-failed.  A sender without a user record gets no
    reply. *)
Theorem relay_routing now sid payload target s :
  match users s !! sid with
  | Some fr =>
      let name := u_name (deref s fr) in
      (can_route s sid target ∧
       (on_offer now sid payload target s).2 =
         [Emit (ToSocket target)
            (EvOffer payload sid name now getWebRTCConfig)] ∧
       (on_answer now sid payload target s).2 =
         [Emit (ToSocket target) (EvAnswer payload sid name now)] ∧
       (on_ice_candidate now sid payload target s).2 =
         [Emit (ToSocket target) (EvIceCandidate payload sid name now)])
      ∨
      (¬ can_route s sid target ∧
       (on_offer now sid payload target s).2 =
         [call_failed "offer" sid target] ∧
       (on_answer now sid payload target s).2 =
         [call_failed "answer" sid target] ∧
       filter is_forward (on_ice_candidate now sid payload target s).2 = [])
  | None =>
      (on_offer now sid payload target s).2 = [] ∧
      (on_answer now sid payload target s).2 = [] ∧
      (on_ice_candidate now sid payload target s).2 = []
  end.
Proof.
  destruct (users s !! sid) as [fr|] eqn:Hu; last first.
  { unfold on_offer, on_answer, on_ice_candidate. by rewrite Hu. }
  intros name. pose proof (route_Some s fr sid target Hu) as Hroute.
  unfold on_offer, on_answer, on_ice_candidate. rewrite Hu.
  destruct (route s (deref s fr) target) as [tu|].
  - left. split_and!; try done. apply Hroute. eauto.
  - right. split_and!; try done. intros Hc. apply Hroute in Hc.
    by destruct Hc.
Qed.

Lemma relay_routing_witness :
  (on_offer 5 "alice" "sdp" "bob" one_room).2 =
    [Emit (ToSocket "bob")
       (EvOffer "sdp" "alice" (Some "Alice") 5 getWebRTCConfig)] ∧
  (on_offer 5 "alice" "sdp" "bob" two_rooms).2 =
    [call_failed "offer" "alice" "bob"].
Proof.
  split.
  - pose proof (relay_routing 5 "alice" "sdp" "bob" one_room) as H.
    change (users one_room !! "alice") with (Some 0) in H.
    destruct H as [(_ & H & _)|(_ & H & _)]; [exact H | by vm_compute].
  - pose proof (relay_routing 5 "alice" "sdp" "bob" two_rooms) as H.
    change (users two_rooms !! "alice") with (Some 0) in H.
    destruct H as [(_ & H & _)|(_ & H & _)]; [by vm_compute | exact H].
Defined.

Lemma existing_ids s sid room :
  (∀ k r, (k, r) ∈ r_users room → u_id (deref s r) = k) →
  ui_id <$> existingUsersInRoom s sid room =
    filter (λ k, k ≠ sid) (JsMap.keys (r_users room)).
Proof.
  unfold existingUsersInRoom, JsMap.keys, JsMap.values.
  induction (r_users room) as [|[k r] l IH]; intros Hid; [done|].
  csimpl. rewrite !filter_cons. simpl.
  rewrite (Hid k r) by left.
  rewrite <-IH by (intros ???; apply Hid; by right).
  case_decide; [|done]. csimpl. f_equal. apply Hid. left.
Qed.

(** C3: when a socket with a user record sends join-room, it gets exactly
    one joined-room reply; the ids of the reply's [users] list are the
    member ids the room had immediately before the request (none if the
    room did not exist), in the room's order, without the joiner and
    without repetition; after the handler the room exists and the joiner
    is a member. *)
Theorem join_room_reply now sid roomId userName roomTypeArg s ur :
  reachable s → users s !! sid = Some ur →
  let s' := (on_join_room now sid roomId userName roomTypeArg s).1 in
  let acts := (on_join_room now sid roomId userName roomTypeArg s).2 in
  ∃ roomType reply,
    filter is_joined_room acts =
      [Emit (ToSocket sid)
         (EvJoinedRoom roomId sid (Some userName) roomType reply
            getWebRTCConfig)] ∧
    ui_id <$> reply = filter (λ k, k ≠ sid) (members s roomId) ∧
    NoDup (ui_id <$> reply) ∧
    is_Some (rooms s' !! roomId) ∧
    sid ∈ members s' roomId.
Proof.
  intros Hreach Hu. cbv zeta.
  pose proof (reachable_wf s Hreach) as [Hus Hrs Hnd].
  rewrite (on_join_room_eq _ _ _ _ _ _ _ Hu). cbn [fst snd].
  destruct (join_switch_spec now sid roomId ur s Hu)
    as (Hh & _ & _ & _ & Hrid & _).
  destruct (Hus _ _ Hu) as [_ Hid].
  set (s1 := (join_switch now sid roomId ur s).1) in *.
  set (room := default _ (rooms s1 !! roomId)).
  assert (Hkeys : JsMap.keys (r_users room) = members s roomId).
  { unfold room, members. rewrite Hrid. by destruct (rooms s !! roomId). }
  assert (Hroom : ∀ k r, (k, r) ∈ r_users room → u_id (deref s r) = k).
  { unfold room. rewrite Hrid. intros k r.
    destruct (rooms s !! roomId) as [rm|] eqn:Hl; simpl.
    - intros Hk. by eapply Hrs.
    - by intros ?%elem_of_nil. }
  eexists _, _. split; [|split; [|split; [|split]]].
  - assert (filter is_joined_room (join_switch now sid roomId ur s).2 = [])
      as Hsw.
    { unfold join_switch. destruct (truthy _ && _); cbn [snd]; [|done].
      rewrite filter_cons. simpl. apply filter_joined_handleUserLeave. }
    rewrite filter_app, Hsw, filter_cons, filter_app. simpl.
    destruct (rooms s1 !! roomId); reflexivity.
  - rewrite existing_ids; [by rewrite Hkeys|].
    intros k r Hk. unfold deref. simpl. rewrite Hh.
    rewrite (u_id_deref_insert s); [by apply Hroom | done].
  - rewrite existing_ids.
    + apply NoDup_filter. rewrite Hkeys. unfold members.
      destruct (rooms s !! roomId) eqn:Hl; [by eapply Hnd | apply NoDup_nil_2].
    + intros k r Hk. unfold deref. simpl. rewrite Hh.
      rewrite (u_id_deref_insert s); [by apply Hroom | done].
  - simpl. rewrite lookup_insert_eq. eauto.
  - unfold members. simpl. rewrite lookup_insert_eq. simpl.
    apply elem_of_keys_set.
Qed.

Lemma join_room_reply_witness :
  ∃ roomType reply,
    filter is_joined_room (on_join_room 3 "bob" "abc" "Bob" None two_rooms).2 =
      [Emit (ToSocket "bob")
         (EvJoinedRoom "abc" "bob" (Some "Bob") roomType reply
            getWebRTCConfig)] ∧
    ui_id <$> reply = ["alice"].
Proof.
  destruct (join_room_reply 3 "bob" "abc" "Bob" None two_rooms 1
              two_rooms_reachable eq_refl)
    as (roomType & reply & Hfilter & Hids & _).
  exists roomType, reply. split; [exact Hfilter|].
  rewrite Hids. by vm_compute.
Defined.

(** C4: in every state the relay can reach, and so after every handler
    (join-room, leave-room, disconnect and all others), [rooms] holds no
    room with an empty member map; when leave-room or disconnect comes from
    the only member of the room named by the user's [roomId], that room is
    gone from [rooms] when the handler returns. *)
Theorem no_empty_room_persists now sid m s :
  reachable s →
  let s' := (handle now sid m s).1 in
  no_empty_room s' ∧
  ∀ ur rid room,
    m = LeaveRoom ∨ m = Disconnect →
    users s !! sid = Some ur → u_roomId (deref s ur) = Some rid →
    rid ≠ "" →
    rooms s !! rid = Some room → JsMap.keys (r_users room) = [sid] →
    rooms s' !! rid = None.
Proof.
  intros Hreach. cbv zeta. split.
  { apply handle_no_empty. by apply reachable_no_empty. }
  intros ur rid room Hm Hu Hrid Hrne Hroom Hkeys.
  assert (rooms (handleUserLeave now sid s).1 !! rid = None) as Hgone.
  { unfold handleUserLeave. rewrite Hu, Hrid. simpl.
    rewrite bool_decide_eq_true_2 by done. rewrite Hroom.
    rewrite (keys_delete_single _ _ Hkeys). simpl.
    by rewrite lookup_delete_eq. }
  destruct Hm as [-> | ->]; simpl; [done|].
  by rewrite on_disconnect_rooms.
Qed.

Lemma no_empty_room_persists_witness :
  no_empty_room (handle 9 "alice" LeaveRoom alone).1 ∧
  rooms (handle 9 "alice" LeaveRoom alone).1 !! "abc" = None.
Proof.
  destruct (no_empty_room_persists 9 "alice" LeaveRoom alone alone_reachable)
    as [Hinv Hgone].
  split; [exact Hinv|].
  apply (Hgone 0 "abc" (mkRoom "abc" [("alice", 0)] 2 "video"));
    first [by left | by vm_compute].
Defined.

(** ** Membership and the [roomId] fields *)

Lemma linked_set_metrics s m : linked s → linked (set_metrics m s).
Proof. intros [H1 H2 H3]. by split. Qed.

Lemma roomId_deref_insert s ur u' r :
  u_roomId u' = u_roomId (deref s ur) →
  u_roomId (<[ur := u']> (heap s) !!! r) = u_roomId (deref s r).
Proof.
  intros Hid. unfold deref. destruct (decide (ur = r)) as [->|Hne].
  - by rewrite lookup_total_insert_eq.
  - by rewrite lookup_total_insert_ne.
Qed.

(** A handler that rewrites fields other than [roomId] of one user object
    keeps membership and [roomId] fields in agreement. *)
Lemma linked_set_heap s ur u' :
  linked s → u_roomId u' = u_roomId (deref s ur) →
  linked (set_heap (<[ur := u']> (heap s)) s).
Proof.
  intros [H1 H2 H3] Hid. split; simpl.
  - done.
  - intros sid r rid Hu. unfold deref; simpl.
    rewrite roomId_deref_insert by done. by apply H2.
  - intros rid room k r Hne Hr Hk. unfold deref; simpl.
    rewrite roomId_deref_insert by done. by eapply H3.
Qed.

Lemma on_connection_linked now ip sid s :
  wf s → linked s → sid ∉ sockets s → linked (on_connection now ip sid s).
Proof.
  intros [Hus Hrs _] [H1 H2 H3] Hsid.
  assert (users s !! sid = None) as Hnone.
  { destruct (users s !! sid) eqn:E; [|done]. by apply H1 in E. }
  unfold on_connection. split; simpl.
  - intros k r. rewrite lookup_insert_Some.
    intros [[<- <-]|[_ Hr]].
    + by apply elem_of_union_l, elem_of_singleton.
    + apply elem_of_union_r. eauto.
  - intros k r rid. unfold deref; simpl. rewrite lookup_insert_Some.
    intros [[<- <-]|[Hne Hr]].
    + by rewrite lookup_total_insert_eq.
    + destruct (Hus _ _ Hr) as [Hlt _].
      rewrite lookup_total_insert_ne by lia. by apply H2.
  - intros rid room k r Hne Hr Hk.
    destruct (H3 _ _ _ _ Hne Hr Hk) as [Hu Hrid].
    destruct (Hus _ _ Hu) as [Hlt _]. unfold deref; simpl.
    rewrite lookup_total_insert_ne by lia. split; [|done].
    rewrite lookup_insert_ne; [done|]. intros <-. congruence.
Qed.

(** Removing the record of [sid], with rooms that lose at most entries of
    [sid] and keep none of them under a non-empty id. *)
Lemma linked_remove s s' sid :
  linked s →
  heap s' = heap s → sockets s' = sockets s →
  users s' = delete sid (users s) →
  (∀ rid room k r,
     rooms s !! rid = Some room → (k, r) ∈ r_users room → k ≠ sid →
     ∃ room', rooms s' !! rid = Some room' ∧ (k, r) ∈ r_users room') →
  (∀ rid room' k r,
     rid ≠ "" → rooms s' !! rid = Some room' → (k, r) ∈ r_users room' →
     k ≠ sid ∧ ∃ room, rooms s !! rid = Some room ∧ (k, r) ∈ r_users room) →
  linked s'.
Proof.
  intros [H1 H2 H3] Hh Hsock Hu Hfw Hbk. split; unfold deref; rewrite ?Hh.
  - intros k r. rewrite Hu, Hsock. intros [_ ?]%lookup_delete_Some. eauto.
  - intros k r rid. rewrite Hu. intros [Hne Hk]%lookup_delete_Some Hrid.
    destruct (H2 _ _ _ Hk Hrid) as (room & Hroom & Hin). eauto.
  - intros rid room' k r Hne Hr Hk.
    destruct (Hbk _ _ _ _ Hne Hr Hk) as (Hks & room & Hroom & Hin).
    destruct (H3 _ _ _ _ Hne Hroom Hin) as [Hk' Hrid]. split; [|done].
    rewrite Hu. by rewrite lookup_delete_ne.
Qed.

Lemma handleUserLeave_members now sid s :
  linked s →
  let s' := (handleUserLeave now sid s).1 in
  (∀ rid room k r,
     rooms s !! rid = Some room → (k, r) ∈ r_users room → k ≠ sid →
     ∃ room', rooms s' !! rid = Some room' ∧ (k, r) ∈ r_users room') ∧
  (∀ rid room' k r,
     rid ≠ "" → rooms s' !! rid = Some room' → (k, r) ∈ r_users room' →
     k ≠ sid ∧ ∃ room, rooms s !! rid = Some room ∧ (k, r) ∈ r_users room).
Proof.
  intros [H1 H2 H3]. cbv zeta.
  assert (Hkeep : ∀ rid room' k r,
    (∀ ur, users s !! sid = Some ur → u_roomId (deref s ur) ≠ Some rid) →
    rid ≠ "" → rooms s !! rid = Some room' → (k, r) ∈ r_users room' →
    k ≠ sid ∧ ∃ room, rooms s !! rid = Some room ∧ (k, r) ∈ r_users room).
  { intros rid room' k r Hno Hne Hr Hk. split; [|eauto]. intros ->.
    destruct (H3 _ _ _ _ Hne Hr Hk) as [Hu Hrid]. by apply (Hno r). }
  unfold handleUserLeave.
  destruct (users s !! sid) as [ur|] eqn:Hu; simpl.
  2: { split; [eauto|]. intros rid room' k r. by apply Hkeep. }
  destruct (u_roomId (deref s ur)) as [old|] eqn:Hold; simpl.
  2: { split; [eauto|]. intros rid room' k r. apply Hkeep.
       intros ? [= <-]. congruence. }
  case_bool_decide as Hold_ne; simpl.
  2: { split; [eauto|]. intros rid room' k r Hne. apply Hkeep; [|done].
       intros ? [= <-]. rewrite Hold. by intros [= <-]. }
  destruct (rooms s !! old) as [room|] eqn:Hroom; simpl.
  2: { split; [eauto|]. intros rid room' k r Hne Hr. apply Hkeep; [|done..].
       intros ? [= <-]. rewrite Hold. intros [= <-]. congruence. }
  case_decide as Hsize; simpl.
  - apply size_zero in Hsize. split.
    + intros rid room0 k r Hr Hk Hne.
      destruct (decide (rid = old)) as [->|Hrid].
      * simplify_eq. apply (elem_of_delete_ne _ sid) in Hk; [|done].
        rewrite Hsize in Hk. by apply elem_of_nil in Hk.
      * rewrite lookup_delete_ne by done. eauto.
    + intros rid room' k r Hne [Hrid Hr]%lookup_delete_Some.
      apply Hkeep; [|done..]. intros ? [= <-]. congruence.
  - split.
    + intros rid room0 k r Hr Hk Hne.
      destruct (decide (rid = old)) as [->|Hrid].
      * simplify_eq. rewrite lookup_insert_eq. eexists. split; [done|].
        simpl. by apply elem_of_delete_ne.
      * rewrite lookup_insert_ne by done. eauto.
    + intros rid room' k r Hne. rewrite lookup_insert_Some.
      intros [[<- <-]|[Hrid Hr]].
      * simpl. intros [Hk Hks]%elem_of_delete. eauto.
      * apply Hkeep; [|done..]. intros ? [= <-]. congruence.
Qed.

Lemma handleUserLeave_linked now sid s :
  linked s → linked (handleUserLeave now sid s).1.
Proof.
  intros Hlk. pose proof (handleUserLeave_members now sid s Hlk) as [Hfw Hbk].
  destruct (handleUserLeave now sid s) as [s' acts] eqn:Hl. cbn [fst] in *.
  apply handleUserLeave_spec in Hl as (Hh & _ & Hsock & Hu & _).
  by eapply linked_remove.
Qed.

Lemma on_join_room_linked now sid roomId userName rta s :
  wf s → linked s → linked (on_join_room now sid roomId userName rta s).1.
Proof.
  intros Hwf Hlk. destruct (users s !! sid) as [ur|] eqn:Hu; last first.
  { unfold on_join_room. by rewrite Hu. }
  rewrite (on_join_room_eq _ _ _ _ _ _ _ Hu). cbn [fst].
  set (s1 := (join_switch now sid roomId ur s).1).
  assert (linked s1 ∧ heap s1 = heap s ∧ sockets s1 = sockets s ∧
          (∀ k, k ≠ sid → users s1 !! k = users s !! k) ∧
          (∀ r, users s1 !! sid = Some r →
             r = ur ∧ ∀ rid, u_roomId (deref s ur) = Some rid →
                       rid ≠ "" → rid = roomId)) as Hs1.
  { unfold s1, join_switch.
    destruct (truthy _ && bool_decide _) eqn:Hc; cbn [fst].
    - pose proof (handleUserLeave_linked now sid s Hlk) as Hlk'.
      destruct (handleUserLeave now sid s) as [sl al] eqn:Hl. cbn [fst] in *.
      apply handleUserLeave_spec in Hl as (Hh & _ & Hsock & Hus & _).
      split_and!; try done.
      + intros k Hne. by rewrite Hus, lookup_delete_ne.
      + intros r. by rewrite Hus, lookup_delete_eq.
    - split_and!; try done. intros r Hr. split; [congruence|].
      intros rid Hrid Hne. rewrite Hrid in Hc.
      apply andb_false_iff in Hc as [Hc|Hc]; simpl in Hc.
      + apply bool_decide_eq_false in Hc. by destruct Hc.
      + apply bool_decide_eq_false in Hc. apply dec_stable in Hc. congruence. }
  destruct Hs1 as ([L1 L2 L3] & Hh & Hsock & Hoth & Hsid).
  destruct Hwf as [Hus Hrs Hnd]. destruct (Hus _ _ Hu) as [_ Hid].
  assert (Hother : ∀ k r, k ≠ sid → users s1 !! k = Some r → ur ≠ r).
  { intros k r Hne Hr <-. rewrite Hoth in Hr by done.
    destruct (Hus _ _ Hr) as [_ Hidk]. congruence. }
  split; unfold deref; simpl.
  - intros k r. rewrite lookup_insert_Some. intros [[<- <-]|[Hne Hr]].
    + rewrite Hsock. by eapply lk_live.
    + by eapply L1.
  - intros k r rid. rewrite lookup_insert_Some. intros [[<- <-]|[Hne Hr]].
    + rewrite lookup_total_insert_eq. simpl. intros [= <-].
      rewrite lookup_insert_eq. eexists. split; [done|]. simpl.
      apply elem_of_set_eq.
    + rewrite lookup_total_insert_ne by eauto. intros Hrid.
      destruct (L2 _ _ _ Hr Hrid) as (room & Hroom & Hin).
      destruct (decide (rid = roomId)) as [->|Hne'].
      * rewrite lookup_insert_eq. eexists. split; [done|]. simpl.
        rewrite Hroom. simpl. by apply elem_of_set_ne.
      * rewrite lookup_insert_ne by done. eauto.
  - intros rid rm k r Hne. rewrite lookup_insert_Some.
    intros [[<- <-]|[Hne' Hr]] Hk.
    + simpl in Hk. apply elem_of_set in Hk as [[= -> ->]|Hk].
      * by rewrite lookup_insert_eq, lookup_total_insert_eq.
      * destruct (rooms s1 !! roomId) as [room|] eqn:Hroom; simpl in Hk;
          [|by apply elem_of_nil in Hk].
        destruct (L3 _ _ _ _ Hne Hroom Hk) as [Hk' Hrid].
        destruct (decide (k = sid)) as [->|Hks].
        -- destruct (Hsid _ Hk') as [-> _].
           by rewrite lookup_insert_eq, lookup_total_insert_eq.
        -- rewrite lookup_insert_ne by done.
           rewrite lookup_total_insert_ne by eauto. done.
    + destruct (L3 _ _ _ _ Hne Hr Hk) as [Hk' Hrid].
      destruct (decide (k = sid)) as [->|Hks].
      * destruct (Hsid _ Hk') as [-> Hx]. exfalso. apply Hne'. symmetry.
        apply Hx; [|done]. unfold deref in *. by rewrite <-Hh.
      * rewrite lookup_insert_ne by done.
        rewrite lookup_total_insert_ne by eauto. done.
Qed.

Lemma handle_linked now sid m s :
  wf s → linked s → linked (handle now sid m s).1.
Proof.
  intros Hwf Hlk. destruct m; simpl.
  - by apply on_join_room_linked.
  - unfold on_offer. destruct (users s !! sid); [|done].
    destruct route; [|done]. by apply linked_set_metrics.
  - unfold on_answer. destruct (users s !! sid); [|done].
    destruct route; [|done]. by apply linked_set_metrics.
  - unfold on_ice_candidate. destruct (users s !! sid); [|done].
    by destruct route.
  - done.
  - unfold on_connection_status. destruct (users s !! sid); [|done].
    destruct truthy; [|done]. by apply linked_set_metrics.
  - unfold on_media_state_change. destruct (users s !! sid); [|done].
    destruct truthy; [|done]. by apply linked_set_heap.
  - unfold on_audio_toggle. destruct (users s !! sid); [|done].
    destruct truthy; [|done]. by apply linked_set_heap.
  - unfold on_video_toggle. destruct (users s !! sid); [|done].
    destruct truthy; [|done]. by apply linked_set_heap.
  - unfold on_chat_message. destruct (users s !! sid); [|done].
    by case_decide.
  - by apply handleUserLeave_linked.
  - unfold on_disconnect.
    pose proof (handleUserLeave_linked now sid s Hlk) as Hlk'.
    destruct (handleUserLeave now sid s) as [s' acts] eqn:Hl. cbn [fst] in *.
    apply handleUserLeave_spec in Hl as (_ & _ & _ & Hu & _).
    destruct Hlk' as [L1 L2 L3]. split; simpl; [|done..].
    intros k r Hk. apply elem_of_difference. split; [by eapply L1|].
    intros ->%elem_of_singleton. by rewrite Hu, lookup_delete_eq in Hk.
  - done.
Qed.

Lemma reachable_linked s : reachable s → linked s.
Proof.
  induction 1 as [|s now ip sid Hr IH Hsid|s now sid m Hr IH _].
  - split; unfold init; simpl; intros *; by rewrite lookup_empty.
  - apply on_connection_linked; [by apply reachable_wf | done..].
  - apply handle_linked; [by apply reachable_wf | done].
Qed.

Lemma elem_of_members s rid sid :
  sid ∈ members s rid ↔
  ∃ room r, rooms s !! rid = Some room ∧ (sid, r) ∈ r_users room.
Proof.
  unfold members, JsMap.keys. split.
  - destruct (rooms s !! rid) as [room|]; [|by intros ?%elem_of_nil].
    intros ([k r] & -> & Hin)%list_elem_of_fmap. by exists room, r.
  - intros (room & r & -> & Hin). apply list_elem_of_fmap.
    by exists (sid, r).
Qed.

Lemma one_room_reachable : reachable one_room.
Proof.
  unfold one_room.
  repeat first [apply reach_handle | apply reach_connect | apply reach_init];
    by vm_compute.
Qed.

Lemma ghost_reachable : reachable ghost.
Proof.
  unfold ghost.
  repeat first [apply reach_handle | apply reach_connect | apply reach_init];
    by vm_compute.
Qed.

Lemma forwarded_iff now sid m t s :
  target_of m = Some t → forwarded now sid m s ↔ can_route s sid t.
Proof.
  intros Ht. unfold forwarded.
  assert (users s !! sid = None → ¬ can_route s sid t) as Hno.
  { intros Hu (? & ? & ? & _). congruence. }
  destruct m; try done; simpl in Ht; simplify_eq; simpl;
    [unfold on_offer | unfold on_answer | unfold on_ice_candidate];
    (destruct (users s !! sid) as [fr|] eqn:Hu; [|by split; [|intros ?%Hno]]);
    pose proof (route_Some s fr sid t Hu) as Hroute;
    (destruct (route s (deref s fr) t); simpl; split; [| done | done |]).
  all: try (intros _; apply Hroute; eauto).
  all: intros Hc; apply Hroute in Hc; by destruct Hc.
Qed.

Lemma handleUserLeave_gone now sid s :
  users (handleUserLeave now sid s).1 !! sid = None ∧
  connectionMetrics (handleUserLeave now sid s).1 !! sid = None.
Proof.
  split.
  - destruct (handleUserLeave now sid s) as [s' acts] eqn:Hl.
    apply handleUserLeave_spec in Hl as (_ & _ & _ & Hu & _).
    cbn [fst]. rewrite Hu. apply lookup_delete_eq.
  - unfold handleUserLeave.
    destruct (users s !! sid); [|apply lookup_delete_eq].
    destruct truthy; [|apply lookup_delete_eq].
    destruct (rooms s !! _); [|apply lookup_delete_eq].
    case_decide; apply lookup_delete_eq.
Qed.

Lemma on_join_room_users now sid roomId userName rta s k :
  users s !! k = None →
  users (on_join_room now sid roomId userName rta s).1 !! k = None.
Proof.
  intros Hk. destruct (users s !! sid) as [ur|] eqn:Hu; last first.
  { unfold on_join_room. by rewrite Hu. }
  rewrite (on_join_room_eq _ _ _ _ _ _ _ Hu). cbn [fst].
  destruct (join_switch_spec now sid roomId ur s Hu) as (_ & _ & _ & Hus & _).
  simpl. rewrite lookup_insert_ne by congruence.
  destruct Hus as [-> | ->]; [done|]. by apply lookup_delete_None; right.
Qed.

(** Only a new connection creates a user record. *)
Lemma handle_users_None now sid m s k :
  users s !! k = None → users (handle now sid m s).1 !! k = None.
Proof.
  intros Hk. destruct m; simpl.
  - by apply on_join_room_users.
  - unfold on_offer. destruct (users s !! sid); [|done]. by destruct route.
  - unfold on_answer. destruct (users s !! sid); [|done]. by destruct route.
  - unfold on_ice_candidate. destruct (users s !! sid); [|done].
    by destruct route.
  - done.
  - unfold on_connection_status. destruct (users s !! sid); [|done].
    by destruct truthy.
  - unfold on_media_state_change. destruct (users s !! sid); [|done].
    by destruct truthy.
  - unfold on_audio_toggle. destruct (users s !! sid); [|done].
    by destruct truthy.
  - unfold on_video_toggle. destruct (users s !! sid); [|done].
    by destruct truthy.
  - unfold on_chat_message. destruct (users s !! sid); [|done].
    by case_decide.
  - unfold on_leave_room.
    destruct (handleUserLeave now sid s) as [s' acts] eqn:Hl.
    apply handleUserLeave_spec in Hl as (_ & _ & _ & Hu & _). simpl.
    rewrite Hu. by apply lookup_delete_None; right.
  - unfold on_disconnect.
    destruct (handleUserLeave now sid s) as [s' acts] eqn:Hl.
    apply handleUserLeave_spec in Hl as (_ & _ & _ & Hu & _). simpl.
    rewrite Hu. by apply lookup_delete_None; right.
  - done.
Qed.

Lemma handle_all_users_None l s k :
  users s !! k = None → users (handle_all l s) !! k = None.
Proof.
  revert s. induction l as [|[[now sid] m] l IH]; intros s Hk; [done|].
  apply IH. by apply handle_users_None.
Qed.

(** A socket with neither a user record nor metrics changes nothing,
    whatever it sends, short of disconnecting. *)
Lemma handle_no_record now sid m s :
  users s !! sid = None → connectionMetrics s !! sid = None →
  m ≠ Disconnect → (handle now sid m s).1 = s.
Proof.
  intros Hu Hm Hne. destruct s as [h n u r cm so]. simpl in *.
  destruct m; try done; simpl;
    unfold on_join_room, on_offer, on_answer, on_ice_candidate,
      on_connection_status, on_media_state_change, on_audio_toggle,
      on_video_toggle, on_chat_message, on_leave_room, handleUserLeave;
    simpl; rewrite ?Hu; try done.
  simpl. unfold set_metrics, set_users. simpl. by rewrite !delete_id.
Qed.

(** What a socket without a user record is sent back: the error event
    for join-room, the configuration for get-webrtc-config and
    connection-test, and nothing for any other message. *)
Lemma handle_no_record_replies now sid m s :
  users s !! sid = None → m ≠ Disconnect →
  (handle now sid m s).2 =
    match m with
    | JoinRoom _ _ _ =>
        [Emit (ToSocket sid)
           (EvError "User data not initialized. Please refresh.")]
    | GetWebrtcConfig => [Emit (ToSocket sid) (EvWebrtcConfig getWebRTCConfig)]
    | ConnectionTest data =>
        [Emit (ToSocket sid)
           (EvConnectionTestResponse data now getWebRTCConfig)]
    | _ => []
    end.
Proof.
  intros Hu Hne.
  destruct m; try done; simpl;
    unfold on_join_room, on_offer, on_answer, on_ice_candidate,
      on_connection_status, on_media_state_change, on_audio_toggle,
      on_video_toggle, on_chat_message, on_leave_room, handleUserLeave;
    by rewrite Hu.
Qed.

(** ** Further properties of the relay *)

(** X1: in every state the relay can reach, room membership and the
    users' [roomId] fields agree.  A user whose [roomId] is set is a member
    of the room of that id; every member of a room whose id is not the
    empty string is a registered user whose [roomId] is that id; hence no
    socket is a member of two rooms with non-empty ids. *)
Theorem membership_matches_roomId s :
  reachable s →
  (∀ sid r rid,
     users s !! sid = Some r → u_roomId (deref s r) = Some rid →
     sid ∈ members s rid) ∧
  (∀ sid rid,
     rid ≠ "" → sid ∈ members s rid →
     ∃ r, users s !! sid = Some r ∧ u_roomId (deref s r) = Some rid) ∧
  (∀ sid rid1 rid2,
     rid1 ≠ "" → rid2 ≠ "" →
     sid ∈ members s rid1 → sid ∈ members s rid2 → rid1 = rid2).
Proof.
  intros Hr. destruct (reachable_linked s Hr) as [L1 L2 L3].
  assert (Hreg : ∀ sid rid, rid ≠ "" → sid ∈ members s rid →
    ∃ r, users s !! sid = Some r ∧ u_roomId (deref s r) = Some rid).
  { intros sid rid Hne (room & r & Hroom & Hin)%elem_of_members.
    exists r. by eapply L3. }
  split; [|split; [done|]].
  - intros sid r rid Hu Hrid. apply elem_of_members.
    destruct (L2 _ _ _ Hu Hrid) as (room & ? & ?). eauto.
  - intros sid rid1 rid2 H1 H2 Hm1 Hm2.
    destruct (Hreg _ _ H1 Hm1) as (r1 & Hu1 & Hr1).
    destruct (Hreg _ _ H2 Hm2) as (r2 & Hu2 & Hr2). congruence.
Qed.

Lemma membership_matches_roomId_witness :
  (∀ sid r rid,
     users two_rooms !! sid = Some r →
     u_roomId (deref two_rooms r) = Some rid →
     sid ∈ members two_rooms rid) ∧
  (∀ sid rid,
     rid ≠ "" → sid ∈ members two_rooms rid →
     ∃ r, users two_rooms !! sid = Some r ∧
          u_roomId (deref two_rooms r) = Some rid) ∧
  (∀ sid rid1 rid2,
     rid1 ≠ "" → rid2 ≠ "" →
     sid ∈ members two_rooms rid1 → sid ∈ members two_rooms rid2 →
     rid1 = rid2).
Proof. exact (membership_matches_roomId two_rooms two_rooms_reachable). Defined.

(** The room named by the empty string is the exception: Alice joined it
    and then room abc; she is still listed in both. *)
Remark empty_room_id_keeps_member :
  reachable ghost ∧
  members ghost "" = ["alice"] ∧ members ghost "abc" = ["alice"] ∧
  u_roomId (deref ghost 0) = Some "abc".
Proof. split; [apply ghost_reachable | by vm_compute]. Qed.

(** X2: routing is symmetric.  If, in a state the relay can reach, it
    forwards a negotiation message (offer, answer or ice-candidate) from
    [a] to [b], then in that state it forwards every negotiation message
    from [b] to [a]. *)
Theorem routing_symmetric now1 now2 a b m1 m2 s :
  reachable s → target_of m1 = Some b → target_of m2 = Some a →
  forwarded now1 a m1 s → forwarded now2 b m2 s.
Proof.
  intros Hr H1 H2. rewrite !forwarded_iff by done.
  intros (fr & tr & Hu & Hin & Ht & Heq). exists tr, fr.
  split; [done|]. split; [|done].
  eapply lk_live; [by apply reachable_linked | done].
Qed.

Lemma routing_symmetric_witness :
  forwarded 6 "bob" (Answer "sdp" "alice") one_room.
Proof.
  apply (routing_symmetric 5 6 "alice" "bob" (Offer "sdp" "bob"));
    [apply one_room_reachable | done | done | by vm_compute].
Defined.

(** X3: a negotiation message from a user whose [roomId] is set is only
    ever forwarded inside that room: when the relay forwards it, the sender
    and the addressee are both members of the room the sender is in. *)
Theorem forward_stays_in_room now sid m t s fr rid :
  reachable s →
  users s !! sid = Some fr → u_roomId (deref s fr) = Some rid →
  target_of m = Some t → forwarded now sid m s →
  sid ∈ members s rid ∧ t ∈ members s rid.
Proof.
  intros Hr Hu Hrid Ht. rewrite forwarded_iff by done.
  intros (fr' & tr & Hu' & Hin & Hut & Heq). simplify_eq.
  destruct (reachable_linked s Hr) as [_ L2 _].
  split; apply elem_of_members.
  - destruct (L2 _ _ _ Hu Hrid) as (room & ? & ?); eauto.
  - rewrite Hrid in Heq. symmetry in Heq.
    destruct (L2 _ _ _ Hut Heq) as (room & ? & ?); eauto.
Qed.

Lemma forward_stays_in_room_witness :
  "alice" ∈ members one_room "abc" ∧ "bob" ∈ members one_room "abc".
Proof.
  apply (forward_stays_in_room 5 "alice" (Offer "sdp" "bob") "bob" one_room 0);
    [apply one_room_reachable | by vm_compute..].
Defined.

(** X4: leave-room deletes the user record and nothing but a new
    connection creates one: after a socket has sent leave-room, every
    join-room it sends, whatever other messages the relay handles in
    between, is refused with the error event and changes nothing. *)
Theorem no_rejoin_after_leave now now' sid l roomId userName rt s :
  let s1 := handle_all l (handle now sid LeaveRoom s).1 in
  on_join_room now' sid roomId userName rt s1 =
    (s1, [Emit (ToSocket sid)
            (EvError "User data not initialized. Please refresh.")]).
Proof.
  cbv zeta.
  pose proof (handle_all_users_None l (handle now sid LeaveRoom s).1 sid)
    as Hnone.
  unfold on_join_room. rewrite Hnone; [done|].
  apply handleUserLeave_gone.
Qed.

(** X5: leaving is idempotent, and a socket that has left can no longer
    change the registry.  Once a socket has sent leave-room, a second
    leave-room emits nothing and leaves the registry as it is.  Every
    other message from that socket, short of disconnect, leaves the
    registry as it is too; it emits nothing, unless it is join-room, which
    is refused with the error event, get-webrtc-config or
    connection-test, which are answered as for any socket; these three
    replies go to the sender alone. *)
Theorem left_socket_is_inert now now' sid m s :
  m ≠ Disconnect →
  let s1 := (handle now sid LeaveRoom s).1 in
  handle now' sid LeaveRoom s1 = (s1, []) ∧
  (handle now' sid m s1).1 = s1 ∧
  (handle now' sid m s1).2 =
    match m with
    | JoinRoom _ _ _ =>
        [Emit (ToSocket sid)
           (EvError "User data not initialized. Please refresh.")]
    | GetWebrtcConfig => [Emit (ToSocket sid) (EvWebrtcConfig getWebRTCConfig)]
    | ConnectionTest data =>
        [Emit (ToSocket sid)
           (EvConnectionTestResponse data now' getWebRTCConfig)]
    | _ => []
    end.
Proof.
  intros Hne. cbv zeta.
  destruct (handleUserLeave_gone now sid s) as [Hu Hm].
  assert (handle now' sid LeaveRoom (handle now sid LeaveRoom s).1 =
            ((handle now sid LeaveRoom s).1, [])) as Hleave.
  { rewrite (surjective_pairing (handle now' sid LeaveRoom _)). f_equal.
    - by apply handle_no_record.
    - simpl. unfold on_leave_room at 1, handleUserLeave at 1.
      simpl in Hu. unfold on_leave_room. by rewrite Hu. }
  split; [exact Hleave|]. split; [by apply handle_no_record|].
  by apply handle_no_record_replies.
Qed.

Lemma left_socket_is_inert_witness :
  handle 5 "alice" LeaveRoom after_leave = (after_leave, []) ∧
  handle 5 "alice" (Offer "sdp" "bob") after_leave = (after_leave, []) ∧
  handle 5 "alice" (JoinRoom "abc" "Alice" None) after_leave =
    (after_leave,
     [Emit (ToSocket "alice")
        (EvError "User data not initialized. Please refresh.")]).
Proof.
  destruct (left_socket_is_inert 4 5 "alice" (Offer "sdp" "bob") two_rooms)
    as (H1 & H2 & H3); [done|].
  destruct (left_socket_is_inert 4 5 "alice" (JoinRoom "abc" "Alice" None)
              two_rooms) as (_ & H4 & H5); [done|].
  cbv zeta in *. fold after_leave in H1, H2, H3, H4, H5.
  split; [exact H1|]. split.
  - rewrite (surjective_pairing (handle _ _ _ _)). by rewrite H2, H3.
  - rewrite (surjective_pairing (handle _ _ _ _)). by rewrite H4, H5.
Defined.

Lemma handleUserLeave_metrics now sid s :
  connectionMetrics (handleUserLeave now sid s).1 =
    delete sid (connectionMetrics s).
Proof.
  unfold handleUserLeave.
  destruct (users s !! sid); [|done]. destruct truthy; [|done].
  destruct (rooms s !! _); [|done]. by case_decide.
Qed.

Lemma on_join_room_metrics now sid roomId userName rta s ur :
  users s !! sid = Some ur →
  connectionMetrics (on_join_room now sid roomId userName rta s).1 =
    connectionMetrics (join_switch now sid roomId ur s).1.
Proof. intros Hu. by rewrite (on_join_room_eq _ _ _ _ _ _ _ Hu). Qed.

(** Only a new connection creates metrics. *)
Lemma handle_metrics_None now sid m s k :
  connectionMetrics s !! k = None →
  connectionMetrics (handle now sid m s).1 !! k = None.
Proof.
  intros Hk. destruct m; simpl.
  - destruct (users s !! sid) as [ur|] eqn:Hu; last first.
    { unfold on_join_room. by rewrite Hu. }
    rewrite (on_join_room_metrics _ _ _ _ _ _ _ Hu). unfold join_switch.
    destruct (truthy _ && _); cbn [fst]; [|done].
    rewrite handleUserLeave_metrics. by apply lookup_delete_None; right.
  - unfold on_offer. destruct (users s !! sid); [|done].
    destruct route; [|done]. simpl. by apply lookup_alter_None.
  - unfold on_answer. destruct (users s !! sid); [|done].
    destruct route; [|done]. simpl. by apply lookup_alter_None.
  - unfold on_ice_candidate. destruct (users s !! sid); [|done].
    by destruct route.
  - done.
  - unfold on_connection_status. destruct (users s !! sid); [|done].
    destruct truthy; [|done]. simpl. by apply lookup_alter_None.
  - unfold on_media_state_change. destruct (users s !! sid); [|done].
    by destruct truthy.
  - unfold on_audio_toggle. destruct (users s !! sid); [|done].
    by destruct truthy.
  - unfold on_video_toggle. destruct (users s !! sid); [|done].
    by destruct truthy.
  - unfold on_chat_message. destruct (users s !! sid); [|done].
    by case_decide.
  - unfold on_leave_room. rewrite handleUserLeave_metrics.
    by apply lookup_delete_None; right.
  - unfold on_disconnect.
    pose proof (handleUserLeave_metrics now sid s) as Hm.
    destruct (handleUserLeave now sid s) as [s' acts]. simpl in *.
    rewrite Hm. by apply lookup_delete_None; right.
  - done.
Qed.

Lemma handle_all_metrics_None l s k :
  connectionMetrics s !! k = None →
  connectionMetrics (handle_all l s) !! k = None.
Proof.
  revert s. induction l as [|[[now sid] m] l IH]; intros s Hk; [done|].
  apply IH. by apply handle_metrics_None.
Qed.

(** X6: switching rooms loses the connection metrics.  When a user that
    is in a room joins another one, [handleUserLeave] deletes its metrics
    and nothing puts them back: the user keeps its record and is in the new
    room, but whatever the relay handles afterwards it has no metrics entry,
    so its offers and status reports are no longer counted. *)
Theorem room_switch_drops_metrics now sid roomId userName rt s ur old l :
  users s !! sid = Some ur → u_roomId (deref s ur) = Some old →
  old ≠ "" → old ≠ roomId →
  let s1 := (handle now sid (JoinRoom roomId userName rt) s).1 in
  users s1 !! sid = Some ur ∧
  u_roomId (deref s1 ur) = Some roomId ∧
  sid ∈ members s1 roomId ∧
  connectionMetrics (handle_all l s1) !! sid = None.
Proof.
  intros Hu Hold Hne Hne'. cbv zeta. simpl.
  split; [|split; [|split]].
  - rewrite (on_join_room_eq _ _ _ _ _ _ _ Hu). simpl.
    by rewrite lookup_insert_eq.
  - rewrite (on_join_room_eq _ _ _ _ _ _ _ Hu). unfold deref. simpl.
    by rewrite lookup_total_insert_eq.
  - rewrite (on_join_room_eq _ _ _ _ _ _ _ Hu). unfold members. simpl.
    rewrite lookup_insert_eq. simpl. apply elem_of_keys_set.
  - apply handle_all_metrics_None.
    rewrite (on_join_room_metrics _ _ _ _ _ _ _ Hu). unfold join_switch.
    rewrite Hold. simpl.
    rewrite !bool_decide_eq_true_2 by congruence. cbn [andb fst].
    rewrite handleUserLeave_metrics. apply lookup_delete_eq.
Qed.

Lemma room_switch_drops_metrics_witness :
  let s1 := (handle 5 "alice" (JoinRoom "xyz" "Alice" None) two_rooms).1 in
  users s1 !! "alice" = Some 0 ∧
  u_roomId (deref s1 0) = Some "xyz" ∧
  "alice" ∈ members s1 "xyz" ∧
  connectionMetrics
    (handle_all [(6, "alice", Offer "sdp" "bob")] s1) !! "alice" = None.
Proof.
  by apply (room_switch_drops_metrics 5 "alice" "xyz" "Alice" None two_rooms
              0 "abc").
Defined.

(** What a message other than join-room, leave-room and disconnect does
    to the object of a user that is in a room. *)
Lemma handle_flags now a m s ra rid :
  users s !! a = Some ra → u_roomId (deref s ra) = Some rid → rid ≠ "" →
  (∀ r u t, m ≠ JoinRoom r u t) → m ≠ LeaveRoom → m ≠ Disconnect →
  let s1 := (handle now a m s).1 in
  users s1 = users s ∧ rooms s1 = rooms s ∧
  (∀ r, r ≠ ra → deref s1 r = deref s r) ∧
  user_info (deref s1 ra) =
    mkUserInfo (u_id (deref s ra)) (u_name (deref s ra))
      (flags_after m (deref s ra)).1 (flags_after m (deref s ra)).2.
Proof.
  intros Hu Hrid Hne Hj Hl Hd. cbv zeta.
  assert (truthy (u_roomId (deref s ra)) = true) as Ht.
  { rewrite Hrid. simpl. by apply bool_decide_eq_true_2. }
  destruct m; try done; simpl.
  - by destruct (Hj roomId userName roomType).
  - unfold on_offer. rewrite Hu. by destruct route.
  - unfold on_answer. rewrite Hu. by destruct route.
  - unfold on_ice_candidate. rewrite Hu. by destruct route.
  - unfold on_connection_status. by rewrite Hu, Ht.
  - unfold on_media_state_change. rewrite Hu, Ht. unfold deref. simpl.
    rewrite lookup_total_insert_eq. split_and!; try done.
    intros r ?. by rewrite lookup_total_insert_ne.
  - unfold on_audio_toggle. rewrite Hu, Ht. unfold deref. simpl.
    rewrite lookup_total_insert_eq. split_and!; try done.
    intros r ?. by rewrite lookup_total_insert_ne.
  - unfold on_video_toggle. rewrite Hu, Ht. unfold deref. simpl.
    rewrite lookup_total_insert_eq. split_and!; try done.
    intros r ?. by rewrite lookup_total_insert_ne.
  - unfold on_chat_message. rewrite Hu. by case_decide.
Qed.

(** The joined-room reply lists every other member with the fields its
    object has at that moment. *)
Lemma join_reply_contains now b rid userName rt s a ra rb room :
  wf s → users s !! b = Some rb →
  rooms s !! rid = Some room → (a, ra) ∈ r_users room → a ≠ b →
  ∃ rtype existing,
    Emit (ToSocket b)
      (EvJoinedRoom rid b (Some userName) rtype existing getWebRTCConfig)
      ∈ (on_join_room now b rid userName rt s).2 ∧
    user_info (deref s ra) ∈ existing.
Proof.
  intros [Hus Hrs _] Hb Hroom Hin Hab.
  rewrite (on_join_room_eq _ _ _ _ _ _ _ Hb). cbn [snd].
  destruct (join_switch_spec now b rid rb s Hb) as (Hh & _ & _ & _ & Hrid & _).
  rewrite Hrid, Hroom. simpl.
  eexists _, _. split.
  { apply elem_of_app. right. right. left. }
  destruct (Hrs _ _ _ _ Hroom Hin) as [_ Hida].
  destruct (Hus _ _ Hb) as [_ Hidb].
  assert (ra ≠ rb) as Hne by congruence.
  unfold existingUsersInRoom. apply list_elem_of_fmap.
  exists (deref s ra). split; [done|].
  apply list_elem_of_filter. split; [congruence|].
  apply list_elem_of_fmap. exists ra. split.
  - unfold deref. simpl. rewrite Hh. by rewrite lookup_total_insert_ne.
  - unfold JsMap.values. apply list_elem_of_fmap. by exists (a, ra).
Qed.

(** X7: the flags a user announces are seen by those who join later.
    [media-state-change], [audio-toggle] and [video-toggle] write to the
    user object that the room's member map shares with [users]; so when
    another registered socket then joins that room, its joined-room reply
    lists the user with the flags of its last announcement (and any other
    message leaves them as they were). *)
Theorem flags_reach_later_joiner now now' a b m rid userName rt s ra :
  reachable s →
  users s !! a = Some ra → u_roomId (deref s ra) = Some rid → rid ≠ "" →
  is_Some (users s !! b) → b ≠ a →
  (∀ r u t, m ≠ JoinRoom r u t) → m ≠ LeaveRoom → m ≠ Disconnect →
  let s1 := (handle now a m s).1 in
  ∃ rtype existing,
    Emit (ToSocket b)
      (EvJoinedRoom rid b (Some userName) rtype existing getWebRTCConfig)
      ∈ (handle now' b (JoinRoom rid userName rt) s1).2 ∧
    mkUserInfo a (u_name (deref s ra))
      (flags_after m (deref s ra)).1 (flags_after m (deref s ra)).2
      ∈ existing.
Proof.
  intros Hr Hu Hrid Hne [rb Hb] Hba Hj Hl Hd. cbv zeta.
  destruct (reachable_linked s Hr) as [L1 L2 _].
  destruct (reachable_wf s Hr) as [Hus _ _].
  destruct (Hus _ _ Hu) as [_ Hid].
  destruct (L2 _ _ _ Hu Hrid) as (room & Hroom & Hin).
  assert (reachable (handle now a m s).1) as Hr1.
  { apply reach_handle; [done | by eapply L1]. }
  destruct (handle_flags now a m s ra rid Hu Hrid Hne Hj Hl Hd)
    as (Hus1 & Hrs1 & _ & Hinfo).
  rewrite Hid in Hinfo. rewrite <-Hinfo. simpl.
  apply (join_reply_contains _ _ _ _ _ _ a ra rb room);
    [by apply reachable_wf | by rewrite Hus1 | by rewrite Hrs1 | done
    | congruence].
Qed.

Lemma flags_reach_later_joiner_witness :
  ∃ rtype existing,
    Emit (ToSocket "bob")
      (EvJoinedRoom "abc" "bob" (Some "Bob") rtype existing getWebRTCConfig)
      ∈ (handle 6 "bob" (JoinRoom "abc" "Bob" None)
           (handle 5 "alice" (MediaStateChange false true true)
              two_rooms).1).2 ∧
    mkUserInfo "alice" (Some "Alice") false true ∈ existing.
Proof.
  apply (flags_reach_later_joiner 5 6 "alice" "bob"
           (MediaStateChange false true true) "abc" "Bob" None two_rooms 0);
    [apply two_rooms_reachable | by vm_compute | by vm_compute | done
    | by exists 1 | done..].
Defined.



Lemma handleUserLeave_room_fields now sid s rid room' :
  rooms (handleUserLeave now sid s).1 !! rid = Some room' →
  ∃ room, rooms s !! rid = Some room ∧
    r_id room' = r_id room ∧ r_createdAt room' = r_createdAt room ∧
    r_roomType room' = r_roomType room.
Proof.
  unfold handleUserLeave.
  destruct (users s !! sid); [|simpl; eauto 10].
  destruct truthy; [|simpl; eauto 10].
  destruct (rooms s !! default "" _) as [room|] eqn:Hroom; [|simpl; eauto 10].
  case_decide; simpl.
  - intros [_ ?]%lookup_delete_Some. eauto 10.
  - intros [[<- <-]|[_ ?]]%lookup_insert_Some; eauto 10.
Qed.

Lemma handle_room_fields now sid m s rid room room' :
  rooms s !! rid = Some room →
  rooms (handle now sid m s).1 !! rid = Some room' →
  r_id room' = r_id room ∧ r_createdAt room' = r_createdAt room ∧
  r_roomType room' = r_roomType room.
Proof.
  intros Hroom.
  assert (∀ s', rooms s' = rooms s → rooms s' !! rid = Some room' →
    r_id room' = r_id room ∧ r_createdAt room' = r_createdAt room ∧
    r_roomType room' = r_roomType room) as Hsame.
  { intros s' ->. rewrite Hroom. by intros [= <-]. }
  assert (rooms (handleUserLeave now sid s).1 !! rid = Some room' →
    r_id room' = r_id room ∧ r_createdAt room' = r_createdAt room ∧
    r_roomType room' = r_roomType room) as Hleave.
  { intros (room0 & Hr0 & ?)%handleUserLeave_room_fields. by simplify_eq. }
  destruct m;
    try (apply Hsame; by apply handle_rooms_other).
  - simpl. destruct (users s !! sid) as [ur|] eqn:Hu; last first.
    { apply Hsame. unfold on_join_room. by rewrite Hu. }
    rewrite (on_join_room_eq _ _ _ _ _ _ _ Hu). simpl.
    destruct (join_switch_spec now sid roomId ur s Hu)
      as (_ & _ & _ & _ & Hrid & _).
    rewrite lookup_insert_Some. intros [[<- <-]|[Hne Hl]].
    + rewrite Hrid, Hroom. done.
    + revert Hl. unfold join_switch.
      destruct (truthy _ && _); cbn [fst]; [done|].
      rewrite Hroom. by intros [= <-].
  - done.
  - simpl. by rewrite on_disconnect_rooms.
Qed.

(** X9: a room keeps the identity it was created with.  In every state
    the relay can reach a room is stored under its own id, and no message
    changes the id, the creation time or the type of a room that exists:
    the type is set by the first join and later joiners cannot change
    it. *)
Theorem room_identity_fixed now sid m s rid room :
  reachable s → rooms s !! rid = Some room →
  r_id room = rid ∧
  ∀ room', rooms (handle now sid m s).1 !! rid = Some room' →
    r_id room' = rid ∧ r_createdAt room' = r_createdAt room ∧
    r_roomType room' = r_roomType room.
Proof.
  intros Hr Hroom.
  assert (r_id room = rid) as Hid.
  { clear now sid m. revert rid room Hroom.
    induction Hr as [|s now ip sid _ IH _|s now sid m _ IH _];
      intros rid room.
    - unfold init. simpl. by rewrite lookup_empty.
    - apply IH.
    - destruct (rooms s !! rid) as [room0|] eqn:Hroom0.
      + intros Hroom. destruct (handle_room_fields _ _ _ _ _ _ _ Hroom0 Hroom)
          as (-> & _). by apply IH.
      + destruct m;
          try (rewrite handle_rooms_other by done; congruence).
        * simpl. destruct (users s !! sid) as [ur|] eqn:Hu; last first.
          { unfold on_join_room. rewrite Hu. simpl. congruence. }
          rewrite (on_join_room_eq _ _ _ _ _ _ _ Hu). simpl.
          destruct (join_switch_spec now sid roomId ur s Hu)
            as (_ & _ & _ & _ & Hrid & Hold).
          rewrite lookup_insert_Some. intros [[<- <-]|[Hne Hl]].
          -- rewrite Hrid, Hroom0. done.
          -- destruct (Hold _ _ Hl) as (? & ? & _). congruence.
        * simpl. intros (? & ? & _)%handleUserLeave_room_fields. congruence.
        * simpl. rewrite on_disconnect_rooms.
          intros (? & ? & _)%handleUserLeave_room_fields. congruence. }
  split; [done|]. intros room' Hroom'.
  destruct (handle_room_fields _ _ _ _ _ _ _ Hroom Hroom') as (? & ? & ?).
  split; [congruence | done].
Qed.

Lemma room_identity_fixed_witness :
  rooms two_rooms !! "abc" = Some (mkRoom "abc" [("alice", 0)] 2 "video") ∧
  ∀ room',
    rooms (handle 5 "bob" (JoinRoom "abc" "Bob" (Some "audio")) two_rooms).1
      !! "abc" = Some room' →
    r_id room' = "abc" ∧ r_createdAt room' = 2 ∧ r_roomType room' = "video".
Proof.
  split; [by vm_compute|].
  destruct (room_identity_fixed 5 "bob" (JoinRoom "abc" "Bob" (Some "audio"))
              two_rooms "abc" (mkRoom "abc" [("alice", 0)] 2 "video")
              two_rooms_reachable)
    as [_ H]; [by vm_compute | exact H].
Defined.

(** One step of the metrics of a socket: the counters do not go down. *)
Lemma handle_metrics_step now sid m s k mt' :
  connectionMetrics (handle now sid m s).1 !! k = Some mt' →
  ∃ mt, connectionMetrics s !! k = Some mt ∧
    m_connectTime mt' = m_connectTime mt ∧
    m_reconnectCount mt' = m_reconnectCount mt ∧
    (m_iceFailures mt ≤ m_iceFailures mt')%nat ∧
    (m_successfulConnections mt ≤ m_successfulConnections mt')%nat.
Proof.
  assert (∀ s', connectionMetrics s' = connectionMetrics s →
    connectionMetrics s' !! k = Some mt' →
    ∃ mt, connectionMetrics s !! k = Some mt ∧
      m_connectTime mt' = m_connectTime mt ∧
      m_reconnectCount mt' = m_reconnectCount mt ∧
      (m_iceFailures mt ≤ m_iceFailures mt')%nat ∧
      (m_successfulConnections mt ≤ m_successfulConnections mt')%nat) as Hsame.
  { intros s' -> Hk. exists mt'. by split_and!. }
  assert (∀ f k0,
    (∀ x, m_connectTime (f x) = m_connectTime x ∧
          m_reconnectCount (f x) = m_reconnectCount x ∧
          (m_iceFailures x ≤ m_iceFailures (f x))%nat ∧
          (m_successfulConnections x ≤ m_successfulConnections (f x))%nat) →
    alter f k0 (connectionMetrics s) !! k = Some mt' →
    ∃ mt, connectionMetrics s !! k = Some mt ∧
      m_connectTime mt' = m_connectTime mt ∧
      m_reconnectCount mt' = m_reconnectCount mt ∧
      (m_iceFailures mt ≤ m_iceFailures mt')%nat ∧
      (m_successfulConnections mt ≤ m_successfulConnections mt')%nat) as Halter.
  { intros f k0 Hf. rewrite lookup_alter_Some.
    intros [(-> & x & Hx & ->)|[_ Hk]].
    - exists x. split; [done|]. apply Hf.
    - exists mt'. by split_and!. }
  assert (delete sid (connectionMetrics s) !! k = Some mt' →
    ∃ mt, connectionMetrics s !! k = Some mt ∧
      m_connectTime mt' = m_connectTime mt ∧
      m_reconnectCount mt' = m_reconnectCount mt ∧
      (m_iceFailures mt ≤ m_iceFailures mt')%nat ∧
      (m_successfulConnections mt ≤ m_successfulConnections mt')%nat) as Hdel.
  { intros [_ Hk]%lookup_delete_Some. exists mt'. by split_and!. }
  destruct m; simpl.
  - destruct (users s !! sid) as [ur|] eqn:Hu; last first.
    { apply Hsame. unfold on_join_room. by rewrite Hu. }
    rewrite (on_join_room_metrics _ _ _ _ _ _ _ Hu). unfold join_switch.
    destruct (truthy _ && _); cbn [fst]; [|by apply Hsame].
    by rewrite handleUserLeave_metrics.
  - unfold on_offer. destruct (users s !! sid); [|by apply Hsame].
    destruct route; [|by apply Hsame]. simpl. apply Halter.
    intros x. simpl. split_and!; done.
  - unfold on_answer. destruct (users s !! sid); [|by apply Hsame].
    destruct route; [|by apply Hsame]. simpl. apply Halter.
    intros x. unfold complete_offer. case_decide; simpl; split_and!; lia.
  - unfold on_ice_candidate. destruct (users s !! sid); [|by apply Hsame].
    destruct route; by apply Hsame.
  - by apply Hsame.
  - unfold on_connection_status. destruct (users s !! sid); [|by apply Hsame].
    destruct truthy; [|by apply Hsame]. simpl. apply Halter.
    intros x. unfold record_status. simpl.
    split_and!; try done; repeat case_decide; lia.
  - unfold on_media_state_change. destruct (users s !! sid); [|by apply Hsame].
    destruct truthy; by apply Hsame.
  - unfold on_audio_toggle. destruct (users s !! sid); [|by apply Hsame].
    destruct truthy; by apply Hsame.
  - unfold on_video_toggle. destruct (users s !! sid); [|by apply Hsame].
    destruct truthy; by apply Hsame.
  - unfold on_chat_message. destruct (users s !! sid); [|by apply Hsame].
    case_decide; by apply Hsame.
  - unfold on_leave_room. by rewrite handleUserLeave_metrics.
  - unfold on_disconnect.
    pose proof (handleUserLeave_metrics now sid s) as Hm.
    destruct (handleUserLeave now sid s) as [s' acts]. simpl in *.
    by rewrite Hm.
  - by apply Hsame.
Qed.

(** X19: the metrics of a socket only count upwards.  Over any run of
    messages, a socket that still has its metrics entry has the connect
    time and the reconnect count it started with, and its counts of ICE
    failures and of successful connections are at least what they were:
    a status report of failed adds one failure, one of connected adds one
    success, an answer to a pending offer adds one success, and nothing
    subtracts. *)
Theorem metrics_only_count_up l s k mt' :
  connectionMetrics (handle_all l s) !! k = Some mt' →
  ∃ mt, connectionMetrics s !! k = Some mt ∧
    m_connectTime mt' = m_connectTime mt ∧
    m_reconnectCount mt' = m_reconnectCount mt ∧
    (m_iceFailures mt ≤ m_iceFailures mt')%nat ∧
    (m_successfulConnections mt ≤ m_successfulConnections mt')%nat.
Proof.
  revert s. induction l as [|[[now sid] m] l IH]; intros s Hk.
  { exists mt'. by split_and!. }
  destruct (IH _ Hk) as (mt1 & Hk1 & H1 & H2 & H3 & H4).
  destruct (handle_metrics_step _ _ _ _ _ _ Hk1) as (mt & Hk0 & G1 & G2 & G3 & G4).
  exists mt. split; [done|]. split_and!; [congruence | congruence | lia | lia].
Qed.

Lemma metrics_only_count_up_witness :
  ∃ mt, connectionMetrics one_room !! "alice" = Some mt ∧
    m_connectTime (mkMetrics 0 7 0 1 2 1) = m_connectTime mt ∧
    m_reconnectCount (mkMetrics 0 7 0 1 2 1) = m_reconnectCount mt ∧
    (m_iceFailures mt ≤ m_iceFailures (mkMetrics 0 7 0 1 2 1))%nat ∧
    (m_successfulConnections mt ≤
      m_successfulConnections (mkMetrics 0 7 0 1 2 1))%nat.
Proof.
  apply (metrics_only_count_up
           [(4, "alice", Offer "o" "bob"); (5, "bob", Answer "a" "alice");
            (6, "alice", ConnectionStatus "bob" "failed");
            (7, "alice", ConnectionStatus "bob" "connected");
            (8, "alice", Offer "o2" "bob")] one_room "alice").
  by vm_compute.
Defined.

End RelayFacts.

(** * The engine: closing, queueing, stream updates, restarts *)

Module EngineFacts.
Import Engine.

(** ** Closing a session *)

Lemma clearTimeout_not_pending tid s : tid ∉ (timers (clearTimeout tid s)).*1.
Proof.
  unfold clearTimeout. simpl. intros Hin.
  apply list_elem_of_fmap in Hin as ([tid' tm] & -> & Hin).
  by apply list_elem_of_filter in Hin as [Hne _].
Qed.

Lemma clearTimeout_subset tid s e :
  e ∈ timers (clearTimeout tid s) → e ∈ timers s.
Proof. unfold clearTimeout. simpl. by intros [_ ?]%list_elem_of_filter. Qed.

Lemma clear_tracked_timeout_spec key s :
  let s' := clear_tracked_timeout key s in
  connectionTimeouts s' = delete key (connectionTimeouts s) ∧
  (∀ tid, connectionTimeouts s !! key = Some tid → tid ∉ (timers s').*1) ∧
  (∀ e, e ∈ timers s' → e ∈ timers s).
Proof.
  unfold clear_tracked_timeout.
  destruct (connectionTimeouts s !! key) as [tid|] eqn:Hk; simpl.
  - split_and!; [done | | ].
    + intros ? [= <-]. apply (clearTimeout_not_pending tid s).
    + apply clearTimeout_subset.
  - split_and!; [| done | done]. by rewrite delete_id.
Qed.

Lemma closePeerConnection_absent p s :
  peerConnections s !! p = None → closePeerConnection p s = (false, s).
Proof. intros H. unfold closePeerConnection. by rewrite H. Qed.

Lemma closePeerConnection_removes p s :
  peerConnections (closePeerConnection p s).2 !! p = None.
Proof.
  unfold closePeerConnection.
  destruct (peerConnections s !! p) as [r|] eqn:Hp; [|done].
  simpl. by rewrite lookup_delete_eq.
Qed.

(** C8: closing a peer id twice in a row leaves the whole engine state as
    one close leaves it (the second call finds no connection and returns
    false); and one close of a session, that is of a peer that has a
    connection, closes that connection and leaves no entry for the peer in
    [peerConnections], the candidate queue, the remote-stream cache, the
    tracked timers (whose pending timeouts are cancelled), [remotePeers],
    [remoteStreams] and [connectionStatus], all in the one synchronous
    call.  For a peer without a connection the call changes nothing: it is
    all or nothing. *)
Theorem closePeerConnection_idempotent p s :
  let s' := (closePeerConnection p s).2 in
  closePeerConnection p s' = (false, s') ∧
  (peerConnections s !! p = None → closePeerConnection p s = (false, s)) ∧
  ∀ r, peerConnections s !! p = Some r →
    (closePeerConnection p s).1 = true ∧
    pcs s' !! r = close_pc <$> pcs s !! r ∧
    peerConnections s' !! p = None ∧
    iceCandidatesQueue s' !! p = None ∧
    remoteStreamsRef s' !! p = None ∧
    connectionTimeouts s' !! p = None ∧
    connectionTimeouts s' !! (p +:+ "_ice") = None ∧
    (∀ key tid, key = p ∨ key = p +:+ "_ice" →
       connectionTimeouts s !! key = Some tid → tid ∉ (timers s').*1) ∧
    remotePeers s' !! p = None ∧
    remoteStreams s' !! p = None ∧
    connectionStatus s' !! p = None.
Proof.
  cbv zeta. split; [|split].
  { apply closePeerConnection_absent, closePeerConnection_removes. }
  { apply closePeerConnection_absent. }
  intros r Hp.
  unfold closePeerConnection. rewrite Hp. simpl.
  destruct (clear_tracked_timeout_spec p s) as (Hc1 & Ht1 & Hs1).
  destruct (clear_tracked_timeout_spec (p +:+ "_ice")
              (clear_tracked_timeout p s)) as (Hc2 & Ht2 & Hs2).
  cbv zeta in *.
  assert (Hpcs : ∀ key s0, pcs (clear_tracked_timeout key s0) = pcs s0).
  { intros key s0. unfold clear_tracked_timeout.
    by destruct (connectionTimeouts s0 !! key). }
  split_and!; try done; rewrite ?lookup_delete_eq; try done.
  - by rewrite lookup_alter_eq, !Hpcs.
  - rewrite Hc2, Hc1. destruct (decide (p +:+ "_ice" = p)) as [->|Hne].
    + by rewrite lookup_delete_eq.
    + by rewrite lookup_delete_ne, lookup_delete_eq.
  - by rewrite Hc2, lookup_delete_eq.
  - intros key tid [-> | ->] Hk.
    + intros Hin. apply (Ht1 tid Hk).
      apply list_elem_of_fmap in Hin as (e & -> & Hin).
      apply list_elem_of_fmap. exists e. split; [done|]. by apply Hs2.
    + destruct (decide (p +:+ "_ice" = p)) as [Heq|Hne].
      * rewrite Heq in Hk. intros Hin. apply (Ht1 tid Hk).
        apply list_elem_of_fmap in Hin as (e & -> & Hin).
        apply list_elem_of_fmap. exists e. split; [done|]. by apply Hs2.
      * apply Ht2. by rewrite Hc1, lookup_delete_ne.
Qed.

Lemma closePeerConnection_idempotent_witness :
  let s' := (closePeerConnection "bob" offered_bob).2 in
  closePeerConnection "bob" s' = (false, s') ∧
  iceCandidatesQueue offered_bob !! "bob" = Some ["c1"; "bad"; "c2"] ∧
  connectionTimeouts offered_bob !! "bob" = Some 1%positive ∧
  connectionTimeouts offered_bob !! "bob_ice" = Some 2%positive ∧
  iceCandidatesQueue s' !! "bob" = None ∧
  connectionTimeouts s' !! "bob" = None ∧
  timers s' = [].
Proof.
  destruct (closePeerConnection_idempotent "bob" offered_bob)
    as (Hidem & _ & Hgone).
  destruct (Hgone 0 eq_refl) as (_ & _ & _ & Hq & _ & Ht & _).
  split; [exact Hidem|].
  split_and!; [by vm_compute | by vm_compute | by vm_compute
              | exact Hq | exact Ht | by vm_compute].
Defined.

(** ** The offer listener *)

Lemma close_if_any key s :
  (if hasPeerConnection key s then (closePeerConnection key s).2 else s) =
  (closePeerConnection key s).2.
Proof.
  unfold hasPeerConnection, closePeerConnection.
  destruct (peerConnections s !! key) eqn:Hk.
  - by rewrite bool_decide_eq_true_2 by eauto.
  - rewrite bool_decide_eq_false_2; [done|]. by intros [? ?].
Qed.

Lemma clear_tracked_timeout_other key s :
  let s' := clear_tracked_timeout key s in
  pcs s' = pcs s ∧ peerConnections s' = peerConnections s ∧
  iceCandidatesQueue s' = iceCandidatesQueue s ∧
  applied s' = applied s ∧ restartIceCalls s' = restartIceCalls s ∧
  outbox s' = outbox s ∧ participants s' = participants s ∧
  isConnected s' = isConnected s.
Proof.
  unfold clear_tracked_timeout. by destruct (connectionTimeouts s !! key).
Qed.

Lemma closePeerConnection_outbox p s :
  outbox (closePeerConnection p s).2 = outbox s ∧
  participants (closePeerConnection p s).2 = participants s.
Proof.
  unfold closePeerConnection. destruct (peerConnections s !! p); [|done].
  simpl.
  destruct (clear_tracked_timeout_other (p +:+ "_ice")
              (clear_tracked_timeout p s)) as (_&_&_&_&_& -> & -> &_).
  by destruct (clear_tracked_timeout_other p s) as (_&_&_&_&_& -> & -> &_).
Qed.

(** C5, on the code: an offer from [fromUserId] makes the listener close
    the session it has for that peer, if any, and then call itself; the
    inner calls close whatever session is stored under the key undefined
    and end on a caught TypeError.  The hook's [handleOffer] is never
    reached: no connection is built for the peer and nothing is emitted,
    so no answer goes back to the offerer.  Three levels of calls are all
    there is. *)
Theorem listener_handleOffer_sends_no_answer n offer fromUserId fromUserName s :
  let s' := (closePeerConnection "undefined"
               (closePeerConnection fromUserId s).2).2 in
  listener_handleOffer (3 + n) (ArgOffer offer fromUserId fromUserName) s =
    Some (Resolved None, s') ∧
  outbox s' = outbox s ∧
  participants s' = participants s ∧
  peerConnections s' !! fromUserId = None.
Proof.
  cbv zeta. split_and!.
  - simpl. by rewrite !close_if_any.
  - destruct (closePeerConnection_outbox "undefined"
                (closePeerConnection fromUserId s).2) as [-> _].
    by destruct (closePeerConnection_outbox fromUserId s) as [-> _].
  - destruct (closePeerConnection_outbox "undefined"
                (closePeerConnection fromUserId s).2) as [_ ->].
    by destruct (closePeerConnection_outbox fromUserId s) as [_ ->].
  - pose proof (closePeerConnection_removes fromUserId s) as Hgone.
    set (s1 := (closePeerConnection fromUserId s).2) in *.
    unfold closePeerConnection.
    destruct (peerConnections s1 !! "undefined") eqn:Hu; [|done].
    simpl. apply lookup_delete_None. right.
    destruct (clear_tracked_timeout_other ("undefined" +:+ "_ice")
                (clear_tracked_timeout "undefined" s1)) as (_& -> &_).
    by destruct (clear_tracked_timeout_other "undefined" s1) as (_& -> &_).
Qed.

(** An answer from the relay never reaches the hook's [handleAnswer]: the
    listener calls itself and ends on a TypeError, the state untouched. *)
Lemma listener_handleAnswer_throws n answer fromUserId fromUserName s :
  listener_handleAnswer (3 + n) (ArgAnswer answer fromUserId fromUserName) s =
    Some (Threw, s).
Proof. done. Qed.

(** ** Queued candidates *)

Section queue.
Variable B : Browser.

Lemma addIceCandidate_queues p c s :
  no_remote s p →
  addIceCandidate B p c s =
    (false,
     set_iceCandidatesQueue
       (<[p := queue_of s p ++ [c]]> (iceCandidatesQueue s)) s).
Proof.
  intros Hno. unfold addIceCandidate, no_remote in *.
  destruct (peerConnections s !! p) as [r|]; [|done].
  rewrite (Hno r eq_refl). rewrite bool_decide_eq_false_2; [done|].
  by intros [? ?].
Qed.

Lemma run_cons i trace s : run B (i :: trace) s = run B trace (step B i s).
Proof. done. Qed.




Lemma pc_of_lookup s r pc : pcs s !! r = Some pc → pc_of s r = pc.
Proof. intros H. unfold pc_of. by rewrite (lookup_total_correct _ _ _ H). Qed.




Lemma set_pcs_id s : set_pcs (pcs s) s = s.
Proof. by destruct s. Qed.

Lemma add_local_tracks_cons r t ts s :
  add_local_tracks r (t :: ts) s =
    add_local_tracks r ts
      (match pc_addTrack t (pc_of s r) with
       | Some pc' => set_pcs (<[r := pc']> (pcs s)) s
       | None => s
       end).
Proof. done. Qed.

Lemma add_local_tracks_spec r ts s pc :
  pcs s !! r = Some pc →
  ∃ l, add_local_tracks r ts s = set_pcs (<[r := with_senders l pc]> (pcs s)) s.
Proof.
  revert s pc. induction ts as [|t ts IH]; intros s pc Hr.
  { exists (pc_senders pc). unfold add_local_tracks. simpl.
    destruct pc. simpl. by rewrite insert_id, set_pcs_id. }
  rewrite add_local_tracks_cons, (pc_of_lookup _ _ _ Hr).
  unfold pc_addTrack. destruct (pc_closed pc); [by apply IH|].
  case_decide; [by apply IH|].
  edestruct (IH (set_pcs (<[r := with_senders (pc_senders pc ++ [Some t]) pc]>
                            (pcs s)) s)) as [l ->].
  { simpl. apply lookup_insert_eq. }
  exists l. unfold set_pcs. simpl. by rewrite insert_insert_eq.
Qed.

Lemma createPeerConnection_fresh p ls cb s :
  supported B = true → peerConnections s !! p = None →
  let r := next_pc s in
  let s' := (createPeerConnection B p ls cb s).2 in
  (createPeerConnection B p ls cb s).1 = Some r ∧
  peerConnections s' = <[p := r]> (peerConnections s) ∧
  (∃ l, pcs s' = <[r := with_senders l (new_pc p cb)]> (pcs s)) ∧
  queue_of s' p = queue_of s p ∧
  applied s' = applied s ∧ outbox s' = outbox s ∧
  remotePeers s' = remotePeers s ∧
  connectionStatus s' !! p = Some "connecting" ∧
  connectionTimeouts s' !! p = Some (next_timer s) ∧
  timers s' =
    timers s ++
    [(next_timer s, mkTimer CONNECTION_TIMEOUT (ConnectionTimeout p r))].
Proof.
  intros Hsup Hp. cbv zeta.
  unfold createPeerConnection, checkWebRTCSupport. rewrite Hsup, Hp.
  cbn [negb fst snd setTimeout].
  set (s6 := set_connectionTimeouts _ _).
  assert (pcs s6 !! next_pc s = Some (new_pc p cb)) as Hr.
  { unfold s6. destruct (iceCandidatesQueue _ !! p); simpl;
      by rewrite lookup_insert_eq. }
  assert (∃ l, (match ls with
                | Some stream => add_local_tracks (next_pc s) (st_tracks stream) s6
                | None => s6
                end) = set_pcs (<[next_pc s := with_senders l (new_pc p cb)]>
                                  (pcs s6)) s6) as [l ->].
  { destruct ls as [stream|].
    - by apply add_local_tracks_spec.
    - exists []. rewrite insert_id by done. by rewrite set_pcs_id. }
  unfold s6. unfold queue_of.
  destruct (iceCandidatesQueue s !! p) eqn:Hq; simpl; rewrite ?Hq; simpl;
    rewrite ?Hq, ?lookup_insert_eq, ?insert_insert_eq; split_and!; eauto.
Qed.



End queue.



(** ** Replacing tracks *)

Lemma find_sender_kinds k l l' :
  kinds l = kinds l' → find_sender k l = find_sender k l'.
Proof.
  unfold kinds. revert l'. induction l as [|o l IH]; intros [|o' l'];
    csimpl; try done.
  intros [= Ho Hl]. rewrite Ho. by rewrite (IH l' Hl).
Qed.

Lemma find_sender_Some k l i :
  find_sender k l = Some i →
  i < length l ∧ kinds l !! i = Some (Some k).
Proof.
  revert i. induction l as [|o l IH]; intros i; csimpl; [done|].
  case_decide as Hk.
  - intros [= <-]. split; [lia|]. by rewrite Hk.
  - destruct (find_sender k l) as [j|]; [|done]. intros [= <-].
    destruct (IH j eq_refl). split; [lia | done].
Qed.

Lemma find_sender_None k l :
  find_sender k l = None ↔ Some k ∉ kinds l.
Proof.
  unfold kinds. induction l as [|o l IH]; csimpl.
  { split; [intros _; apply not_elem_of_nil | done]. }
  rewrite not_elem_of_cons. case_decide as Hk.
  - split; [done | intros [? _]; congruence].
  - destruct (find_sender k l); csimpl.
    + split; [done|]. intros [_ Hn]. by apply IH in Hn.
    + split; [|done]. intros _. split; [congruence | by apply IH].
Qed.

Lemma find_sender_app k l1 l2 :
  find_sender k (l1 ++ l2) =
    match find_sender k l1 with
    | Some i => Some i
    | None => (λ j, length l1 + j) <$> find_sender k l2
    end.
Proof.
  induction l1 as [|o l1 IH]; csimpl.
  { by destruct (find_sender k l2). }
  case_decide; [done|]. rewrite IH.
  destruct (find_sender k l1); [done|]. by destruct (find_sender k l2).
Qed.

Lemma kinds_insert_same l i t :
  kinds l !! i = Some (Some (t_kind t)) → kinds (<[i := Some t]> l) = kinds l.
Proof.
  unfold kinds. intros Hi. rewrite list_fmap_insert. simpl.
  by apply list_insert_id.
Qed.

Lemma kinds_app l1 l2 : kinds (l1 ++ l2) = kinds l1 ++ kinds l2.
Proof. unfold kinds. by rewrite fmap_app. Qed.

Lemma kinds_take n l : kinds (take n l) = take n (kinds l).
Proof. unfold kinds. by rewrite fmap_take. Qed.

Lemma with_senders_id pc : with_senders (pc_senders pc) pc = pc.
Proof. by destruct pc. Qed.

(** In a list of tracks of pairwise different kinds, the first sender of
    a track's kind is the track itself. *)
Lemma find_sender_own ts t :
  NoDup (t_kind <$> ts) → t ∈ ts →
  ∃ j, find_sender (t_kind t) (Some <$> ts) = Some j ∧ ts !! j = Some t.
Proof.
  induction ts as [|t0 ts IH]; csimpl; [by intros _ ?%elem_of_nil|].
  intros [Hnin Hnd]%NoDup_cons [->|Hin]%elem_of_cons.
  - exists 0. by rewrite decide_True.
  - rewrite decide_False.
    + destruct (IH Hnd Hin) as (j & -> & Hj). by exists (S j).
    + intros [= Heq]. apply Hnin. rewrite Heq.
      apply list_elem_of_fmap. eauto.
Qed.

Lemma update_tracks_fixed n ts pc :
  pc_closed pc = false →
  (∀ t, t ∈ ts →
     ∃ i, find_sender (t_kind t) (take n (pc_senders pc)) = Some i ∧
          pc_senders pc !! i = Some (Some t)) →
  update_tracks n ts pc = (true, pc).
Proof.
  intros Hopen. induction ts as [|t ts IH]; intros Hts; [done|].
  cbn [update_tracks]. destruct (Hts t) as (i & -> & Hi); [left|].
  unfold pc_replaceTrack. rewrite Hopen.
  rewrite (list_insert_id _ _ _ Hi), with_senders_id.
  apply IH. intros t' Ht'. apply Hts. by right.
Qed.

Lemma elem_of_find_sender t l :
  Some t ∈ l → find_sender (t_kind t) l ≠ None.
Proof.
  intros Hin Hnone. apply find_sender_None in Hnone. apply Hnone.
  unfold kinds. apply list_elem_of_fmap. by exists (Some t).
Qed.

(** One pass of the loop over tracks of pairwise different kinds. *)
Lemma update_tracks_ok (n : nat) (ts : list Track) pc :
  pc_closed pc = false → (n ≤ length (pc_senders pc))%nat →
  NoDup (t_kind <$> ts) →
  (∀ t, t ∈ ts → find_sender (t_kind t) (drop n (pc_senders pc)) = None) →
  let old := pc_senders pc in
  ∃ new,
    update_tracks n ts pc = (true, with_senders new pc) ∧
    kinds (take n new) = kinds (take n old) ∧
    drop n new = drop n old ++ (Some <$> unmatched (take n old) ts) ∧
    (∀ t i, t ∈ ts → find_sender (t_kind t) (take n old) = Some i →
       new !! i = Some (Some t)) ∧
    (∀ i, (i < n)%nat →
       (∀ t, t ∈ ts → find_sender (t_kind t) (take n old) ≠ Some i) →
       new !! i = old !! i).
Proof.
  revert pc. induction ts as [|t ts IH]; intros pc Hopen Hn Hnd Hfresh old.
  { exists old. cbn [update_tracks]. unfold old. rewrite with_senders_id.
    unfold unmatched. rewrite filter_nil. simpl. rewrite app_nil_r.
    split_and!; try done. by intros ?? ?%elem_of_nil. }
  rewrite fmap_cons in Hnd. apply NoDup_cons in Hnd as [Hnin Hnd].
  fold old in Hn, Hfresh.
  assert (Hlen : length (take n old) = n).
  { rewrite length_take. lia. }
  cbn [update_tracks]. fold old.
  destruct (find_sender (t_kind t) (take n old)) as [i|] eqn:Hfind.
  - (* a sender of that kind: replace its track *)
    apply find_sender_Some in Hfind as Hi. destruct Hi as [Hi Hki].
    rewrite Hlen in Hi. rewrite kinds_take, lookup_take_lt in Hki by done.
    unfold pc_replaceTrack. rewrite Hopen.
    set (l1 := <[i := Some t]> old).
    assert (Hk1 : kinds l1 = kinds old) by by apply kinds_insert_same.
    assert (Hkt1 : kinds (take n l1) = kinds (take n old)).
    { by rewrite !kinds_take, Hk1. }
    assert (Hd1 : drop n l1 = drop n old).
    { unfold l1. by rewrite drop_insert_lt by lia. }
    destruct (IH (with_senders l1 pc)) as (new & Hrun & Hkn & Hdn & Hrep & Hkeep).
    { done. }
    { simpl. unfold l1. by rewrite length_insert. }
    { done. }
    { simpl. rewrite Hd1. intros t' Ht'. apply Hfresh. by right. }
    simpl in Hrun, Hkn, Hdn, Hrep, Hkeep.
    exists new. split_and!.
    + exact Hrun.
    + by rewrite Hkn.
    + rewrite Hdn, Hd1. unfold unmatched. rewrite filter_cons_False.
      * do 2 f_equal. apply list_filter_iff. intros t'.
        by rewrite (find_sender_kinds _ _ _ Hkt1).
      * rewrite Hfind. by intros ?.
    + intros t' i' [->|Ht']%elem_of_cons Hf'.
      * rewrite Hfind in Hf'. injection Hf' as <-.
        rewrite Hkeep; [by apply list_lookup_insert_eq; lia | done |].
        intros t' Ht' Hf'. rewrite (find_sender_kinds _ _ _ Hkt1) in Hf'.
        apply find_sender_Some in Hf' as [_ Hk'].
        rewrite kinds_take, lookup_take_lt in Hk' by done.
        rewrite Hki in Hk'. injection Hk' as Hk'. apply Hnin.
        rewrite Hk'. apply list_elem_of_fmap. eauto.
      * apply Hrep; [done|]. by rewrite (find_sender_kinds _ _ _ Hkt1).
    + intros i' Hi' Hnone.
      assert (i' ≠ i) as Hne.
      { intros ->. by apply (Hnone t); [left|]. }
      rewrite Hkeep; [by apply list_lookup_insert_ne | done |].
      intros t' Ht'. rewrite (find_sender_kinds _ _ _ Hkt1).
      apply Hnone. by right.
  - (* no sender of that kind: add the track *)
    unfold pc_addTrack. rewrite Hopen.
    rewrite decide_False; last first.
    { intros Hin. fold old in Hin. rewrite <-(take_drop n old) in Hin.
      apply elem_of_app in Hin as [Hin|Hin].
      - by apply elem_of_find_sender in Hin.
      - apply elem_of_find_sender in Hin. apply Hin, Hfresh. left. }
    set (l1 := old ++ [Some t]).
    assert (Ht1 : take n l1 = take n old).
    { unfold l1. by rewrite take_app_le by done. }
    assert (Hd1 : drop n l1 = drop n old ++ [Some t]).
    { unfold l1. by rewrite drop_app_le by done. }
    destruct (IH (with_senders l1 pc)) as (new & Hrun & Hkn & Hdn & Hrep & Hkeep).
    { done. }
    { simpl. unfold l1. rewrite length_app. lia. }
    { done. }
    { simpl. rewrite Hd1. intros t' Ht'. rewrite find_sender_app.
      rewrite Hfresh by by right. simpl.
      rewrite decide_False; [done|]. intros [= Heq]. apply Hnin.
      rewrite Heq. apply list_elem_of_fmap. eauto. }
    simpl in Hrun, Hkn, Hdn, Hrep, Hkeep. rewrite Ht1 in *.
    exists new. split_and!.
    + exact Hrun.
    + done.
    + rewrite Hdn, Hd1. unfold unmatched. rewrite filter_cons_True by done.
      by rewrite fmap_cons, <-app_assoc.
    + intros t' i' [->|Ht']%elem_of_cons Hf'; [congruence|]. by apply Hrep.
    + intros i' Hi' Hnone. rewrite Hkeep; [| done |].
      * unfold l1. rewrite lookup_app_l; [done | lia].
      * intros t' Ht'. apply Hnone. by right.
Qed.

Lemma NoDup_kinds_filter (P : Track → Prop) `{!∀ t, Decision (P t)} ts :
  NoDup (t_kind <$> ts) → NoDup (t_kind <$> filter P ts).
Proof.
  induction ts as [|t ts IH]; [done|]. rewrite fmap_cons.
  intros [Hnin Hnd]%NoDup_cons. rewrite filter_cons. case_decide; [|auto].
  rewrite fmap_cons. apply NoDup_cons. split; [|auto].
  intros (t' & Hk & [_ Hin]%list_elem_of_filter)%list_elem_of_fmap.
  apply Hnin. rewrite Hk. apply list_elem_of_fmap. eauto.
Qed.

Lemma count_kind_app k l1 l2 :
  count_kind k (l1 ++ l2) = count_kind k l1 + count_kind k l2.
Proof.
  unfold count_kind. by rewrite kinds_app, filter_app, length_app.
Qed.

Lemma count_kind_unmatched k old ts :
  is_Some (find_sender k old) → count_kind k (Some <$> unmatched old ts) = 0.
Proof.
  intros [i Hi]. unfold count_kind, unmatched, kinds.
  induction ts as [|t ts IH]; [done|]. rewrite filter_cons.
  case_decide as Hnone; [|done]. csimpl. rewrite filter_cons_False; [done|].
  intros [= Hk]. congruence.
Qed.

(** C7, amended: for a stream whose tracks have pairwise different kinds
    and a peer with an open connection, [updateStream] succeeds; a track
    whose kind is carried by a sender replaces the track of the first such
    sender, in place; the other senders that existed keep their track; the
    tracks without a sender of their kind are added as new senders, in the
    stream's order; so a kind that was sent keeps its number of senders
    (exactly one if it was one); and calling [updateStream] again with the
    same stream changes nothing. *)
Theorem updateStream_in_place p r pc stream s :
  peerConnections s !! p = Some r → pcs s !! r = Some pc →
  pc_closed pc = false →
  NoDup (t_kind <$> st_tracks stream) →
  let old := pc_senders pc in
  let s' := (updateStream p stream s).2 in
  let new := pc_senders (pc_of s' r) in
  (updateStream p stream s).1 = true ∧
  (∀ t i, t ∈ st_tracks stream → find_sender (t_kind t) old = Some i →
     new !! i = Some (Some t)) ∧
  (∀ i, (i < length old)%nat →
     (∀ t, t ∈ st_tracks stream → find_sender (t_kind t) old ≠ Some i) →
     new !! i = old !! i) ∧
  drop (length old) new = Some <$> unmatched old (st_tracks stream) ∧
  (∀ k, is_Some (find_sender k old) → count_kind k new = count_kind k old) ∧
  updateStream p stream s' = (true, s').
Proof.
  intros Hp Hr Hopen Hnd. cbv zeta.
  destruct (update_tracks_ok (length (pc_senders pc)) (st_tracks stream) pc)
    as (new & Hrun & Hkn & Hdn & Hrep & Hkeep); [done | done | done | |].
  { intros t _. by rewrite drop_all. }
  cbv zeta in *.
  rewrite (take_ge (pc_senders pc)) in Hkn, Hdn, Hrep, Hkeep by lia.
  rewrite drop_all in Hdn. simpl in Hdn.
  assert (updateStream p stream s =
          (true, set_pcs (<[r := with_senders new pc]> (pcs s)) s)) as Hupd.
  { unfold updateStream. by rewrite Hp, (pc_of_lookup _ _ _ Hr), Hrun. }
  rewrite Hupd. cbn [fst snd].
  set (n := length (pc_senders pc)) in *.
  assert (pc_of (set_pcs (<[r := with_senders new pc]> (pcs s)) s) r =
          with_senders new pc) as Hpc'.
  { apply pc_of_lookup. simpl. by rewrite lookup_insert_eq. }
  rewrite Hpc'. simpl.
  assert (Hlen : length (take n new) = n).
  { apply (f_equal length) in Hkn. unfold kinds in Hkn.
    by rewrite !length_fmap in Hkn. }
  split_and!; try done.
  - intros k Hk. rewrite <-(take_drop n new), count_kind_app, Hdn.
    rewrite count_kind_unmatched by done. unfold count_kind.
    rewrite Hkn. lia.
  - unfold updateStream. simpl. rewrite Hp. unfold pc_of. simpl.
    rewrite lookup_total_insert_eq.
    rewrite update_tracks_fixed.
    + unfold set_pcs. simpl. by rewrite insert_insert_eq.
    + done.
    + simpl. rewrite take_ge by done. intros t Ht.
      destruct (find_sender (t_kind t) (pc_senders pc)) as [i|] eqn:Hfind.
      * exists i. split; [|by eapply Hrep].
        rewrite <-(take_drop n new), find_sender_app.
        by rewrite (find_sender_kinds _ _ _ Hkn), Hfind.
      * destruct (find_sender_own
                    (unmatched (pc_senders pc) (st_tracks stream)) t)
          as (j & Hj & Hlook).
        { by apply NoDup_kinds_filter. }
        { by apply list_elem_of_filter. }
        exists (n + j). rewrite <-(take_drop n new) at 1.
        rewrite find_sender_app, (find_sender_kinds _ _ _ Hkn), Hfind.
        rewrite Hdn, Hj, Hlen. split; [done|].
        rewrite <-lookup_drop, Hdn, list_lookup_fmap, Hlook. done.
Qed.

Lemma updateStream_in_place_witness :
  (updateStream "bob" screen with_bob).1 = true ∧
  pc_senders (pc_of with_bob 0) =
    [Some (mkTrack "a0" "audio"); Some (mkTrack "v0" "video")] ∧
  pc_senders (pc_of (updateStream "bob" screen with_bob).2 0) !! 1 =
    Some (Some (mkTrack "v1" "video")) ∧
  count_kind "video"
    (pc_senders (pc_of (updateStream "bob" screen with_bob).2 0)) = 1.
Proof.
  destruct (updateStream_in_place "bob" 0 (pc_of with_bob 0) screen with_bob)
    as (Hok & Hrep & _ & _ & Hcount & _).
  - by vm_compute.
  - by vm_compute.
  - by vm_compute.
  - apply NoDup_singleton.
  - split_and!.
    + exact Hok.
    + by vm_compute.
    + apply (Hrep (mkTrack "v1" "video")); [left | by vm_compute].
    + rewrite Hcount; [by vm_compute | vm_compute; eauto].
Defined.

(** C7, as stated, fails for a stream with two tracks of one kind: on a
    connection without a video sender the first call adds both tracks;
    the second call finds the first video sender for each of them, so it
    ends up carrying the second track and the senders have changed.  And
    on the connection so obtained, a stream with one video track leaves
    two video senders, not one. *)
Lemma updateStream_twice_differs :
  let va := mkTrack "va" "video" in
  let vb := mkTrack "vb" "video" in
  let s1 := (updateStream "bob" two_videos with_bob_bare).2 in
  let s2 := (updateStream "bob" two_videos s1).2 in
  let s3 := (updateStream "bob" screen s1).2 in
  peerConnections with_bob_bare !! "bob" = Some 0 ∧
  (updateStream "bob" two_videos with_bob_bare).1 = true ∧
  (updateStream "bob" two_videos s1).1 = true ∧
  pc_senders (pc_of s1 0) = [Some va; Some vb] ∧
  pc_senders (pc_of s2 0) = [Some vb; Some vb] ∧
  (updateStream "bob" screen s1).1 = true ∧
  pc_senders (pc_of s3 0) = [Some (mkTrack "v1" "video"); Some vb] ∧
  count_kind "video" (pc_senders (pc_of s3 0)) = 2.
Proof. by vm_compute. Qed.

(** ** Restarting ICE *)

Section restart.
Variable B : Browser.
Variable r : PcRef.

Lemma quiet_refl s : quiet r s s.
Proof. by split. Qed.

Lemma quiet_trans s1 s2 s3 : quiet r s1 s2 → quiet r s2 s3 → quiet r s1 s3.
Proof. intros [H1 H2] [H3 H4]. split; [congruence | lia]. Qed.

Lemma quiet_same s s' :
  timers s' = timers s → restartIceCalls s' = restartIceCalls s →
  quiet r s s'.
Proof. intros Ht Hr. split; [done|]. unfold pending_restarts. by rewrite Ht. Qed.

Lemma quiet_clearTimeout tid s : quiet r s (clearTimeout tid s).
Proof.
  split; [done|]. unfold pending_restarts, clearTimeout. simpl.
  induction (timers s) as [|e l IH]; [done|].
  rewrite (filter_cons (λ e, e.1 ≠ tid)), (filter_cons _ e l).
  destruct (decide (e.1 ≠ tid)); rewrite ?filter_cons;
    destruct (decide (is_restart_of r e)); simpl; lia.
Qed.

Lemma quiet_clear_tracked key s : quiet r s (clear_tracked_timeout key s).
Proof.
  unfold clear_tracked_timeout.
  destruct (connectionTimeouts s !! key); [|apply quiet_refl].
  eapply quiet_trans; [apply quiet_clearTimeout | by apply quiet_same].
Qed.

Lemma quiet_closePeerConnection p s : quiet r s (closePeerConnection p s).2.
Proof.
  unfold closePeerConnection. destruct (peerConnections s !! p);
    [|apply quiet_refl]. cbn [snd].
  eapply quiet_trans; [apply (quiet_clear_tracked p)|].
  eapply quiet_trans; [apply (quiet_clear_tracked (p +:+ "_ice"))|].
  by apply quiet_same.
Qed.

Lemma quiet_add_local_tracks r0 tracks s :
  quiet r s (add_local_tracks r0 tracks s).
Proof.
  revert s. induction tracks as [|t ts IH]; intros s; [apply quiet_refl|].
  unfold add_local_tracks. cbn [foldl].
  destruct (pc_addTrack t (pc_of s r0)); [|apply IH].
  eapply quiet_trans; [|apply IH]. by apply quiet_same.
Qed.

Lemma quiet_createPeerConnection p ls cb s :
  quiet r s (createPeerConnection B p ls cb s).2.
Proof.
  unfold createPeerConnection, checkWebRTCSupport.
  destruct (supported B); cbn [negb]; [|by apply quiet_same].
  cbn [fst snd setTimeout].
  eapply quiet_trans; last first.
  { destruct ls; [apply quiet_add_local_tracks | apply quiet_refl]. }
  split.
  - destruct (peerConnections s !! p); simpl;
      by destruct (iceCandidatesQueue _ !! p).
  - unfold pending_restarts.
    destruct (peerConnections s !! p); simpl;
      destruct (iceCandidatesQueue _ !! p); simpl;
      rewrite filter_app, length_app; simpl; lia.
Qed.

Lemma quiet_createOffer p s : quiet r s (createOffer B p s).2.
Proof.
  unfold createOffer. destruct (peerConnections s !! p) as [r0|];
    [|apply quiet_refl].
  destruct (createOffer_result B (pc_of s r0)); [|by apply quiet_same].
  destruct (setLocalDescription_error B (pc_of s r0) s0);
    [by apply quiet_same|].
  cbn [fst snd setTimeout]. split; [done|].
  unfold pending_restarts. simpl. rewrite filter_app, length_app.
  simpl. lia.
Qed.

Lemma quiet_replay r0 q s :
  quiet r s (foldl (λ acc c, (pc_addIceCandidate B r0 c acc).2) s q).
Proof.
  revert s. induction q as [|c q IH]; intros s; [apply quiet_refl|].
  cbn [foldl]. eapply quiet_trans; [|apply IH]. by apply quiet_same.
Qed.

Lemma quiet_processIceCandidateQueue p s :
  quiet r s (processIceCandidateQueue B p s).
Proof.
  unfold processIceCandidateQueue.
  destruct (peerConnections s !! p) as [r0|]; [|apply quiet_refl].
  destruct (_ && _); [|apply quiet_refl].
  eapply quiet_trans; [apply quiet_replay | by apply quiet_same].
Qed.

Lemma quiet_handleAnswer p answer s : quiet r s (handleAnswer B p answer s).2.
Proof.
  unfold handleAnswer. destruct (peerConnections s !! p) as [r0|];
    [|apply quiet_refl].
  destruct (setRemoteDescription_error B (pc_of s r0) answer);
    [apply quiet_refl|]. cbn [snd].
  eapply quiet_trans; [|by apply quiet_same].
  eapply quiet_trans; [|apply quiet_processIceCandidateQueue].
  by apply quiet_same.
Qed.

Lemma quiet_handleOffer p offer ls cb s :
  quiet r s (handleOffer B p offer ls cb s).2.
Proof.
  unfold handleOffer.
  assert (∃ pc s0, (match peerConnections s !! p with
                    | Some r0 => (Some r0, s)
                    | None => createPeerConnection B p ls cb s
                    end) = (pc, s0) ∧ quiet r s s0) as (pc & s0 & -> & Hq).
  { destruct (peerConnections s !! p) as [r0|].
    - eexists _, _. split; [done | apply quiet_refl].
    - pose proof (quiet_createPeerConnection p ls cb s) as Hq.
      destruct (createPeerConnection B p ls cb s) as [pc s0].
      by eexists _, _. }
  eapply quiet_trans; [exact Hq|].
  destruct pc as [r0|]; [|apply quiet_refl].
  destruct (setRemoteDescription_error B (pc_of s0 r0) offer);
    [by apply quiet_same|].
  destruct (createAnswer_result B _); [|by apply quiet_same].
  destruct (setLocalDescription_error B _ _); [by apply quiet_same|].
  cbn [snd].
  eapply quiet_trans; [|by apply quiet_same].
  eapply quiet_trans; [|apply quiet_processIceCandidateQueue].
  by apply quiet_same.
Qed.

Lemma quiet_addIceCandidate p c s : quiet r s (addIceCandidate B p c s).2.
Proof.
  unfold addIceCandidate. destruct (negb _); [by apply quiet_same|].
  destruct (peerConnections s !! p); [by apply quiet_same | apply quiet_refl].
Qed.

Lemma quiet_updateStream p stream s : quiet r s (updateStream p stream s).2.
Proof.
  unfold updateStream. destruct (peerConnections s !! p) as [r0|];
    [|apply quiet_refl].
  destruct (update_tracks _ _ _). by apply quiet_same.
Qed.

Lemma pending_after_fire tid e s :
  e ∈ timers s → e.1 = tid → is_restart_of r e = true →
  (pending_restarts r (clearTimeout tid s) < pending_restarts r s)%nat.
Proof.
  intros Hin Htid Hre. unfold pending_restarts, clearTimeout. simpl.
  induction (timers s) as [|e' l IH]; [by apply elem_of_nil in Hin|].
  rewrite (filter_cons (λ e, e.1 ≠ tid)), (filter_cons _ e' l).
  assert (length (filter (is_restart_of r) (filter (λ e, e.1 ≠ tid) l))
          ≤ length (filter (is_restart_of r) l))%nat as Hle.
  { apply (quiet_clearTimeout tid (set_timers l s)). }
  apply elem_of_cons in Hin as [<-|Hin].
  - rewrite decide_False by (by intros ?). rewrite decide_True by by rewrite Hre.
    simpl. lia.
  - specialize (IH Hin).
    destruct (decide (e'.1 ≠ tid)); rewrite ?filter_cons;
      destruct (decide (is_restart_of r e')); simpl; lia.
Qed.

(** One input raises the number of restarts done or scheduled for [r] by
    at most one, and only when it reports the ICE state of [r] failed. *)
Lemma step_bound i s :
  (restart_count r (step B i s) + pending_restarts r (step B i s) ≤
   restart_count r s + pending_restarts r s +
   (if is_failed_report r i then 1 else 0))%nat.
Proof.
  assert (Hquiet : ∀ s', quiet r s s' →
    (restart_count r s' + pending_restarts r s' ≤
     restart_count r s + pending_restarts r s)%nat).
  { intros s' [Hcalls Hpend]. unfold restart_count. rewrite Hcalls. lia. }
  destruct i; cbn [step];
    try (etrans; [apply Hquiet |]; [ | lia];
         first [ apply quiet_createPeerConnection | apply quiet_createOffer
               | apply quiet_handleOffer | apply quiet_handleAnswer
               | apply quiet_addIceCandidate | apply quiet_updateStream
               | apply quiet_closePeerConnection ]; fail).
  - (* oniceconnectionstatechange *)
    unfold oniceconnectionstatechange.
    set (s0 := set_pcs _ s). set (s1 := set_connectionStatus _ s0).
    assert (quiet r s s1) as Hs1 by by apply quiet_same.
    case_bool_decide as Hconn.
    { etrans; [apply Hquiet|lia].
      eapply quiet_trans; [exact Hs1 | apply quiet_clear_tracked]. }
    case_decide as Hfailed; [|etrans; [by apply Hquiet | lia]].
    subst state. cbn [is_failed_report].
    unfold restart_count, pending_restarts, setTimeout. simpl.
    rewrite filter_app, length_app, filter_cons, filter_nil.
    destruct (decide (pc = r)) as [->|Hne].
    + rewrite bool_decide_eq_true_2 by done.
      destruct (decide _); simpl; lia.
    + rewrite decide_False.
      * simpl. destruct (bool_decide _); lia.
      * unfold is_restart_of. simpl.
        rewrite bool_decide_eq_false_2 by done. by intros [].
  - (* onconnectionstatechange *)
    etrans; [apply Hquiet | lia]. unfold onconnectionstatechange.
    case_decide; by apply quiet_same.
  - (* ontrack *)
    etrans; [apply Hquiet | lia]. unfold ontrack.
    destruct remoteStream; [by apply quiet_same | apply quiet_refl].
  - (* onicecandidate *)
    etrans; [apply Hquiet | lia]. unfold onicecandidate, emit.
    destruct (pc_onIceCandidate _); [|apply quiet_refl].
    destruct (isConnected s); [by apply quiet_same | apply quiet_refl].
  - (* a timer comes due *)
    cbn [is_failed_report]. unfold fire.
    destruct (list_find _ (timers s)) as [[j [tid' tm]]|] eqn:Hfind; [|lia].
    apply list_find_Some in Hfind as (Hj & Htid & _). simpl in Htid.
    apply list_elem_of_lookup_2 in Hj.
    pose proof (quiet_clearTimeout tid s) as [Hc Hp].
    destruct tm as [delay cb]. destruct cb as [p r0|p r0|r0]; cbn [tm_cb run_timer].
    + etrans; [apply Hquiet | lia]. case_bool_decide.
      * eapply quiet_trans; [by split|].
        eapply quiet_trans; [|apply quiet_closePeerConnection].
        by apply quiet_same.
      * by split.
    + etrans; [apply Hquiet | lia]. by split.
    + case_decide as Hstable; [|etrans; [apply Hquiet; by split | lia]].
      unfold restart_count. simpl. rewrite filter_app, length_app.
      rewrite filter_cons. case_decide as Hr0; simpl.
      * subst r0.
        pose proof (pending_after_fire tid _ s Hj Htid) as Hlt.
        unfold pending_restarts in *. simpl in *.
        assert (is_restart_of r (tid', mkTimer delay (IceRestart r)) = true)
          as Hre.
        { unfold is_restart_of. simpl. by apply bool_decide_eq_true_2. }
        specialize (Hlt Hre). lia.
      * unfold pending_restarts in *. simpl in *. lia.
Qed.

Lemma run_bound trace s :
  (restart_count r (run B trace s) + pending_restarts r (run B trace s) ≤
   restart_count r s + pending_restarts r s + failed_reports r trace)%nat.
Proof.
  revert s. induction trace as [|i trace IH]; intros s; [simpl; lia|].
  rewrite run_cons. etrans; [apply IH|].
  pose proof (step_bound i s) as Hstep.
  unfold failed_reports. rewrite filter_cons.
  destruct (is_failed_report r i); simpl; lia.
Qed.

(** C6, amended: each report of the ICE connection state failed records
    failed as the peer's connection status and schedules one restart
    attempt, due after 1000 ms; when it comes due, [restartIce] is
    called only if the signaling state is stable.  Hence over any run
    the restarts of a connection number at most the failed reports it
    got (plus the attempts pending at the start): one per report, with no
    limit over the life of the session.  A connection state failed sets
    the connection error naming the peer.  Neither report closes the
    session. *)
Theorem one_restart_per_failed_report :
  (∀ trace s,
     (restart_count r (run B trace s) ≤
      restart_count r s + pending_restarts r s + failed_reports r trace)%nat) ∧
  (∀ s,
     let s' := oniceconnectionstatechange r "failed" s in
     timers s' = timers s ++ [(next_timer s, mkTimer 1000 (IceRestart r))] ∧
     restartIceCalls s' = restartIceCalls s ∧
     connectionStatus s' !! pc_peer (pc_of s' r) = Some "failed" ∧
     peerConnections s' = peerConnections s) ∧
  (∀ s,
     restartIceCalls (run_timer (IceRestart r) s) =
       restartIceCalls s ++
       (if decide (pc_signalingState (pc_of s r) = "stable")
        then [r] else [])) ∧
  (∀ s,
     let s' := onconnectionstatechange r "failed" s in
     connectionError s' =
       Some ("Connection failed for " +:+ pc_peer (pc_of s' r)) ∧
     peerConnections s' = peerConnections s).
Proof.
  split_and!.
  - intros trace s. pose proof (run_bound trace s). lia.
  - intros s. unfold oniceconnectionstatechange. simpl.
    split_and!; try done. by rewrite lookup_insert_eq.
  - intros s. simpl. case_decide; [done | by rewrite app_nil_r].
  - intros s. unfold onconnectionstatechange. by simpl.
Qed.
End restart.

(** C6, as stated, fails: the session with Bob reports failed, is
    restarted when the timer comes due, goes back to checking, reports
    failed again and is restarted a second time. *)
Lemma second_failure_restarts_again :
  let s :=
    run kind_browser
      [IceConnectionState 0 "failed"; TimerFires 2%positive;
       IceConnectionState 0 "checking";
       IceConnectionState 0 "failed"; TimerFires 3%positive]
      with_bob in
  peerConnections with_bob !! "bob" = Some 0 ∧
  peerConnections s !! "bob" = Some 0 ∧
  restartIceCalls with_bob = [] ∧
  restartIceCalls s = [0; 0] ∧
  restart_count 0 s = 2.
Proof. by vm_compute. Qed.

(** ** Invariants of the engine *)

Lemma clear_tracked_timeout_frame key s :
  let s' := clear_tracked_timeout key s in
  pcs s' = pcs s ∧ next_pc s' = next_pc s ∧
  peerConnections s' = peerConnections s ∧ applied s' = applied s.
Proof.
  unfold clear_tracked_timeout. by destruct (connectionTimeouts s !! key).
Qed.



Lemma update_tracks_keeps n ts pc :
  let pc' := (update_tracks n ts pc).2 in
  pc_peer pc' = pc_peer pc ∧ pc_closed pc' = pc_closed pc ∧
  pc_remoteDescription pc' = pc_remoteDescription pc.
Proof.
  revert pc. induction ts as [|t ts IH]; intros pc; [done|].
  cbv zeta. simpl.
  destruct (find_sender (t_kind t) (take n (pc_senders pc))) as [i|].
  - unfold pc_replaceTrack. destruct (pc_closed pc) eqn:Hc; [done|].
    destruct (IH (with_senders (<[i := Some t]> (pc_senders pc)) pc))
      as (-> & -> & ->). done.
  - unfold pc_addTrack. destruct (pc_closed pc) eqn:Hc; [done|].
    case_decide; [done|].
    destruct (IH (with_senders (pc_senders pc ++ [Some t]) pc))
      as (-> & -> & ->). done.
Qed.

Lemma tracked_same s s' :
  pcs s' = pcs s → next_pc s' = next_pc s →
  peerConnections s' = peerConnections s →
  tracked s → tracked s'.
Proof. intros H1 H2 H3 [T1 T2]. split; rewrite ?H1, ?H2, ?H3; done. Qed.

Lemma tracked_alter f r s :
  (∀ pc, pc_peer (f pc) = pc_peer pc ∧ pc_closed (f pc) = pc_closed pc) →
  tracked s → tracked (set_pcs (alter f r (pcs s)) s).
Proof.
  intros Hf [T1 T2]. split; simpl.
  - intros p r' Hp. destruct (T1 _ _ Hp) as (pc & Hpc & Hpeer & Hopen).
    destruct (decide (r = r')) as [->|Hne].
    + exists (f pc). rewrite lookup_alter_eq, Hpc.
      destruct (Hf pc) as [-> ->]. done.
    + exists pc. by rewrite lookup_alter_ne.
  - intros r' Hr'. apply T2. by apply lookup_alter_is_Some in Hr'.
Qed.

Lemma tracked_insert r pc pc' s :
  pcs s !! r = Some pc →
  pc_peer pc' = pc_peer pc → pc_closed pc' = pc_closed pc →
  tracked s → tracked (set_pcs (<[r := pc']> (pcs s)) s).
Proof.
  intros Hr Hp Hc [T1 T2]. split; simpl.
  - intros p r' Hp'. destruct (T1 _ _ Hp') as (pc0 & Hpc & Hpeer & Hopen).
    destruct (decide (r = r')) as [->|Hne].
    + exists pc'. rewrite lookup_insert_eq. simplify_eq.
      split; [done|]. split; congruence.
    + exists pc0. by rewrite lookup_insert_ne.
  - intros r'. rewrite lookup_insert_is_Some.
    intros [<-|[_ ?]]; [apply T2; eauto | by apply T2].
Qed.


Lemma tracked_add_local_tracks r ts s :
  is_Some (pcs s !! r) → tracked s → tracked (add_local_tracks r ts s).
Proof.
  intros [pc Hr] Ht.
  destruct (add_local_tracks_spec r ts s pc Hr) as [l ->].
  by apply (tracked_insert r pc).
Qed.

Lemma tracked_createPeerConnection B p ls cb s :
  tracked s → tracked (createPeerConnection B p ls cb s).2.
Proof.
  intros [T1 T2]. unfold createPeerConnection, checkWebRTCSupport.
  destruct (supported B); cbn [negb fst snd setTimeout]; [|done].
  set (s1 := match peerConnections s !! p with
             | Some old => set_pcs (alter close_pc old (pcs s)) s
             | None => s
             end).
  assert (next_pc s1 = next_pc s ∧ peerConnections s1 = peerConnections s ∧
          (∀ r, is_Some (pcs s1 !! r) → r < next_pc s) ∧
          (∀ p' r, p' ≠ p → peerConnections s !! p' = Some r →
             pcs s1 !! r = pcs s !! r) ∧
          iceCandidatesQueue s1 = iceCandidatesQueue s) as (Hn & Hpc & Ha & Ho & Hq).
  { unfold s1. destruct (peerConnections s !! p) as [old|] eqn:Hp;
      [|by split_and!].
    split_and!; try done.
    - intros r Hr. apply T2. simpl in Hr.
      by apply lookup_alter_is_Some in Hr.
    - intros p' r Hne Hp'. simpl. rewrite lookup_alter_ne; [done|].
      intros ->. destruct (T1 _ _ Hp) as (? & ? & ? & _).
      destruct (T1 _ _ Hp') as (? & ? & ? & _). congruence. }
  set (s6 := set_connectionTimeouts _ _).
  assert (tracked s6) as Ht6.
  { unfold s6. rewrite Hn, Hpc.
    destruct (iceCandidatesQueue _ !! p); split; simpl.
    all: try (intros p' r; rewrite lookup_insert_Some;
      intros [[<- <-]|[Hne Hp']];
      [ exists (new_pc p cb); by rewrite lookup_insert_eq
      | destruct (T1 _ _ Hp') as (pc & Hr & ? & ?); exists pc;
        split; [|done]; rewrite lookup_insert_ne;
        [ by rewrite (Ho p' r) | ];
        assert (r < next_pc s) by (apply T2; eauto); lia ]).
    all: intros r; rewrite lookup_insert_is_Some;
      intros [<-|[_ Hr]]; [lia | apply Ha in Hr; lia]. }
  destruct ls as [stream|]; [|done].
  apply tracked_add_local_tracks; [|done].
  unfold s6. rewrite Hn.
  destruct (iceCandidatesQueue _ !! p); simpl; rewrite lookup_insert_eq; eauto.
Qed.

Local Ltac tracked_triv :=
  first [done | eapply tracked_same; [| | | eassumption]; reflexivity].





Lemma tracked_updateStream p stream s :
  tracked s → tracked (updateStream p stream s).2.
Proof.
  intros Ht. unfold updateStream.
  destruct (peerConnections s !! p) as [r|] eqn:Hp; [|done].
  destruct (tr_open s Ht _ _ Hp) as (pc & Hr & _).
  pose proof (update_tracks_keeps (length (pc_senders (pc_of s r)))
                (st_tracks stream) (pc_of s r)) as (Hpeer & Hclosed & _).
  destruct (update_tracks _ _ _) as [ok pc']. cbn [snd] in *.
  rewrite (pc_of_lookup _ _ _ Hr) in Hpeer, Hclosed.
  by apply (tracked_insert r pc).
Qed.

Lemma tracked_oniceconnectionstatechange r state s :
  tracked s → tracked (oniceconnectionstatechange r state s).
Proof.
  intros Ht. unfold oniceconnectionstatechange.
  set (s0 := set_pcs (alter (with_iceConnectionState state) r (pcs s)) s).
  assert (tracked s0) as Ht0 by (by apply tracked_alter).
  case_bool_decide.
  - set (s1 := set_connectionStatus _ s0).
    destruct (clear_tracked_timeout_frame (pc_peer (pc_of s0 r)) s1)
      as (H1 & H2 & H3 & _).
    by apply (tracked_same s0).
  - case_decide; tracked_triv.
Qed.





Lemma tracked_init : tracked init.
Proof.
  split; unfold init; simpl.
  - intros p r. by rewrite lookup_empty.
  - intros r [? Hr]. by rewrite lookup_empty in Hr.
Qed.















Lemma fresh_init : timers_fresh init.
Proof. intros e. unfold init. simpl. by intros ?%elem_of_nil. Qed.



(** ** Closing one session among several *)

Lemma clear_tracked_timeout_keeps key s e :
  e ∈ timers s → connectionTimeouts s !! key ≠ Some e.1 →
  e ∈ timers (clear_tracked_timeout key s).
Proof.
  intros He Hne. unfold clear_tracked_timeout.
  destruct (connectionTimeouts s !! key) as [tid|]; [|done]. simpl.
  apply list_elem_of_filter. split; [congruence | done].
Qed.

Lemma clear_tracked_timeout_rest key s :
  let s' := clear_tracked_timeout key s in
  iceCandidatesQueue s' = iceCandidatesQueue s ∧
  remoteStreamsRef s' = remoteStreamsRef s ∧
  remotePeers s' = remotePeers s ∧ remoteStreams s' = remoteStreams s ∧
  connectionStatus s' = connectionStatus s ∧
  connectionError s' = connectionError s ∧
  connectionTimeouts s' = delete key (connectionTimeouts s).
Proof.
  unfold clear_tracked_timeout.
  destruct (connectionTimeouts s !! key) eqn:Hk; [done|].
  by rewrite delete_id.
Qed.

Lemma with_bob_and_carol_tracked : tracked with_bob_and_carol.
Proof.
  unfold with_bob_and_carol, with_bob.
  do 2 apply tracked_createPeerConnection. apply tracked_init.
Qed.

(** X11: closing the session of one peer leaves the other peers alone.
    For every other peer the connection (the stored reference and the
    object), the candidate queue, the cached and the displayed remote
    stream, the [remotePeers] entry and the status are what they were;
    nothing is sent and no candidate is applied.  Of the tracked timers
    only the two stored under the closed peer's id and under that id
    followed by [_ice] are touched, and every pending timer that is not
    stored under one of these two keys stays pending. *)
Theorem closePeerConnection_leaves_others p p' s :
  tracked s → p' ≠ p →
  let s' := (closePeerConnection p s).2 in
  peerConnections s' !! p' = peerConnections s !! p' ∧
  (∀ r, peerConnections s !! p' = Some r → pcs s' !! r = pcs s !! r) ∧
  iceCandidatesQueue s' !! p' = iceCandidatesQueue s !! p' ∧
  remoteStreamsRef s' !! p' = remoteStreamsRef s !! p' ∧
  remotePeers s' !! p' = remotePeers s !! p' ∧
  remoteStreams s' !! p' = remoteStreams s !! p' ∧
  connectionStatus s' !! p' = connectionStatus s !! p' ∧
  (∀ key, key ≠ p → key ≠ p +:+ "_ice" →
     connectionTimeouts s' !! key = connectionTimeouts s !! key) ∧
  (∀ e, e ∈ timers s →
     connectionTimeouts s !! p ≠ Some e.1 →
     connectionTimeouts s !! (p +:+ "_ice") ≠ Some e.1 →
     e ∈ timers s') ∧
  applied s' = applied s ∧ outbox s' = outbox s.
Proof.
  intros Ht Hne. cbv zeta.
  destruct (closePeerConnection_outbox p s) as [Hout _].
  split_and!; [..|done]; unfold closePeerConnection;
    (destruct (peerConnections s !! p) as [r0|] eqn:Hp; [|done]); cbn [snd].
  all: destruct (clear_tracked_timeout_frame (p +:+ "_ice")
                   (clear_tracked_timeout p s)) as (H1 & _ & H3 & H4).
  all: destruct (clear_tracked_timeout_frame p s) as (H1' & _ & H3' & H4').
  all: destruct (clear_tracked_timeout_rest (p +:+ "_ice")
                   (clear_tracked_timeout p s))
         as (G1 & G2 & G3 & G4 & G5 & G6 & G7).
  all: destruct (clear_tracked_timeout_rest p s)
         as (G1' & G2' & G3' & G4' & G5' & G6' & G7').
  all: cbv zeta in *; simpl.
  - by rewrite lookup_delete_ne, H3, H3'.
  - intros r Hr. rewrite lookup_alter_ne; [by rewrite H1, H1'|].
    intros ->. destruct (tr_open _ Ht _ _ Hp) as (? & ? & ? & _).
    destruct (tr_open _ Ht _ _ Hr) as (? & ? & ? & _). congruence.
  - by rewrite lookup_delete_ne, G1, G1'.
  - by rewrite lookup_delete_ne, G2, G2'.
  - by rewrite lookup_delete_ne, G3, G3'.
  - by rewrite lookup_delete_ne, G4, G4'.
  - by rewrite lookup_delete_ne, G5, G5'.
  - intros key Hk1 Hk2. by rewrite G7, G7', !lookup_delete_ne.
  - intros e He Hk1 Hk2. apply clear_tracked_timeout_keeps.
    + by apply clear_tracked_timeout_keeps.
    + rewrite G7'. intros [_ ?]%lookup_delete_Some. done.
  - by rewrite H4, H4'.
Qed.

Lemma closePeerConnection_leaves_others_witness :
  let s' := (closePeerConnection "bob" with_bob_and_carol).2 in
  peerConnections s' !! "carol" = Some 1 ∧
  pcs s' !! 1 = pcs with_bob_and_carol !! 1 ∧
  connectionTimeouts s' !! "carol" = Some 2%positive ∧
  connectionStatus s' !! "carol" = Some "connecting".
Proof.
  destruct (closePeerConnection_leaves_others "bob" "carol"
              with_bob_and_carol with_bob_and_carol_tracked)
    as (H1 & H2 & _ & _ & _ & _ & H3 & H4 & _); [done|].
  cbv zeta. split_and!.
  - rewrite H1. by vm_compute.
  - apply H2. by vm_compute.
  - rewrite H4 by done. by vm_compute.
  - rewrite H3. by vm_compute.
Defined.

(** The two timer keys can collide with another peer's: closing the
    session of bob cancels the connection timeout of a peer whose id is
    bob_ice. *)
Remark closePeerConnection_key_collision :
  let s := (createPeerConnection kind_browser "bob_ice" None None
              with_bob).2 in
  let s' := (closePeerConnection "bob" s).2 in
  connectionTimeouts s !! "bob_ice" = Some 2%positive ∧
  (timers s).*1 = [1%positive; 2%positive] ∧
  peerConnections s' !! "bob_ice" = Some 1 ∧
  connectionTimeouts s' !! "bob_ice" = None ∧ timers s' = [].
Proof. by vm_compute. Qed.

(** ** The connection timeout *)

Lemma fire_not_pending tid s : tid ∉ (timers s).*1 → fire tid s = s.
Proof.
  intros Hnin. unfold fire.
  destruct (list_find _ _) as [[i [tid' tm]]|] eqn:Hf; [|done].
  apply list_find_Some in Hf as (Hi & Htid & _). simpl in Htid. subst tid'.
  destruct Hnin. apply list_elem_of_fmap. exists (tid, tm).
  split; [done|]. by eapply list_elem_of_lookup_2.
Qed.

Lemma fire_last tid tm l s :
  timers s = l ++ [(tid, tm)] → (∀ e, e ∈ l → e.1 ≠ tid) →
  fire tid s = run_timer (tm_cb tm) (clearTimeout tid s).
Proof.
  intros Ht Hl. unfold fire. rewrite Ht.
  rewrite list_find_app_r; last first.
  { apply list_find_None, Forall_forall. intros e He. by apply Hl. }
  simpl. by rewrite decide_True.
Qed.

(** X12: the life of the connection timeout.  [createPeerConnection] for
    a peer without a connection arms one timer.  If it comes due while the
    connection is still new, the session is closed: the peer has no
    connection, queue or status any more, the connection object is closed
    and the error names the peer.  If the ICE connection state reached
    connected or completed first, the timer was cancelled and its id no
    longer fires anything.  If it comes due after the connection state has
    left new and connecting, the session is left open. *)
Theorem connection_timeout_lifecycle B p ls cb s :
  supported B = true → peerConnections s !! p = None → timers_fresh s →
  let r := next_pc s in
  let tid := next_timer s in
  let s1 := (createPeerConnection B p ls cb s).2 in
  (let s2 := fire tid s1 in
   peerConnections s2 !! p = None ∧ pc_closed (pc_of s2 r) = true ∧
   connectionError s2 = Some ("Connection timeout for " +:+ p) ∧
   iceCandidatesQueue s2 !! p = None ∧ connectionStatus s2 !! p = None) ∧
  (∀ st, st = "connected" ∨ st = "completed" →
     let s2 := oniceconnectionstatechange r st s1 in
     fire tid s2 = s2 ∧ peerConnections s2 !! p = Some r ∧
     connectionStatus s2 !! p = Some st) ∧
  (∀ st, st ≠ "connecting" → st ≠ "new" →
     let s2 := fire tid (onconnectionstatechange r st s1) in
     peerConnections s2 !! p = Some r ∧ pc_closed (pc_of s2 r) = false).
Proof.
  intros Hsup Hp Hfresh. cbv zeta.
  destruct (createPeerConnection_fresh B p ls cb s Hsup Hp)
    as (_ & Hpc & [l Hpcs] & _ & _ & _ & _ & Hst & Hct & Htm).
  cbv zeta in *.
  set (r := next_pc s) in *. set (tid := next_timer s) in *.
  set (s1 := (createPeerConnection B p ls cb s).2) in *.
  assert (∀ e, e ∈ timers s → e.1 ≠ tid) as Hold.
  { intros e He Heq. apply Hfresh in He. unfold tid in Heq. lia. }
  assert (pcs s1 !! r = Some (with_senders l (new_pc p cb))) as Hr.
  { by rewrite Hpcs, lookup_insert_eq. }
  assert (peerConnections s1 !! p = Some r) as Hp1.
  { by rewrite Hpc, lookup_insert_eq. }
  split; [|split].
  - rewrite (fire_last tid _ _ s1 Htm Hold). simpl.
    assert (pc_of (clearTimeout tid s1) r = with_senders l (new_pc p cb))
      as -> by (by apply pc_of_lookup).
    change (pc_connectionState (with_senders l (new_pc p cb))) with "new".
    rewrite bool_decide_eq_true_2 by (by right).
    set (s1' := set_connectionError _ _).
    unfold closePeerConnection.
    assert (peerConnections s1' !! p = Some r) as -> by done.
    destruct (clear_tracked_timeout_frame (p +:+ "_ice")
                (clear_tracked_timeout p s1')) as (H1 & _).
    destruct (clear_tracked_timeout_frame p s1') as (H1' & _).
    destruct (clear_tracked_timeout_rest (p +:+ "_ice")
                (clear_tracked_timeout p s1')) as (_ & _ & _ & _ & _ & G6 & _).
    destruct (clear_tracked_timeout_rest p s1') as (_ & _ & _ & _ & _ & G6' & _).
    cbv zeta in *. cbn [snd]. unfold pc_of. simpl.
    rewrite !lookup_delete_eq, lookup_total_alter_eq, H1, H1', G6, G6'.
    simpl. by rewrite Hr.
  - intros st Hst'. unfold oniceconnectionstatechange.
    set (s0 := set_pcs _ s1).
    assert (pc_peer (pc_of s0 r) = p) as ->.
    { unfold pc_of, s0. simpl. rewrite lookup_total_alter_eq, Hr. done. }
    rewrite bool_decide_eq_true_2 by done.
    unfold clear_tracked_timeout. simpl. rewrite Hct. simpl.
    split; [|split].
    + apply fire_not_pending. simpl. intros Hin.
      apply list_elem_of_fmap in Hin as ([tid' tm] & Heq & Hin).
      by apply list_elem_of_filter in Hin as [Hne _].
    + done.
    + by rewrite lookup_insert_eq.
  - intros st Hst1 Hst2. unfold onconnectionstatechange.
    set (s0 := set_pcs _ s1).
    assert (pcs s0 !! r =
            Some (with_connectionState st (with_senders l (new_pc p cb))))
      as Hr0.
    { unfold s0. simpl. by rewrite lookup_alter_eq, Hr. }
    set (s0' := if decide (st = "failed") then _ else s0).
    assert (timers s0' = timers s1 ∧ pcs s0' = pcs s0 ∧
            peerConnections s0' = peerConnections s1) as (Ht' & Hp' & Hq').
    { unfold s0'. by case_decide. }
    rewrite (fire_last tid (mkTimer CONNECTION_TIMEOUT (ConnectionTimeout p r))
               (timers s) s0'); [|by rewrite Ht' | done].
    simpl.
    assert (pc_of (clearTimeout tid s0') r =
            with_connectionState st (with_senders l (new_pc p cb))) as Hof.
    { apply pc_of_lookup. simpl. by rewrite Hp'. }
    rewrite Hof.
    change (pc_connectionState (with_connectionState st _)) with st.
    rewrite bool_decide_eq_false_2 by (intros [?|?]; done).
    rewrite Hof. simpl. by rewrite Hq'.
Qed.

Lemma connection_timeout_lifecycle_witness :
  let s1 := (createPeerConnection kind_browser "bob" (Some camera)
               (Some "bob") init).2 in
  peerConnections (fire 1%positive s1) !! "bob" = None ∧
  connectionError (fire 1%positive s1) = Some "Connection timeout for bob" ∧
  fire 1%positive (oniceconnectionstatechange 0 "connected" s1) =
    oniceconnectionstatechange 0 "connected" s1.
Proof.
  destruct (connection_timeout_lifecycle kind_browser "bob" (Some camera)
              (Some "bob") init) as ((H1 & _ & H2 & _) & H3 & _);
    [done | done | apply fresh_init |].
  cbv zeta. split; [exact H1|]. split; [exact H2|].
  apply (H3 "connected"). by left.
Defined.

(** ** Replacing a connection *)



(** ** An offer whose answer cannot be created *)

(** X14: when the hook's [handleOffer] builds a connection for a new peer
    and the browser accepts the offer but rejects [createAnswer], the
    function returns null with the error set, and the half-done work
    stays: the connection is stored with the offer as its remote
    description, and the candidates queued for the peer are still queued,
    none applied.  A candidate that arrives afterwards is then passed to
    the connection directly, ahead of the queued ones, which stay in the
    queue. *)
Theorem handleOffer_without_answer B p offer msg ls cb c s :
  supported B = true → peerConnections s !! p = None →
  (∀ pc, setRemoteDescription_error B pc offer = None) →
  (∀ pc, createAnswer_result B pc = inr msg) →
  let r := next_pc s in
  let s1 := (handleOffer B p offer ls cb s).2 in
  let s2 := (addIceCandidate B p c s1).2 in
  (handleOffer B p offer ls cb s).1 = None ∧
  connectionError s1 = Some ("Offer processing failed: " +:+ msg) ∧
  peerConnections s1 !! p = Some r ∧
  pc_remoteDescription (pc_of s1 r) = Some offer ∧
  queue_of s1 p = queue_of s p ∧ applied s1 = applied s ∧
  applied s2 = applied s ++ [attempt B (pc_of s1 r) r c] ∧
  queue_of s2 p = queue_of s p.
Proof.
  intros Hsup Hp Hrem Hans. cbv zeta.
  destruct (createPeerConnection_fresh B p ls cb s Hsup Hp)
    as (Hres & Hpc & [l Hpcs] & Hq & Happ & _).
  cbv zeta in *. unfold handleOffer. rewrite Hp.
  destruct (createPeerConnection B p ls cb s) as [res s0]. cbn [fst snd] in *.
  subst res. rewrite Hrem, Hans. unfold offer_failed. cbn [fst snd].
  set (r := next_pc s) in *.
  set (s1 := set_connectionError _ _).
  assert (pcs s1 !! r = Some (with_remote offer (with_senders l (new_pc p cb))))
    as Hr.
  { unfold s1. simpl. by rewrite lookup_alter_eq, Hpcs, lookup_insert_eq. }
  assert (peerConnections s1 !! p = Some r) as Hp1.
  { unfold s1. simpl. by rewrite Hpc, lookup_insert_eq. }
  rewrite (pc_of_lookup _ _ _ Hr).
  assert ((addIceCandidate B p c s1) = pc_addIceCandidate B r c s1) as ->.
  { unfold addIceCandidate. by rewrite Hp1, (pc_of_lookup _ _ _ Hr). }
  unfold pc_addIceCandidate, attempt. rewrite (pc_of_lookup _ _ _ Hr).
  split_and!; try done.
  simpl. by rewrite Happ.
Qed.

Lemma handleOffer_without_answer_witness :
  let s := (addIceCandidate no_answer_browser "bob" "c1" init).2 in
  let s1 := (handleOffer no_answer_browser "bob" (mkSdp SdpOffer "o") None
               None s).2 in
  let s2 := (addIceCandidate no_answer_browser "bob" "c2" s1).2 in
  connectionError s1 = Some "Offer processing failed: no answer" ∧
  queue_of s1 "bob" = ["c1"] ∧
  (applied s2).*1.*2 = ["c2"] ∧ queue_of s2 "bob" = ["c1"].
Proof.
  destruct (handleOffer_without_answer no_answer_browser "bob"
              (mkSdp SdpOffer "o") "no answer" None None "c2"
              (addIceCandidate no_answer_browser "bob" "c1" init).2)
    as (_ & H1 & _ & _ & H2 & _ & H3 & H4); [done..|].
  cbv zeta. split; [exact H1|]. split; [rewrite H2; by vm_compute|].
  split; [rewrite H3; by vm_compute | rewrite H4; by vm_compute].
Defined.

(** ** Closing every session *)

Lemma close_one p r s :
  peerConnections s !! p = Some r →
  let s' := (closePeerConnection p s).2 in
  peerConnections s' = delete p (peerConnections s) ∧
  iceCandidatesQueue s' = delete p (iceCandidatesQueue s) ∧
  remoteStreamsRef s' = delete p (remoteStreamsRef s) ∧
  pcs s' = alter close_pc r (pcs s) ∧
  connectionTimeouts s' =
    delete (p +:+ "_ice") (delete p (connectionTimeouts s)) ∧
  (∀ k tid, k = p ∨ k = p +:+ "_ice" →
     connectionTimeouts s !! k = Some tid → tid ∉ (timers s').*1) ∧
  (∀ e, e ∈ timers s' → e ∈ timers s) ∧
  outbox s' = outbox s ∧ applied s' = applied s.
Proof.
  intros Hp. cbv zeta.
  destruct (closePeerConnection_outbox p s) as [Hout _].
  unfold closePeerConnection in *. rewrite Hp in *. cbn [snd] in *.
  destruct (clear_tracked_timeout_frame (p +:+ "_ice")
              (clear_tracked_timeout p s)) as (H1 & _ & H3 & H4).
  destruct (clear_tracked_timeout_frame p s) as (H1' & _ & H3' & H4').
  destruct (clear_tracked_timeout_rest (p +:+ "_ice")
              (clear_tracked_timeout p s)) as (G1 & G2 & _ & _ & _ & _ & G7).
  destruct (clear_tracked_timeout_rest p s) as (G1' & G2' & _ & _ & _ & _ & G7').
  destruct (clear_tracked_timeout_spec p s) as (_ & Ht1 & Hs1).
  destruct (clear_tracked_timeout_spec (p +:+ "_ice")
              (clear_tracked_timeout p s)) as (_ & Ht2 & Hs2).
  cbv zeta in *. simpl.
  rewrite H1, H1', H3, H3', H4, H4', G1, G1', G2, G2', G7, G7'.
  split_and!; try done.
  - intros k tid Hk Hl. destruct (decide (k = p)) as [->|Hne].
    + intros Hin. apply (Ht1 tid Hl).
      apply list_elem_of_fmap in Hin as (e & -> & Hin).
      apply list_elem_of_fmap. exists e. split; [done|]. by apply Hs2.
    + destruct Hk as [->| ->]; [done|]. apply Ht2.
      by rewrite G7', lookup_delete_ne.
  - intros e He. by apply Hs1, Hs2.
Qed.

Lemma closed_stays_closed p s r :
  pc_closed (pc_of s r) = true →
  pc_closed (pc_of (closePeerConnection p s).2 r) = true.
Proof.
  intros Hc. destruct (peerConnections s !! p) as [r0|] eqn:Hp; last first.
  { by rewrite closePeerConnection_absent. }
  destruct (close_one p r0 s Hp) as (_ & _ & _ & Hpcs & _). cbv zeta in *.
  unfold pc_of in *. rewrite Hpcs, lookup_total_alter.
  case_decide; [subst r0|done]. by destruct (pcs s !! r).
Qed.

Lemma close_all_fold keys s :
  NoDup keys → (∀ p, p ∈ keys → is_Some (peerConnections s !! p)) →
  let s1 := foldl (λ acc p, (closePeerConnection p acc).2) s keys in
  (∀ p, peerConnections s1 !! p =
        if decide (p ∈ keys) then None else peerConnections s !! p) ∧
  (∀ p, iceCandidatesQueue s1 !! p =
        if decide (p ∈ keys) then None else iceCandidatesQueue s !! p) ∧
  (∀ p, remoteStreamsRef s1 !! p =
        if decide (p ∈ keys) then None else remoteStreamsRef s !! p) ∧
  (∀ p r, p ∈ keys → peerConnections s !! p = Some r →
          pc_closed (pc_of s1 r) = true) ∧
  (∀ r, pc_closed (pc_of s r) = true → pc_closed (pc_of s1 r) = true) ∧
  (∀ k, connectionTimeouts s !! k = None → connectionTimeouts s1 !! k = None) ∧
  (∀ p k, p ∈ keys → k = p ∨ k = p +:+ "_ice" →
          connectionTimeouts s1 !! k = None) ∧
  (∀ p k tid, p ∈ keys → k = p ∨ k = p +:+ "_ice" →
              connectionTimeouts s !! k = Some tid → tid ∉ (timers s1).*1) ∧
  (∀ e, e ∈ timers s1 → e ∈ timers s) ∧
  outbox s1 = outbox s ∧ applied s1 = applied s.
Proof.
  revert s. induction keys as [|q keys IH]; intros s Hnd Hin; cbv zeta.
  { simpl. split_and!; try done; intros; by match goal with
      | H : _ ∈ [] |- _ => apply elem_of_nil in H end. }
  apply NoDup_cons in Hnd as [Hq Hnd].
  destruct (Hin q) as [r0 Hp0]; [left|].
  destruct (close_one q r0 s Hp0)
    as (Hpc & Hqu & Hrs & Hpcs & Hct & Htid & Hsub & Hout & Happ).
  cbv zeta in *. cbn [foldl].
  set (s' := (closePeerConnection q s).2) in *.
  destruct (IH s' Hnd) as (I1 & I2 & I3 & I4 & I5 & I6 & I7 & I8 & I9 & I10 & I11).
  { intros p Hp. rewrite Hpc, lookup_delete_ne by (intros ->; done).
    apply Hin. by right. }
  cbv zeta in *.
  assert (∀ k, connectionTimeouts s !! k = None →
               connectionTimeouts s' !! k = None) as Hnone.
  { intros k Hk. rewrite Hct. apply lookup_delete_None. right.
    apply lookup_delete_None. by right. }
  split_and!.
  - intros p. rewrite I1, Hpc. destruct (decide (p = q)) as [->|Hne].
    + rewrite lookup_delete_eq, (decide_True (P := q ∈ q :: keys)) by left.
      by case_decide.
    + rewrite lookup_delete_ne by done.
      destruct (decide (p ∈ keys)).
      * by rewrite decide_True by (by right).
      * rewrite decide_False; [done|]. by intros [?|?]%elem_of_cons.
  - intros p. rewrite I2, Hqu. destruct (decide (p = q)) as [->|Hne].
    + rewrite lookup_delete_eq, (decide_True (P := q ∈ q :: keys)) by left.
      by case_decide.
    + rewrite lookup_delete_ne by done.
      destruct (decide (p ∈ keys)).
      * by rewrite decide_True by (by right).
      * rewrite decide_False; [done|]. by intros [?|?]%elem_of_cons.
  - intros p. rewrite I3, Hrs. destruct (decide (p = q)) as [->|Hne].
    + rewrite lookup_delete_eq, (decide_True (P := q ∈ q :: keys)) by left.
      by case_decide.
    + rewrite lookup_delete_ne by done.
      destruct (decide (p ∈ keys)).
      * by rewrite decide_True by (by right).
      * rewrite decide_False; [done|]. by intros [?|?]%elem_of_cons.
  - intros p r [->|Hp]%elem_of_cons Hr.
    + rewrite Hp0 in Hr. injection Hr as <-.
      apply I5. unfold pc_of. rewrite Hpcs, lookup_total_alter_eq.
      by destruct (pcs s !! r0).
    + apply (I4 p); [done|]. rewrite Hpc, lookup_delete_ne; [done|].
      intros ->. done.
  - intros r Hr. apply I5. by apply closed_stays_closed.
  - intros k Hk. by apply I6, Hnone.
  - intros p k [->|Hp]%elem_of_cons Hk.
    + apply I6. rewrite Hct. destruct Hk as [->| ->].
      * apply lookup_delete_None. right. by rewrite lookup_delete_eq.
      * by rewrite lookup_delete_eq.
    + by apply (I7 p).
  - intros p k tid Hp Hk Hl.
    destruct (decide (k = q ∨ k = q +:+ "_ice")) as [Hkq|Hkq].
    + intros Hin'. apply (Htid k tid Hkq Hl).
      apply list_elem_of_fmap in Hin' as (e & -> & Hin').
      apply list_elem_of_fmap. exists e. split; [done|]. by apply I9.
    + apply elem_of_cons in Hp as [->|Hp]; [done|].
      apply (I8 p k); [done..|]. rewrite Hct.
      rewrite !lookup_delete_ne; [done | intros <-; apply Hkq; auto..].
  - intros e He. by apply Hsub, I9.
  - by rewrite I10.
  - by rewrite I11.
Qed.

(** X15: [closeAllPeerConnections] closes every session, in whatever
    order the keys are enumerated.  Afterwards no peer has a connection
    and [remotePeers], [remoteStreams] and [connectionStatus] are empty;
    every connection object that was stored is closed; each peer that had
    a connection has lost its queue and cached stream, and the timers
    tracked under its id and under its id followed by [_ice] are
    cancelled.  Nothing is sent.  The queue kept for a peer without a
    connection is not part of the cleanup and stays. *)
Theorem closeAllPeerConnections_closes_all keys s :
  keys_of s keys →
  let s' := closeAllPeerConnections keys s in
  peerConnections s' = ∅ ∧ remotePeers s' = ∅ ∧ remoteStreams s' = ∅ ∧
  connectionStatus s' = ∅ ∧
  (∀ p r, peerConnections s !! p = Some r →
     pc_closed (pc_of s' r) = true ∧
     iceCandidatesQueue s' !! p = None ∧ remoteStreamsRef s' !! p = None ∧
     ∀ k, k = p ∨ k = p +:+ "_ice" →
       connectionTimeouts s' !! k = None ∧
       ∀ tid, connectionTimeouts s !! k = Some tid → tid ∉ (timers s').*1) ∧
  (∀ p, peerConnections s !! p = None →
     iceCandidatesQueue s' !! p = iceCandidatesQueue s !! p) ∧
  outbox s' = outbox s.
Proof.
  intros [Hnd Hkeys]. cbv zeta. unfold closeAllPeerConnections.
  destruct (close_all_fold keys s Hnd)
    as (I1 & I2 & I3 & I4 & _ & _ & I7 & I8 & _ & I10 & _).
  { intros p. apply Hkeys. }
  cbv zeta in *. simpl. split_and!; try done.
  - apply map_eq. intros p. rewrite I1, lookup_empty.
    case_decide as Hin; [done|]. apply eq_None_not_Some. by rewrite <-Hkeys.
  - intros p r Hp.
    assert (p ∈ keys) as Hin by (apply Hkeys; eauto).
    split_and!.
    + unfold pc_of. simpl. by apply (I4 p).
    + by rewrite I2, decide_True.
    + by rewrite I3, decide_True.
    + intros k Hk. split; [by apply (I7 p)|]. intros tid. by apply (I8 p).
  - intros p Hp. rewrite I2, decide_False; [done|].
    rewrite Hkeys, Hp. by intros [? ?].
Qed.

Lemma closeAllPeerConnections_closes_all_witness :
  let s := (addIceCandidate kind_browser "dave" "c0" with_bob_and_carol).2 in
  let s' := closeAllPeerConnections ["carol"; "bob"] s in
  peerConnections s' = ∅ ∧
  pc_closed (pc_of s' 0) = true ∧ pc_closed (pc_of s' 1) = true ∧
  iceCandidatesQueue s' !! "dave" = Some ["c0"].
Proof.
  destruct (closeAllPeerConnections_closes_all ["carol"; "bob"]
              (addIceCandidate kind_browser "dave" "c0" with_bob_and_carol).2)
    as (H1 & _ & _ & _ & H2 & H3 & _).
  - split.
    { apply NoDup_cons. split; [|apply NoDup_singleton].
      by intros ?%list_elem_of_singleton. }
    intros p. change (p ∈ ["carol"; "bob"] ↔
      is_Some (({["bob" := 0; "carol" := 1]} : gmap string nat) !! p)).
    rewrite !elem_of_cons, elem_of_nil.
    destruct (decide (p = "bob")) as [->|?].
    { rewrite lookup_insert_eq. split; [eauto | auto]. }
    rewrite lookup_insert_ne by done.
    destruct (decide (p = "carol")) as [->|?].
    + rewrite lookup_singleton_eq. split; [eauto | auto].
    + rewrite lookup_singleton_ne by done.
      split; [by intros [?|[?|[]]] | by intros [? ?]].
  - cbv zeta. split; [exact H1|].
    split; [by apply (H2 "bob" 0)|]. split; [by apply (H2 "carol" 1)|].
    by rewrite H3.
Defined.

(** ** Without a remote description no candidate is applied *)

Lemma nr_same s s' :
  pcs s' = pcs s → peerConnections s' = peerConnections s →
  no_remote_at_all s → no_remote_at_all s'.
Proof.
  intros H1 H2 Hn p r. unfold pc_of. rewrite H1, H2. apply Hn.
Qed.

Lemma nr_alter f r0 s :
  (∀ pc, pc_remoteDescription (f pc) = pc_remoteDescription pc) →
  no_remote_at_all s → no_remote_at_all (set_pcs (alter f r0 (pcs s)) s).
Proof.
  intros Hf Hn p r Hp. simpl in Hp. specialize (Hn p r Hp).
  unfold pc_of in *. simpl. rewrite lookup_total_alter.
  case_decide; [subst r0|done].
  rewrite lookup_total_alt in Hn. destruct (pcs s !! r); simpl in *; [|done].
  by rewrite Hf.
Qed.

Lemma nr_closePeerConnection p s :
  no_remote_at_all s →
  no_remote_at_all (closePeerConnection p s).2 ∧
  applied (closePeerConnection p s).2 = applied s.
Proof.
  intros Hn. destruct (peerConnections s !! p) as [r0|] eqn:Hp; last first.
  { by rewrite closePeerConnection_absent. }
  destruct (close_one p r0 s Hp) as (Hpc & _ & _ & Hpcs & _ & _ & _ & _ & Happ).
  cbv zeta in *. split; [|done].
  intros p' r. rewrite Hpc. intros [_ Hp']%lookup_delete_Some.
  pose proof (nr_alter close_pc r0 s (λ _, eq_refl) Hn p' r Hp') as Hr.
  unfold pc_of in *. by rewrite Hpcs.
Qed.

Lemma nr_createPeerConnection B p ls cb s :
  no_remote_at_all s →
  no_remote_at_all (createPeerConnection B p ls cb s).2 ∧
  applied (createPeerConnection B p ls cb s).2 = applied s.
Proof.
  intros Hn. unfold createPeerConnection, checkWebRTCSupport.
  destruct (supported B); cbn [negb fst snd setTimeout]; [|done].
  set (s1 := match peerConnections s !! p with
             | Some old => set_pcs (alter close_pc old (pcs s)) s
             | None => s
             end).
  assert (no_remote_at_all s1 ∧ applied s1 = applied s ∧
          peerConnections s1 = peerConnections s) as (Hn1 & Ha1 & Hp1).
  { unfold s1. destruct (peerConnections s !! p); [|done].
    split; [|done]. by apply nr_alter. }
  set (s6 := set_connectionTimeouts _ _).
  assert (pcs s6 = <[next_pc s1 := new_pc p cb]> (pcs s1) ∧
          peerConnections s6 = <[p := next_pc s1]> (peerConnections s1) ∧
          applied s6 = applied s1) as (Hpcs6 & Hpc6 & Ha6).
  { unfold s6. by destruct (iceCandidatesQueue _ !! p). }
  assert (∃ l, (match ls with
                | Some stream => add_local_tracks (next_pc s1) (st_tracks stream) s6
                | None => s6
                end) = set_pcs (<[next_pc s1 := with_senders l (new_pc p cb)]>
                                  (pcs s6)) s6) as [l ->].
  { destruct ls as [stream|].
    - apply add_local_tracks_spec. by rewrite Hpcs6, lookup_insert_eq.
    - exists []. rewrite insert_id; [by rewrite set_pcs_id|].
      by rewrite Hpcs6, lookup_insert_eq. }
  split; [|cbn [applied set_pcs]; congruence].
  intros p' r. cbn [peerConnections set_pcs]. rewrite Hpc6.
  unfold pc_of. cbn [pcs set_pcs]. rewrite Hpcs6, insert_insert_eq.
  destruct (decide (r = next_pc s1)) as [->|Hne].
  { intros _. by rewrite lookup_total_insert_eq. }
  rewrite lookup_total_insert_ne by done.
  rewrite lookup_insert_Some. intros [[_ ?]|[_ Hp']]; [done|].
  by apply (Hn1 p').
Qed.

Lemma nr_createOffer B p s :
  no_remote_at_all s →
  no_remote_at_all (createOffer B p s).2 ∧
  applied (createOffer B p s).2 = applied s.
Proof.
  intros Hn. unfold createOffer.
  destruct (peerConnections s !! p) as [r|]; [|done].
  destruct (createOffer_result B (pc_of s r)) as [offer|msg]; [|done].
  destruct (setLocalDescription_error B (pc_of s r) offer); [done|].
  cbn [setTimeout fst snd]. split; [|done].
  apply (nr_same (set_pcs (alter (with_local offer) r (pcs s)) s));
    [done..|]. by apply nr_alter.
Qed.



Lemma init_no_remote : no_remote_at_all init.
Proof. intros p r. unfold init. simpl. by rewrite lookup_empty. Qed.

Lemma sent_offer_no_remote : no_remote_at_all sent_offer.
Proof.
  unfold sent_offer, with_bob.
  apply nr_createOffer, nr_createPeerConnection, init_no_remote.
Qed.



(** ** What the listeners of the component do *)

Lemma listener_handleUserLeft_spec p s :
  let s' := listener_handleUserLeft p s in
  outbox s' = outbox s ∧ applied s' = applied s ∧
  pcs s' = pcs (closePeerConnection p s).2 ∧
  peerConnections s' = peerConnections (closePeerConnection p s).2.
Proof.
  unfold listener_handleUserLeft. simpl.
  destruct (closePeerConnection_outbox p s) as [-> _]. split; [done|].
  split; [|done].
  destruct (peerConnections s !! p) as [r|] eqn:Hp.
  - by destruct (close_one p r s Hp) as (_ & _ & _ & _ & _ & _ & _ & _ & ->).
  - by rewrite closePeerConnection_absent.
Qed.

Lemma deliver_spec B n d s :
  no_remote_at_all s →
  ∃ s', deliver B (3 + n) d s = Some (ending_of d, s') ∧
    no_remote_at_all s' ∧ applied s' = applied s ∧ outbox s' = outbox s.
Proof.
  intros Hn. destruct d as [o f name|a f name|c f|p].
  - exists (closePeerConnection "undefined" (closePeerConnection f s).2).2.
    split; [simpl; by rewrite !close_if_any|].
    destruct (nr_closePeerConnection f s Hn) as [Hn1 Ha1].
    destruct (nr_closePeerConnection "undefined" _ Hn1) as [Hn2 Ha2].
    split; [done|]. split; [congruence|].
    destruct (closePeerConnection_outbox "undefined"
                (closePeerConnection f s).2) as [-> _].
    by destruct (closePeerConnection_outbox f s) as [-> _].
  - by exists s.
  - exists (listener_handleIceCandidate B c f s). split; [done|].
    unfold listener_handleIceCandidate.
    rewrite (addIceCandidate_queues B f c s (Hn f)). split; [|done].
    by apply (nr_same s).
  - exists (listener_handleUserLeft p s). split; [done|].
    destruct (listener_handleUserLeft_spec p s) as (Ho & Ha & Hpcs & Hpc).
    destruct (nr_closePeerConnection p s Hn) as [Hn1 Ha1].
    cbv zeta in *. split; [by apply (nr_same (closePeerConnection p s).2)|].
    done.
Qed.

(** X17: through the listeners of the component no negotiation
    completes.  In a state in which no stored connection has a remote
    description (so the initial state, and any state after connections
    and offers were created), whatever offers, answers, candidates and
    user-left notices the relay delivers, in any order: every call of a
    listener ends, and ends the same way each time (the promise of the
    offer listener resolves with undefined, the answer listener ends on an
    uncaught TypeError, the candidate and the user-left listener return);
    no connection gets a remote description, no candidate is ever passed
    to a connection, and nothing is sent, in particular no answer.  The
    offer and the answer listener call themselves instead of the hook
    (three nested calls are all there is), and the candidate listener can
    then only queue. *)
Theorem listeners_complete_no_negotiation B n l s :
  no_remote_at_all s →
  ∃ s', deliver_all B (3 + n) l s = Some (ending_of <$> l, s') ∧
    no_remote_at_all s' ∧ applied s' = applied s ∧ outbox s' = outbox s.
Proof.
  revert s. induction l as [|d l IH]; intros s Hn.
  { by exists s. }
  destruct (deliver_spec B n d s Hn) as (s1 & Hd & Hn1 & Ha1 & Ho1).
  destruct (IH s1 Hn1) as (s2 & Hl & Hn2 & Ha2 & Ho2).
  exists s2. cbn [deliver_all]. rewrite Hd, Hl. split; [done|].
  split; [done|]. split; congruence.
Qed.

Lemma listeners_complete_no_negotiation_witness :
  ∃ s', deliver_all kind_browser 3
          [IceCandidateMsg "c1" "bob";
           AnswerMsg (mkSdp SdpAnswer "a") "bob" "Bob";
           IceCandidateMsg "c2" "bob";
           OfferMsg (mkSdp SdpOffer "o") "carol" "Carol"] sent_offer =
        Some ([Plain Returned; Plain Threw; Plain Returned;
               Settled (Resolved None)], s') ∧
    no_remote_at_all s' ∧ applied s' = applied sent_offer ∧
    outbox s' = outbox sent_offer.
Proof.
  apply (listeners_complete_no_negotiation kind_browser 0).
  apply sent_offer_no_remote.
Defined.

Lemma filter_twice {A} (P : A → Prop) `{!∀ x, Decision (P x)} (l : list A) :
  filter P (filter P l) = filter P l.
Proof.
  induction l as [|x l IH]; [done|]. rewrite (filter_cons P x l).
  case_decide; [|done]. rewrite filter_cons_True by done. by rewrite IH.
Qed.

(** X18: the user-left listener.  After a user-left notice for a peer the
    engine has no connection for it and the participant list has no entry
    with its id, the other entries keeping their order and the other peers
    their connections; a second notice for the same peer changes
    nothing. *)
Theorem user_left_removes_peer p s :
  let s' := listener_handleUserLeft p s in
  listener_handleUserLeft p s' = s' ∧
  peerConnections s' !! p = None ∧
  participants s' = filter (λ e, e.1 ≠ Some p) (participants s) ∧
  ∀ p', p' ≠ p → peerConnections s' !! p' = peerConnections s !! p'.
Proof.
  cbv zeta.
  destruct (listener_handleUserLeft_spec p s) as (_ & _ & _ & Hpc).
  cbv zeta in *.
  assert (peerConnections (listener_handleUserLeft p s) !! p = None) as Hnone.
  { rewrite Hpc. apply closePeerConnection_removes. }
  split_and!.
  - unfold listener_handleUserLeft at 1.
    rewrite (closePeerConnection_absent _ _ Hnone). cbn [snd].
    unfold listener_handleUserLeft, set_participants. simpl.
    by rewrite filter_twice.
  - done.
  - unfold listener_handleUserLeft. simpl.
    by destruct (closePeerConnection_outbox p s) as [_ ->].
  - intros p' Hne. rewrite Hpc.
    destruct (peerConnections s !! p) as [r|] eqn:Hp.
    + destruct (close_one p r s Hp) as (-> & _). by rewrite lookup_delete_ne.
    + by rewrite closePeerConnection_absent.
Qed.

Lemma user_left_removes_peer_witness :
  let s := set_participants [(Some "bob", Some "Bob"); (Some "carol", None)]
             with_bob_and_carol in
  let s' := listener_handleUserLeft "bob" s in
  listener_handleUserLeft "bob" s' = s' ∧
  peerConnections s' !! "bob" = None ∧
  participants s' = [(Some "carol", None)] ∧
  peerConnections s' !! "carol" = Some 1.
Proof.
  destruct (user_left_removes_peer "bob"
              (set_participants
                 [(Some "bob", Some "Bob"); (Some "carol", None)]
                 with_bob_and_carol)) as (H1 & H2 & H3 & H4).
  cbv zeta. split; [exact H1|]. split; [exact H2|].
  split; [rewrite H3; by vm_compute|]. rewrite H4 by done. by vm_compute.
Defined.

(** ** Sharing the screen *)

Lemma updateStream_spec p r stream s :
  peerConnections s !! p = Some r →
  let s' := (updateStream p stream s).2 in
  pcs s' = <[r := updated stream (pc_of s r)]> (pcs s) ∧
  peerConnections s' = peerConnections s ∧
  connectionStatus s' = connectionStatus s ∧
  outbox s' = outbox s ∧ next_pc s' = next_pc s.
Proof.
  intros Hp. cbv zeta. unfold updateStream, updated. rewrite Hp.
  by destruct (update_tracks _ _ _).
Qed.

Lemma share_loop_cons status stream q keys s :
  share_loop status stream (q :: keys) s =
    share_loop status stream keys
      (if decide (status !! q = Some "connected")
       then (updateStream q stream s).2 else s).
Proof. done. Qed.

Lemma share_loop_spec status stream keys s :
  NoDup keys → tracked s →
  let s' := share_loop status stream keys s in
  peerConnections s' = peerConnections s ∧
  connectionStatus s' = connectionStatus s ∧ outbox s' = outbox s ∧
  (∀ p r, p ∈ keys → status !! p = Some "connected" →
     peerConnections s !! p = Some r →
     pcs s' !! r = Some (updated stream (pc_of s r))) ∧
  (∀ r, (∀ p, p ∈ keys → status !! p = Some "connected" →
           peerConnections s !! p ≠ Some r) →
     pcs s' !! r = pcs s !! r).
Proof.
  revert s. induction keys as [|q keys IH]; intros s Hnd Ht; cbv zeta.
  { simpl. split_and!; try done. intros p r Hin. by apply elem_of_nil in Hin. }
  apply NoDup_cons in Hnd as [Hq Hnd]. rewrite share_loop_cons.
  set (s1 := if decide (status !! q = Some "connected")
             then (updateStream q stream s).2 else s).
  assert (tracked s1) as Ht1.
  { unfold s1. case_decide; [|done]. by apply tracked_updateStream. }
  assert (peerConnections s1 = peerConnections s ∧
          connectionStatus s1 = connectionStatus s ∧ outbox s1 = outbox s ∧
          (∀ r, (status !! q = Some "connected" →
                 peerConnections s !! q ≠ Some r) →
                pcs s1 !! r = pcs s !! r) ∧
          (∀ r, status !! q = Some "connected" →
                peerConnections s !! q = Some r →
                pcs s1 !! r = Some (updated stream (pc_of s r))))
    as (Hpc1 & Hcs1 & Hout1 & Hoth1 & Hq1).
  { unfold s1. case_decide as Hst; [|by split_and!].
    destruct (peerConnections s !! q) as [rq|] eqn:Hpq.
    - destruct (updateStream_spec q rq stream s Hpq) as (Hpcs & ? & ? & ? & _).
      cbv zeta in *. split_and!; try done.
      + intros r Hr. rewrite Hpcs, lookup_insert_ne; [done|].
        intros ->. by apply Hr.
      + intros r _ [= <-]. by rewrite Hpcs, lookup_insert_eq.
    - unfold updateStream. rewrite Hpq. by split_and!. }
  destruct (IH s1 Hnd Ht1) as (I1 & I2 & I3 & I4 & I5). cbv zeta in *.
  split_and!; try congruence.
  - intros p r [->|Hp]%elem_of_cons Hst Hpr.
    + rewrite I5; [by apply Hq1|]. intros p' Hp' _. rewrite Hpc1.
      intros Hp'r. destruct (tr_open _ Ht _ _ Hpr) as (? & ? & ? & _).
      destruct (tr_open _ Ht _ _ Hp'r) as (? & ? & ? & _). congruence.
    + rewrite (I4 p r Hp Hst) by (by rewrite Hpc1).
      assert (pcs s1 !! r = pcs s !! r) as Hsame.
      { apply Hoth1. intros _ Hqr.
        destruct (tr_open _ Ht _ _ Hpr) as (? & ? & ? & _).
        destruct (tr_open _ Ht _ _ Hqr) as (? & ? & ? & _). congruence. }
      unfold pc_of. by rewrite !lookup_total_alt, Hsame.
  - intros r Hr. rewrite I5.
    + apply Hoth1. intros Hst. apply Hr; [left | done].
    + intros p Hp Hst. rewrite Hpc1. apply Hr; [by right | done].
Qed.

(** X25: a shared screen reaches the peers whose status was connected
    when the handler was created, and only those.  For the loop of
    [handleToggleScreenShare] over the keys of the [connectionStatus] it
    holds, in whatever order, and whatever the state is by the time the
    loop runs: the connection of every peer whose status in that object is
    the string connected becomes what [updateStream] makes of it, and
    every other stored connection is left as it is, so that of a peer
    whose status is completed, and that of a peer that became connected
    only after the handler was created.  No connection is added or
    dropped and nothing is sent. *)
Theorem screen_goes_to_connected_peers status keys stream s :
  NoDup keys → (∀ p, p ∈ keys ↔ is_Some (status !! p)) →
  tracked s →
  let s' := share_loop status stream keys s in
  peerConnections s' = peerConnections s ∧
  connectionStatus s' = connectionStatus s ∧ outbox s' = outbox s ∧
  ∀ p r, peerConnections s !! p = Some r →
    pcs s' !! r =
      if decide (status !! p = Some "connected")
      then Some (updated stream (pc_of s r)) else pcs s !! r.
Proof.
  intros Hnd Hkeys Ht. cbv zeta.
  destruct (share_loop_spec status stream keys s Hnd Ht)
    as (I1 & I2 & I3 & I4 & I5). cbv zeta in *.
  split_and!; try done. intros p r Hp. case_decide as Hst.
  - apply (I4 p); [|done..]. apply Hkeys. by rewrite Hst.
  - apply I5. intros p' _ Hst' Hp'.
    destruct (tr_open _ Ht _ _ Hp) as (? & ? & ? & _).
    destruct (tr_open _ Ht _ _ Hp') as (? & ? & ? & _). congruence.
Qed.

Lemma bob_connected_carol_completed_tracked :
  tracked bob_connected_carol_completed.
Proof.
  unfold bob_connected_carol_completed.
  do 2 apply tracked_oniceconnectionstatechange.
  apply with_bob_and_carol_tracked.
Qed.

Lemma bob_and_carol_connected_tracked : tracked bob_and_carol_connected.
Proof.
  unfold bob_and_carol_connected.
  do 2 apply tracked_oniceconnectionstatechange.
  apply with_bob_and_carol_tracked.
Qed.

Lemma keys_bob_carol (x y : string) (p : PeerId) :
  p ∈ ["carol"; "bob"] ↔
  is_Some (({["bob" := x; "carol" := y]} : gmap PeerId string) !! p).
Proof.
  rewrite !elem_of_cons, elem_of_nil.
  destruct (decide (p = "bob")) as [->|?].
  { rewrite lookup_insert_eq. split; [eauto | auto]. }
  rewrite lookup_insert_ne by done.
  destruct (decide (p = "carol")) as [->|?].
  - rewrite lookup_singleton_eq. split; [eauto | auto].
  - rewrite lookup_singleton_ne by done.
    split; [by intros [?|[?|[]]] | by intros [? ?]].
Qed.

Lemma screen_goes_to_connected_peers_witness :
  let held : gmap PeerId string :=
    {["bob" := "connected"; "carol" := "completed"]} in
  let s := bob_connected_carol_completed in
  let s' := share_loop held screen ["carol"; "bob"] s in
  let stale : gmap PeerId string :=
    {["bob" := "connected"; "carol" := "checking"]} in
  let t := bob_and_carol_connected in
  let t' := share_loop stale screen ["carol"; "bob"] t in
  (connectionStatus s = held ∧
   pcs s' !! 0 = Some (updated screen (pc_of s 0)) ∧
   pcs s' !! 1 = pcs s !! 1) ∧
  (connectionStatus t !! "carol" = Some "connected" ∧
   pcs t' !! 0 = Some (updated screen (pc_of t 0)) ∧
   pcs t' !! 1 = pcs t !! 1).
Proof.
  assert (NoDup ["carol"; "bob"]) as Hnd.
  { apply NoDup_cons. split; [|apply NoDup_singleton].
    by intros ?%list_elem_of_singleton. }
  cbv zeta. split.
  - destruct (screen_goes_to_connected_peers
                {["bob" := "connected"; "carol" := "completed"]}
                ["carol"; "bob"] screen bob_connected_carol_completed)
      as (_ & _ & _ & H);
      [exact Hnd | apply keys_bob_carol
       | apply bob_connected_carol_completed_tracked |].
    split; [by vm_compute|].
    split; [by apply (H "bob" 0) | by apply (H "carol" 1)].
  - destruct (screen_goes_to_connected_peers
                {["bob" := "connected"; "carol" := "checking"]}
                ["carol"; "bob"] screen bob_and_carol_connected)
      as (_ & _ & _ & H);
      [exact Hnd | apply keys_bob_carol
       | apply bob_and_carol_connected_tracked |].
    split; [by vm_compute|].
    split; [by apply (H "bob" 0) | by apply (H "carol" 1)].
Defined.

End EngineFacts.

(** * Local media: flags and tracks *)

Module MediaFacts.
Import Media.

Section for_each.
Variable f : MTrack → MTrack.

Lemma for_each_cons r l m : for_each f (r :: l) m = for_each f l (alter f r m).
Proof. done. Qed.

Lemma lookup_for_each_notin l m r :
  r ∉ l → for_each f l m !! r = m !! r.
Proof.
  revert m. induction l as [|r0 l IH]; intros m Hnin; [done|].
  apply not_elem_of_cons in Hnin as [Hne Hnin].
  rewrite for_each_cons, IH by done. by rewrite lookup_alter_ne.
Qed.

Lemma lookup_for_each_in l m r :
  NoDup l → r ∈ l → for_each f l m !! r = f <$> m !! r.
Proof.
  revert m. induction l as [|r0 l IH]; intros m Hnd Hin.
  { by apply elem_of_nil in Hin. }
  apply NoDup_cons in Hnd as [Hr0 Hnd]. rewrite for_each_cons.
  destruct (decide (r = r0)) as [->|Hne].
  - rewrite lookup_for_each_notin by done. by rewrite lookup_alter_eq.
  - apply elem_of_cons in Hin as [?|Hin]; [done|].
    rewrite IH by done. by rewrite lookup_alter_ne.
Qed.

Lemma kind_for_each l m r :
  (∀ t, mt_kind (f t) = mt_kind t) →
  mt_kind <$> for_each f l m !! r = mt_kind <$> m !! r.
Proof.
  intros Hk. revert m. induction l as [|r0 l IH]; intros m; [done|].
  rewrite for_each_cons, IH, lookup_alter. case_decide; [subst r0|done].
  destruct (m !! r); simpl; [|done]. by rewrite Hk.
Qed.

Lemma for_each_is_Some l m r :
  is_Some (for_each f l m !! r) ↔ is_Some (m !! r).
Proof.
  revert m. induction l as [|r0 l IH]; intros m; [done|].
  by rewrite for_each_cons, IH, lookup_alter_is_Some.
Qed.

Lemma for_each_alter_comm l r m :
  for_each f l (alter f r m) = alter f r (for_each f l m).
Proof.
  revert m. induction l as [|r0 l IH]; intros m; [done|].
  rewrite !for_each_cons, <-IH. f_equal.
  destruct (decide (r0 = r)) as [->|Hne]; [done|]. by apply alter_alter_ne.
Qed.

Lemma for_each_twice l m :
  (∀ t, f (f t) = t) → for_each f l (for_each f l m) = m.
Proof.
  intros Hf. revert m. induction l as [|r l IH]; intros m; [done|].
  rewrite !for_each_cons, !for_each_alter_comm, alter_alter_eq.
  rewrite alter_id; [apply IH|]. intros t _. apply Hf.
Qed.
End for_each.

Lemma tracks_of_kind_for_each f kind l stream s s' :
  (∀ t, mt_kind (f t) = mt_kind t) →
  tracks s' = for_each f l (tracks s) →
  tracks_of_kind kind s' stream = tracks_of_kind kind s stream.
Proof.
  intros Hk Ht. unfold tracks_of_kind. apply list_filter_iff. intros r.
  by rewrite Ht, kind_for_each.
Qed.

Lemma flip_twice t : flip_enabled (flip_enabled t) = t.
Proof. destruct t as [k e x]. unfold flip_enabled. simpl. by rewrite negb_involutive. Qed.

Lemma elem_of_tracks_of_kind kind s stream r :
  r ∈ tracks_of_kind kind s stream ↔
  r ∈ stream ∧ mt_kind <$> tracks s !! r = Some kind.
Proof.
  unfold tracks_of_kind. rewrite list_elem_of_filter. tauto.
Qed.

(** The tracks of the stream after one of the two toggles. *)
Lemma toggled_track kind s stream r t' :
  NoDup stream → r ∈ stream →
  for_each flip_enabled (tracks_of_kind kind s stream) (tracks s) !! r
    = Some t' →
  ∃ t, tracks s !! r = Some t ∧ mt_kind t' = mt_kind t ∧
    mt_enabled t' =
      if decide (mt_kind t = kind) then negb (mt_enabled t) else mt_enabled t.
Proof.
  intros Hnd Hin.
  destruct (decide (r ∈ tracks_of_kind kind s stream)) as [Hk|Hk].
  - rewrite lookup_for_each_in; [|by apply NoDup_filter | done].
    apply elem_of_tracks_of_kind in Hk as [_ Hk].
    destruct (tracks s !! r) as [t|]; [|done]. simpl in *.
    intros [= <-]. exists t. injection Hk as Hk.
    by rewrite decide_True.
  - rewrite lookup_for_each_notin by done. intros Ht. exists t'.
    split; [done|]. split; [done|]. rewrite decide_False; [done|].
    intros Hkind. apply Hk, elem_of_tracks_of_kind. split; [done|].
    by rewrite Ht, <-Hkind.
Qed.

(** X20: the toggles keep the flags and the tracks in step.  On a local
    stream (whose tracks are distinct, as in every MediaStream) in which
    each audio track is enabled exactly when [isAudioEnabled] says so, and
    each video track when [isVideoEnabled] says so, [toggleAudio] and
    [toggleVideo] leave it so: one flips the flag and every track of its
    kind and nothing of the other kind.  Toggling twice gives back the
    state one started from. *)
Theorem toggles_keep_in_step s :
  (∀ stream, localStream s = Some stream → NoDup stream) → in_step s →
  in_step (toggleAudio s) ∧ in_step (toggleVideo s) ∧
  toggleAudio (toggleAudio s) = s ∧ toggleVideo (toggleVideo s) = s.
Proof.
  intros Hnd Hstep. split_and!.
  - unfold toggleAudio. destruct (localStream s) as [stream|] eqn:Hs; [|done].
    intros stream' r t'. simpl. intros [= <-] Hin Ht'.
    destruct (toggled_track "audio" s stream r t' (Hnd _ eq_refl) Hin Ht')
      as (t & Ht & Hkind & Hen).
    destruct (Hstep stream r t Hs Hin Ht) as [Ha Hv].
    rewrite Hkind, Hen. split; intros Hk.
    + rewrite decide_True by done. by rewrite Ha.
    + rewrite decide_False by (by rewrite Hk). by apply Hv.
  - unfold toggleVideo. destruct (localStream s) as [stream|] eqn:Hs; [|done].
    intros stream' r t'. simpl. intros [= <-] Hin Ht'.
    destruct (toggled_track "video" s stream r t' (Hnd _ eq_refl) Hin Ht')
      as (t & Ht & Hkind & Hen).
    destruct (Hstep stream r t Hs Hin Ht) as [Ha Hv].
    rewrite Hkind, Hen. split; intros Hk.
    + rewrite decide_False by (by rewrite Hk). by apply Ha.
    + rewrite decide_True by done. by rewrite Hv.
  - unfold toggleAudio. destruct (localStream s) as [stream|] eqn:Hs; [|by rewrite Hs].
    simpl.
    rewrite (tracks_of_kind_for_each flip_enabled "audio"
               (tracks_of_kind "audio" s stream) stream s) by done.
    rewrite for_each_twice by apply flip_twice.
    rewrite negb_involutive. destruct s. simpl in *. by rewrite Hs.
  - unfold toggleVideo. destruct (localStream s) as [stream|] eqn:Hs; [|by rewrite Hs].
    simpl.
    rewrite (tracks_of_kind_for_each flip_enabled "video"
               (tracks_of_kind "video" s stream) stream s) by done.
    rewrite for_each_twice by apply flip_twice.
    rewrite negb_involutive. destruct s. simpl in *. by rewrite Hs.
Qed.

Lemma live_in_step : in_step live.
Proof.
  intros stream r t [= <-]. rewrite !elem_of_cons, elem_of_nil.
  intros [->|[->|[]]]; intros [= <-]; by split.
Qed.

Lemma toggles_keep_in_step_witness :
  in_step (toggleAudio live) ∧ in_step (toggleVideo live) ∧
  toggleAudio (toggleAudio live) = live ∧
  toggleVideo (toggleVideo live) = live.
Proof.
  apply toggles_keep_in_step; [|apply live_in_step].
  intros stream [= <-]. apply NoDup_cons. split; [|apply NoDup_singleton].
  by intros ?%list_elem_of_singleton.
Defined.

(** X21: what the relay is told about the microphone.  [handleToggleAudio]
    sends the negation of the flag it was rendered with, whether or not
    there is a local stream.  For a user who is in a room and whose record
    on the relay agrees with the local flag: with a local stream, the
    record agrees with the local flag after the toggle as well; without
    one the local flag stays as it is and the relay records the
    opposite. *)
Theorem audio_toggle_reaches_relay now sid ur m s :
  Relay.users s !! sid = Some ur →
  Relay.truthy (Relay.u_roomId (Relay.deref s ur)) = true →
  Relay.u_isAudioEnabled (Relay.deref s ur) = isAudioEnabled m →
  let m' := (handleToggleAudio true m).1 in
  let s' :=
    Relay.handle_all ((λ x, (now, sid, x)) <$> (handleToggleAudio true m).2)
      s in
  (is_Some (localStream m) →
   Relay.u_isAudioEnabled (Relay.deref s' ur) = isAudioEnabled m') ∧
  (localStream m = None →
   isAudioEnabled m' = isAudioEnabled m ∧
   Relay.u_isAudioEnabled (Relay.deref s' ur) = negb (isAudioEnabled m')).
Proof.
  intros Hu Hroom Hflag. cbv zeta.
  assert (Relay.u_isAudioEnabled
            (Relay.deref
               (Relay.handle_all
                  ((λ x, (now, sid, x)) <$> (handleToggleAudio true m).2) s)
               ur) = negb (isAudioEnabled m)) as Hrelay.
  { unfold handleToggleAudio. simpl. unfold Relay.on_audio_toggle.
    rewrite Hu, Hroom. unfold Relay.deref. simpl.
    by rewrite lookup_total_insert_eq. }
  rewrite Hrelay. unfold handleToggleAudio, toggleAudio. simpl. split.
  - intros [stream ->]. done.
  - intros ->. done.
Qed.

Lemma audio_toggle_reaches_relay_witness :
  Relay.u_isAudioEnabled
    (Relay.deref
       (Relay.handle_all [(5, "alice", Relay.AudioToggle false)]
          Relay.one_room) 0) = false ∧
  isAudioEnabled (handleToggleAudio true idle).1 = true.
Proof.
  destruct (audio_toggle_reaches_relay 5 "alice" 0 live Relay.one_room)
    as [H1 _]; [by vm_compute..|].
  destruct (audio_toggle_reaches_relay 5 "alice" 0 idle Relay.one_room)
    as [_ H2]; [by vm_compute..|].
  split; [apply H1; by eexists | by apply H2].
Defined.

Lemma stopped_for_each l m r :
  r ∈ l → mt_ended <$> for_each stop_track l m !! r = (λ _, true) <$> m !! r.
Proof.
  revert m. induction l as [|r0 l IH]; intros m Hin.
  { by apply elem_of_nil in Hin. }
  rewrite for_each_cons. destruct (decide (r ∈ l)) as [Hl|Hl].
  - rewrite IH by done. rewrite lookup_alter. case_decide; [subst r0|done].
    by destruct (m !! r).
  - apply elem_of_cons in Hin as [->|?]; [|done].
    rewrite lookup_for_each_notin by done. rewrite lookup_alter_eq.
    by destruct (m !! r0).
Qed.

Lemma ended_stays l m r :
  mt_ended <$> m !! r = Some true →
  mt_ended <$> for_each stop_track l m !! r = Some true.
Proof.
  revert m. induction l as [|r0 l IH]; intros m Hm; [done|].
  rewrite for_each_cons. apply IH. rewrite lookup_alter.
  case_decide; [subst r0|done]. by destruct (m !! r).
Qed.

(** X22: [stopMedia] stops everything it holds.  Afterwards there is no
    local stream and no screen stream, every track that was in one of the
    two is ended, and screen sharing is off if a screen stream was held;
    the audio and video flags are left as they were.  A second call
    changes nothing. *)
Theorem stopMedia_stops_everything s :
  let s' := stopMedia s in
  localStream s' = None ∧ screenStreamRef s' = None ∧
  (∀ stream r,
     localStream s = Some stream ∨ screenStreamRef s = Some stream →
     r ∈ stream → is_Some (tracks s !! r) →
     mt_ended <$> tracks s' !! r = Some true) ∧
  (is_Some (screenStreamRef s) → isScreenSharing s' = false) ∧
  isAudioEnabled s' = isAudioEnabled s ∧
  isVideoEnabled s' = isVideoEnabled s ∧
  stopMedia s' = s'.
Proof.
  cbv zeta. unfold stopMedia, stopScreenShare.
  destruct s as [tr [ls|] [ss|] a v sh]; simpl; split_and!; try done.
  all: try (intros stream r [[= <-]|[= <-]] Hin [t Ht]).
  all: try (by intros [? ?]).
  - apply ended_stays. rewrite stopped_for_each by done. by rewrite Ht.
  - rewrite stopped_for_each by done.
    assert (is_Some (for_each stop_track ls tr !! r)) as [t' ->]; [|done].
    apply for_each_is_Some. eauto.
  - rewrite stopped_for_each by done. by rewrite Ht.
  - rewrite stopped_for_each by done. by rewrite Ht.
Qed.

Lemma stopMedia_stops_everything_witness :
  localStream (stopMedia sharing) = None ∧
  screenStreamRef (stopMedia sharing) = None ∧
  mt_ended <$> tracks (stopMedia sharing) !! 0 = Some true ∧
  mt_ended <$> tracks (stopMedia sharing) !! 2 = Some true ∧
  isScreenSharing (stopMedia sharing) = false ∧
  stopMedia (stopMedia sharing) = stopMedia sharing.
Proof.
  destruct (stopMedia_stops_everything sharing)
    as (H1 & H2 & H3 & H4 & _ & _ & H5).
  split; [exact H1|]. split; [exact H2|].
  split; [apply (H3 [0; 1]); [by left | by left | by eexists]|].
  split; [apply (H3 [2]); [by right | by left | by eexists]|].
  split; [apply H4; by eexists | exact H5].
Defined.

End MediaFacts.

(** * The recent rooms *)

Module RecentRoomsFacts.
Import RecentRooms.





(** X24: the store stays small and without repeated rooms.  Whatever
    [handleUsernameSubmit] writes has at most five entries, the new room
    first; and when the recent rooms had at most five entries with
    pairwise different ids, they still have after the call. *)
Theorem recent_rooms_stay_tidy trim roomId now s old :
  read (storage s) = Some old →
  let s1 := handleUsernameSubmit trim roomId now s in
  (storage s1 = storage s ∨
   (storage s1 =
      Parses (take 5 (mkEntry roomId (trim (userName s)) now :: old)) ∧
    ¬ Exists (λ e, e_id e = roomId) old)) ∧
  (length old ≤ 5 → NoDup (e_id <$> old) →
   ∃ l, read (storage s1) = Some l ∧ length l ≤ 5 ∧ NoDup (e_id <$> l))%nat.
Proof.
  intros Hread. cbv zeta. unfold handleUsernameSubmit.
  destruct (decide (trim (userName s) = "")) as [Hblank|Hname].
  { split; [by left|]. intros Hlen Hnd. exists old. by split_and!. }
  rewrite Hread. simpl.
  destruct (decide (Exists (λ e, e_id e = roomId) old)) as [Hex|Hno].
  { split; [by left|]. intros Hlen Hnd. exists old. by split_and!. }
  split; [by right|]. intros Hlen Hnd.
  exists (take 5 (mkEntry roomId (trim (userName s)) now :: old)).
  split; [done|]. split.
  - rewrite length_take. lia.
  - rewrite fmap_take. eapply sublist_NoDup; [|apply sublist_take]. csimpl.
    apply NoDup_cons. split; [|done].
    intros ([k n t] & Hid & Hin)%list_elem_of_fmap. simpl in Hid.
    apply Hno, Exists_exists. exists (mkEntry k n t). by split.
Qed.

Lemma recent_rooms_stay_tidy_witness :
  let s := mkState (Parses six_rooms) "Bea" false true in
  storage (handleUsernameSubmit (λ x, x) "r9" 7 s) =
    Parses (take 5 (mkEntry "r9" "Bea" 7 :: six_rooms)).
Proof.
  destruct (recent_rooms_stay_tidy (λ x, x) "r9" 7
              (mkState (Parses six_rooms) "Bea" false true) six_rooms eq_refl)
    as [[H|[H _]] _]; [by vm_compute in H | exact H].
Defined.

End RecentRoomsFacts.
